(** * advanced-news-scraper: extraction, summarisation and the scraping loop

    A shallow embedding of [src/extractors/ai_summarizer.py],
    [src/extractors/article_parser.py], [src/utils/request_handler.py],
    [src/utils/data_formatter.py] and the functions of [src/main.py] that
    search, filter and assemble records, with the properties of the
    specification that concern them and further properties of the code.

    Conventions of the embedding.
    - A Python [str] is a [list ascii]; a character is read as the code point
      of the same number (0 to 255), and the tables of [str.isspace], of the
      regular expression classes [\s] and [\w], and of [str.lower] are those
      of Unicode on that range.
    - A Python [float] is an IEEE 754 binary64 number, embedded with the
      Standard Library's [spec_float] at precision 53 and maximal exponent
      1024; every operation rounds to nearest, ties to even.
    - A Python [int] is a [Z]; list positions produced by [enumerate] and
      [range] are [nat].
    - An exception is a value [Raise e] of the type [result]; code that can
      raise is written in the error monad.
    - A parsed document (a [BeautifulSoup] object) is a tree of tags, text
      nodes and comments; a comment node also stands for a string of another
      class that [get_text] passes over (a declaration, a doctype, a
      processing instruction).
    - A string or a list of CPython has at most [sys.maxsize] items; the
      theorems that need a conversion of a length to a float to succeed carry
      this bound as a hypothesis.

    - The network, the clock, the parser of HTML and [datetime.strptime]
      are parameters of the functions that use them; a call of
      [RequestHandler.get] is run with the list of its requests and pauses.

    The definitions come first (modules [Py], [Float], [Summarizer], [Soup],
    [ArticleParser], [SummaryNotions], [ArticleNotions], [Http] and
    [Scraper]), the properties after them (modules [FloatFacts],
    [SummarizerFacts], [ArticleParserFacts], [SentenceFacts], [ScoringFacts],
    [SummaryFacts], [DocumentFacts], [HttpFacts] and [ScraperFacts]). *)

From Stdlib Require Import ZArith Ascii String Bool Lia.
From Stdlib Require Import List.
From Stdlib Require Import Sorted Permutation.
From Stdlib Require Import SpecFloat.
Import ListNotations.

Local Open Scope Z_scope.

(** ** Exceptions *)

Inductive exn : Type :=
| OverflowError
| ZeroDivisionError
| ValueError
| IndexError.

Inductive result (A : Type) : Type :=
| Ok (a : A)
| Raise (e : exn).

Arguments Ok {A} a.
Arguments Raise {A} e.

Definition bind {A B : Type} (m : result A) (k : A -> result B) : result B :=
  match m with
  | Ok a => k a
  | Raise e => Raise e
  end.

Notation "x <- m ;; k" := (bind m (fun x => k))
  (at level 61, m at next level, right associativity).

(** [mapM f l] runs [f] on the elements of [l] from left to right and stops at
    the first exception, as a [for] loop that appends to a list does. *)
Fixpoint mapM {A B : Type} (f : A -> result B) (l : list A) : result (list B) :=
  match l with
  | [] => Ok []
  | a :: l' => b <- f a ;; bs <- mapM f l' ;; Ok (b :: bs)
  end.

(** ** Strings *)

Module Py.

Definition str : Type := list ascii.

Definition lit (s : string) : str := list_ascii_of_string s.

Definition str_eq_dec : forall a b : str, {a = b} + {a <> b} :=
  list_eq_dec ascii_dec.

Definition code (c : ascii) : N := N_of_ascii c.

Definition between (lo hi n : N) : bool := (N.leb lo n && N.leb n hi)%bool.

(** [str.isspace] on one character, which is also the class [\s]. *)
Definition isspace (c : ascii) : bool :=
  let n := code c in
  (between 9 13 n || between 28 32 n || N.eqb n 133 || N.eqb n 160)%bool.

(** The class [\w] of a [str] pattern: alphanumeric characters and the
    underscore. *)
Definition isword (c : ascii) : bool :=
  let n := code c in
  (between 48 57 n || between 65 90 n || N.eqb n 95 || between 97 122 n
   || N.eqb n 170 || between 178 179 n || N.eqb n 181 || between 185 186 n
   || between 188 190 n || between 192 214 n || between 216 246 n
   || between 248 255 n)%bool.

Definition lower_char (c : ascii) : ascii :=
  let n := code c in
  if (between 65 90 n || between 192 214 n || between 216 222 n)%bool
  then ascii_of_N (n + 32) else c.

(** [s.lower()] *)
Definition lower (s : str) : str := map lower_char s.

Fixpoint dropwhile {A : Type} (p : A -> bool) (l : list A) : list A :=
  match l with
  | [] => []
  | a :: l' => if p a then dropwhile p l' else l
  end.

Definition lstrip (s : str) : str := dropwhile isspace s.
Definition rstrip (s : str) : str := rev (dropwhile isspace (rev s)).

(** [s.strip()] *)
Definition strip (s : str) : str := rstrip (lstrip s).

(** [sep.join(parts)] *)
Fixpoint join (sep : str) (parts : list str) : str :=
  match parts with
  | [] => []
  | [p] => p
  | p :: ps => p ++ sep ++ join sep ps
  end.

(** [sub in s] *)
Fixpoint prefixb (p s : str) : bool :=
  match p, s with
  | [], _ => true
  | _ :: _, [] => false
  | a :: p', b :: s' => (Ascii.eqb a b && prefixb p' s')%bool
  end.

Fixpoint contains (sub s : str) : bool :=
  (prefixb sub s ||
   match s with
   | [] => false
   | _ :: s' => contains sub s'
   end)%bool.

(** Truth value of a string, and [a or b] on strings. *)
Definition truthy (s : str) : bool :=
  match s with [] => false | _ => true end.

Definition or_else (a b : str) : str := if truthy a then a else b.

(** [l[:k]] for a Python integer [k]: a negative [k] counts from the end. *)
Definition slice_to {A : Type} (k : Z) (l : list A) : list A :=
  if 0 <=? k then firstn (Z.to_nat k) l
  else firstn (Z.to_nat (Z.of_nat (length l) + k)) l.

(** The maximal runs of characters of a class [p], as [re.findall] returns
    them for a pattern that is one such run.  [cur] is the run being read,
    last character first. *)
Definition flush (cur : str) : list str :=
  match cur with
  | [] => []
  | _ => [rev cur]
  end.

Fixpoint runs (p : ascii -> bool) (cur : str) (s : str) : list str :=
  match s with
  | [] => flush cur
  | c :: s' =>
      if p c then runs p (c :: cur) s'
      else flush cur ++ runs p [] s'
  end.

(** [re.findall(r"\b\w+\b", s)] *)
Definition word_runs (s : str) : list str := runs isword [] s.

(** A string without white space at either end. *)
Definition trimmed (s : str) : Prop :=
  (forall c r, s = c :: r -> isspace c = false) /\
  (forall c r, s = r ++ [c] -> isspace c = false).

(** [sys.maxsize]: no string or list is longer. *)
Definition sys_maxsize : Z := 2 ^ 63 - 1.

End Py.

Import Py.

(** ** Floating-point numbers *)

Module Float.

Definition prec : Z := 53.
Definition emax : Z := 1024.

Definition float : Type := spec_float.

(** The binary64 number nearest to the integer [n] (infinite when [n] is out
    of range). *)
Definition of_Z (n : Z) : float := binary_normalize prec emax n 0 false.

(** [float(n)] for an [int] [n], also the implicit conversion of an [int]
    operand in mixed arithmetic: [OverflowError] when [n] is too large. *)
Definition of_int (n : Z) : result float :=
  match of_Z n with
  | S754_infinity _ => Raise OverflowError
  | x => Ok x
  end.

Definition zero : float := S754_zero false.
Definition one : float := Eval vm_compute in of_Z 1.
Definition fifty : float := Eval vm_compute in of_Z 50.

Definition add : float -> float -> float := SFadd prec emax.
Definition mul : float -> float -> float := SFmul prec emax.
Definition ltb : float -> float -> bool := SFltb.
Definition leb : float -> float -> bool := SFleb.

Definition is_zero (x : float) : bool :=
  match x with
  | S754_zero _ => true
  | _ => false
  end.

(** [x / y] on floats: [ZeroDivisionError] when [y] is zero. *)
Definition truediv (x y : float) : result float :=
  if is_zero y then Raise ZeroDivisionError
  else Ok (SFdiv prec emax x y).

(** [math.sqrt(x)] on a float: [ValueError] on a negative argument. *)
Definition sqrt (x : float) : result float :=
  match x with
  | S754_finite true _ _ => Raise ValueError
  | S754_infinity true => Raise ValueError
  | _ => Ok (SFsqrt prec emax x)
  end.

(** [int(x)]: truncation towards zero; [ValueError] on a NaN and
    [OverflowError] on an infinity. *)
Definition to_int (x : float) : result Z :=
  match x with
  | S754_zero _ => Ok 0
  | S754_nan => Raise ValueError
  | S754_infinity _ => Raise OverflowError
  | S754_finite s m e =>
      let v := Z.shiftl (Zpos m) e in
      Ok (if s then - v else v)
  end.

(** [sum(l)] on a list of floats: the additions are made from left to right,
    starting from the integer 0 (the loop of CPython up to 3.11; the
    compensation term that later versions add is not modelled). *)
Definition sum (l : list float) : float := fold_left add l zero.

(** [max(l)] on a non-empty list: the running maximum is replaced by an item
    that compares greater. *)
Definition max (x : float) (l : list float) : float :=
  fold_left (fun m y => if ltb m y then y else m) l x.

(** [min(a, b)]: [b] is chosen when it compares less than [a]. *)
Definition min2 (a b : float) : float := if ltb b a then b else a.

(** The sign of a float, read as: not a NaN and not negative. *)
Definition nonneg (x : float) : bool := leb zero x.

(** Positive, possibly infinite. *)
Definition positive_float (x : float) : bool :=
  match x with
  | S754_finite false _ _ => true
  | S754_infinity false => true
  | _ => false
  end.

(** The number of bits that rounding [m * 2^e] to the format drops. *)
Definition shift_of (m e : Z) : Z := fexp prec emax (Zdigits2 m + e) - e.

(** One rounding step: the truncated mantissa, the rounded mantissa and the
    new exponent. *)
Definition rstep (m e : Z) (l : location) : Z * Z * Z :=
  let '(mrs, e') := shr_fexp prec emax m e l in
  (shr_m mrs, round_nearest_even (shr_m mrs) (loc_of_shr_record mrs), e').

(** A float that lies between the integers [Klo] and [Khi]. *)
Definition between_ints (Klo Khi : Z) (x : float) : Prop :=
  match x with
  | S754_zero _ => Klo = 0
  | S754_finite false m e =>
      e <= 0 /\ Klo * 2 ^ (- e) <= Z.pos m <= Khi * 2 ^ (- e)
  | _ => False
  end.

(** [math.floor(x)] on a finite float. *)
Definition floor (x : float) : Z :=
  match x with
  | S754_finite s m e => Z.shiftl (cond_Zopp s (Z.pos m)) e
  | _ => 0
  end.

(** The value that is truncated when the largest score is positive. *)
Definition scaled (raw_scores : list float) (lenf max_score : float) : float :=
  add fifty
    (mul fifty
       (min2 one (SFdiv prec emax (SFdiv prec emax (sum raw_scores) lenf) max_score))).

End Float.

(** ** The summariser ([src/extractors/ai_summarizer.py]) *)

Module Summarizer.

Definition _tokenize (text : str) : list str := word_runs (lower text).

Definition is_terminator (c : ascii) : bool :=
  (Ascii.eqb c "." || Ascii.eqb c "!" || Ascii.eqb c "?")%bool.

(** [_SENTENCE_SPLIT_RE.split(text)], the pattern being a run of white space
    that follows one of [.!?]. [in_sep] holds while a separator is being
    read, [after_term] when the previous character is a terminator, and [cur]
    is the piece being read, last character first. *)
Fixpoint re_split (in_sep after_term : bool) (cur : str) (s : str) : list str :=
  match s with
  | [] => [rev cur]
  | c :: s' =>
      if (in_sep && isspace c)%bool then re_split true false cur s'
      else if (after_term && isspace c)%bool then rev cur :: re_split true false [] s'
      else re_split false (is_terminator c) (c :: cur) s'
  end.

Definition _split_sentences (text : str) : list str :=
  let text := strip text in
  if negb (truthy text) then []
  else
    let sentences := re_split false false [] text in
    map strip (filter (fun s => truthy (strip s)) sentences).

(** [sum(token_counts[t] for t in query_token_set if t in token_counts)] *)
Definition overlap (tokens : list str) (query_tokens : list str) : Z :=
  fold_right Z.add 0
    (map (fun t => Z.of_nat (count_occ str_eq_dec tokens t))
       (filter (fun t => if in_dec str_eq_dec t tokens then true else false)
          (nodup str_eq_dec query_tokens))).

(** The body of the loop of [_score_sentences]. *)
Definition score_sentence (query_tokens : list str) (idx : nat) (sentence : str)
  : result (nat * Float.float) :=
  let tokens := _tokenize sentence in
  match tokens with
  | [] => Ok (idx, Float.zero)
  | _ =>
      let ov := overlap tokens query_tokens in
      n <- Float.of_int (Z.of_nat (length tokens)) ;;
      root <- Float.sqrt n ;;
      ovf <- Float.of_int ov ;;
      score <- Float.truediv ovf root ;;
      Ok (idx, score)
  end.

Fixpoint enumerate {A : Type} (start : nat) (l : list A) : list (nat * A) :=
  match l with
  | [] => []
  | a :: l' => (start, a) :: enumerate (S start) l'
  end.

Definition _score_sentences (sentences : list str) (query_tokens : list str)
  : result (list (nat * Float.float)) :=
  mapM (fun p => score_sentence query_tokens (fst p) (snd p))
       (enumerate 0 sentences).

Definition _compute_overall_score (scores : list (nat * Float.float)) : result Z :=
  match map snd scores with
  | [] => Ok 0
  | s0 :: rest =>
      let raw_scores := s0 :: rest in
      let max_score := Float.max s0 rest in
      if Float.leb max_score Float.zero then Ok 40
      else
        len <- Float.of_int (Z.of_nat (length raw_scores)) ;;
        avg_score <- Float.truediv (Float.sum raw_scores) len ;;
        ratio <- Float.truediv avg_score max_score ;;
        let normalized := Float.min2 Float.one ratio in
        Float.to_int (Float.add Float.fifty (Float.mul Float.fifty normalized))
  end.

(** [sorted(scores, key=lambda x: x[1], reverse=True)]: a stable sort, so that
    of two entries whose scores do not compare the earlier stays first. *)
Fixpoint insert_desc (x : nat * Float.float) (l : list (nat * Float.float))
  : list (nat * Float.float) :=
  match l with
  | [] => [x]
  | y :: l' =>
      if Float.ltb (snd x) (snd y) then y :: insert_desc x l'
      else x :: l
  end.

Definition sort_desc (l : list (nat * Float.float)) : list (nat * Float.float) :=
  fold_right insert_desc [] l.

(** [sorted(top_indices)] *)
Fixpoint insert_asc (x : nat) (l : list nat) : list nat :=
  match l with
  | [] => [x]
  | y :: l' => if Nat.ltb y x then y :: insert_asc x l' else x :: l
  end.

Definition sort_asc (l : list nat) : list nat := fold_right insert_asc [] l.

(** The indices of the sentences of the summary, in the order they are
    rendered. *)
Definition selected_indices (sentences : list str)
  (sorted_by_score : list (nat * Float.float)) (max_sentences : Z) : list nat :=
  if forallb (fun p => Float.leb (snd p) Float.zero) sorted_by_score
  then seq 0 (Z.to_nat (Z.min max_sentences (Z.of_nat (length sentences))))
  else sort_asc (map fst (slice_to max_sentences sorted_by_score)).

(** [f"- {s}"] *)
Definition bullet_text (s : str) : str := lit "- " ++ s.

(** [f"- {sentences[idx]}"] *)
Definition bullet (sentences : list str) (idx : nat) : result str :=
  match nth_error sentences idx with
  | Some s => Ok (bullet_text s)
  | None => Raise IndexError
  end.

Record SummaryResult : Type := {
  title : str;
  summary : str;
  score : Z
}.

Definition newline : str := ["010"%char].

(** [metadata_title or fallback], [metadata_title] being [None] or a string. *)
Definition title_or (metadata_title : option str) (fallback : str) : str :=
  match metadata_title with
  | Some t => or_else t fallback
  | None => fallback
  end.

Definition summarize (text : str) (query : str) (metadata_title : option str)
  (max_sentences : Z) : result SummaryResult :=
  let text := strip text in
  let query_tokens := _tokenize query in
  if negb (truthy text) then
    Ok {| title := title_or metadata_title (or_else query (lit "Untitled"));
          summary := [];
          score := 0 |}
  else
    let sentences := _split_sentences text in
    match sentences with
    | [] =>
        Ok {| title := title_or metadata_title (or_else query (lit "Untitled"));
              summary := [];
              score := 0 |}
    | first :: _ =>
        scores <- _score_sentences sentences query_tokens ;;
        let sorted_by_score := sort_desc scores in
        let selected := selected_indices sentences sorted_by_score max_sentences in
        bullets <- mapM (bullet sentences) selected ;;
        let summary_md := join newline bullets in
        overall_score <- _compute_overall_score sorted_by_score ;;
        Ok {| title := title_or metadata_title
                         (or_else (firstn 120 first)
                            (or_else query (lit "Untitled")));
              summary := summary_md;
              score := overall_score |}
    end.

(** The score of a result, or the exception raised. *)
Definition score_of (r : result SummaryResult) : result Z :=
  x <- r ;; Ok (score x).

(** The overall score as the specification words it: 0 without scores, 40
    when the largest score is not positive, otherwise the floor of
    50 + 50 * min(1.0, avg / max). *)
Definition spec_overall_score (raw_scores : list Float.float) : Z :=
  match raw_scores with
  | [] => 0
  | s0 :: rest =>
      let max_score := Float.max s0 rest in
      if Float.leb max_score Float.zero then 40
      else
        let avg_score :=
          SFdiv Float.prec Float.emax (Float.sum raw_scores)
            (Float.of_Z (Z.of_nat (length raw_scores))) in
        let normalized :=
          Float.min2 Float.one (SFdiv Float.prec Float.emax avg_score max_score) in
        Float.floor (Float.add Float.fifty (Float.mul Float.fifty normalized))
  end.

(** The total number of characters of a list of strings. *)
Definition total_length (l : list str) : nat :=
  fold_right (fun s n => (length s + n)%nat) 0%nat l.

Definition sumZ {A : Type} (f : A -> Z) (l : list A) : Z :=
  fold_right Z.add 0 (map f l).

(** A text, a query and their sentence scores, used as a running example. *)
Definition example_text : str := lit "Cats purr. Dogs bark at cats! Birds sing.".
Definition example_query : str := lit "cats dogs".

Definition example_scores : list (nat * Float.float) :=
  Eval vm_compute in
    match _score_sentences (_split_sentences (strip example_text))
            (_tokenize example_query) with
    | Ok scores => scores
    | Raise _ => []
    end.

(** A text whose sentences are ranked otherwise than they follow each other:
    the third is the best and the first the worst. *)
Definition ranked_text : str := lit "Birds sing. Cats purr. Dogs bark at cats!".

Definition ranked_scores : list (nat * Float.float) :=
  Eval vm_compute in
    match _score_sentences (_split_sentences (strip ranked_text))
            (_tokenize example_query) with
    | Ok scores => scores
    | Raise _ => []
    end.

Definition blank_scores : list (nat * Float.float) :=
  Eval vm_compute in
    match _score_sentences (_split_sentences (strip example_text)) [] with
    | Ok scores => scores
    | Raise _ => []
    end.

End Summarizer.

(** ** Parsed documents (the part of [bs4] the extractors use) *)

Module Soup.

(** A node of the tree: a text node, a comment, or a tag with its name, its
    attribute dictionary (each value as written in the source) and its
    children.  A comment is a string of the tree as a text node is: it is
    among the contents and the descendants of its parent and [.string] counts
    it, but [get_text] passes over it.  A document is the list of its
    top-level nodes.  Names of tags and of attributes are in lower case, as
    the parser leaves them. *)
#[warnings="-register-all"]
Inductive node : Type :=
| NavigableString (s : str)
| Comment (s : str)
| Tag (name : str) (attrs : list (str * str)) (contents : list node).

Definition soup : Type := list node.

Definition str_eqb (a b : str) : bool :=
  if str_eq_dec a b then true else false.

Fixpoint lookup (key : str) (attrs : list (str * str)) : option str :=
  match attrs with
  | [] => None
  | (k, v) :: attrs' => if str_eqb k key then Some v else lookup key attrs'
  end.

(** [tag.get(key)] *)
Definition get (n : node) (key : str) : option str :=
  match n with
  | Tag _ attrs _ => lookup key attrs
  | NavigableString _ | Comment _ => None
  end.

(** [tag.contents] *)
Definition contents (n : node) : list node :=
  match n with
  | Tag _ _ cs => cs
  | NavigableString _ | Comment _ => []
  end.

(** [tag.descendants]: the nodes below a node, in document order. *)
Fixpoint descendants (n : node) : list node :=
  match n with
  | NavigableString _ | Comment _ => []
  | Tag _ _ cs =>
      (fix go (l : list node) : list node :=
         match l with
         | [] => []
         | c :: l' => c :: descendants c ++ go l'
         end) cs
  end.

Definition descendants_of (cs : list node) : list node :=
  flat_map (fun c => c :: descendants c) cs.

(** The attributes whose value [bs4] splits on white space into a list. *)
Definition is_lit (s : str) (k : string) : bool := str_eqb s (lit k).

Definition multi_valued (tag key : str) : bool :=
  (is_lit key "class" || is_lit key "accesskey" || is_lit key "dropzone"
   || ((is_lit key "rel" || is_lit key "rev")
       && (is_lit tag "a" || is_lit tag "link"))
   || (is_lit key "rel" && is_lit tag "area")
   || (is_lit key "headers" && (is_lit tag "td" || is_lit tag "th"))
   || (is_lit key "accept-charset" && is_lit tag "form")
   || (is_lit key "archive" && is_lit tag "object")
   || (is_lit key "sizes" && is_lit tag "icon")
   || (is_lit key "sandbox" && is_lit tag "iframe")
   || (is_lit key "for" && is_lit tag "output"))%bool.

(** [re.findall(r"\S+", value)] *)
Definition split_ws (value : str) : list str :=
  runs (fun c => negb (isspace c)) [] value.

Definition space : str := [" "%char].

(** The strings a search criterion is tried on: the value itself, or for a
    multi-valued attribute each item of the list and then the items joined by
    a space. *)
Definition candidates (tag key value : str) : list str :=
  if multi_valued tag key
  then split_ws value ++ [join space (split_ws value)]
  else [value].

(** Whether the attribute [key] of a tag satisfies a criterion; a tag without
    the attribute satisfies none of the criteria used here. *)
Definition attr_matches (m : str -> bool) (tag : str) (attrs : list (str * str))
  (key : str) : bool :=
  match lookup key attrs with
  | Some v => existsb m (candidates tag key v)
  | None => false
  end.

(** [root.find_all(...)] and [root.find(...)], [root] being given by its
    children and the criterion as a predicate on the name and the attributes
    of a tag. *)
Definition matches (crit : str -> list (str * str) -> bool) (n : node) : bool :=
  match n with
  | Tag name attrs _ => crit name attrs
  | NavigableString _ | Comment _ => false
  end.

Definition find_all (crit : str -> list (str * str) -> bool) (root : list node)
  : list node :=
  filter (matches crit) (descendants_of root).

Definition find (crit : str -> list (str * str) -> bool) (root : list node)
  : option node :=
  hd_error (find_all crit root).

(** The criteria [name] and [name, attrs={key: value}]. *)
Definition named (name : str) : str -> list (str * str) -> bool :=
  fun n _ => str_eqb n name.

Definition named_with (name key value : str) : str -> list (str * str) -> bool :=
  fun n attrs => (str_eqb n name && attr_matches (str_eqb value) n attrs key)%bool.

(** [tag.string]: the only child of the tag when it is a string, a comment
    as well as a text node, and the string of the only child when it is a
    tag. *)
Fixpoint string_of (n : node) : option str :=
  match n with
  | NavigableString s => Some s
  | Comment s => Some s
  | Tag _ _ [c] => string_of c
  | Tag _ _ _ => None
  end.

(** [tag.get_text(" ", strip=True)]: the text nodes below the tag, each
    stripped, the empty ones left out, joined by a space.  The comments are
    not among them. *)
Definition stripped_strings (n : node) : list str :=
  flat_map
    (fun d =>
       match d with
       | NavigableString s => if truthy (strip s) then [strip s] else []
       | Comment _ => []
       | Tag _ _ _ => []
       end)
    (descendants n).

Definition get_text (n : node) : str := join space (stripped_strings n).

(** The attribute selector [[key*=sub]], which reads a multi-valued attribute
    as its items joined by a space. *)
Definition attr_contains (sub : str) (tag : str) (attrs : list (str * str))
  (key : str) : bool :=
  match lookup key attrs with
  | Some v =>
      contains sub (if multi_valued tag key then join space (split_ws v) else v)
  | None => false
  end.

(** [a or b] on the results of [find]: a tag is always true. *)
Definition or_tag (a b : option node) : option node :=
  match a with
  | Some _ => a
  | None => b
  end.

(** [tag.get(key)] read as a condition and then used: a non-empty value. *)
Definition get_truthy (n : node) (key : str) : option str :=
  match get n key with
  | Some v => if truthy v then Some v else None
  | None => None
  end.

End Soup.

(** ** The article parser ([src/extractors/article_parser.py]) *)

Module ArticleParser.

Import Soup.

Record ArticleMetadata : Type := {
  canonicalUrl : option str;
  title : option str;
  description : option str;
  image : option str;
  source : option str;
  author : option str;
  keywords : option str;
  published : option str;
  languageCode : option str
}.

(** [if tag and tag.get("content"): field = tag["content"].strip()] *)
Definition content_of (tag : option node) (otherwise : option str) : option str :=
  match tag with
  | Some t =>
      match get_truthy t (lit "content") with
      | Some c => Some (strip c)
      | None => otherwise
      end
  | None => otherwise
  end.

Definition meta_property (value : str) : str -> list (str * str) -> bool :=
  named_with (lit "meta") (lit "property") value.

Definition meta_name (value : str) : str -> list (str * str) -> bool :=
  named_with (lit "meta") (lit "name") value.

(** [lambda c: c and "author" in c.lower()] *)
Definition mentions_author (c : str) : bool :=
  (truthy c && contains (lit "author") (lower c))%bool.

Definition author_span : str -> list (str * str) -> bool :=
  fun n attrs =>
    (str_eqb n (lit "span") && attr_matches mentions_author n attrs (lit "class"))%bool.

(** [if tag.string: field = tag.string.strip()] *)
Definition stripped_string (a : node) : option str :=
  match string_of a with
  | Some s => if truthy s then Some (strip s) else None
  | None => None
  end.

Definition extract_canonical (doc : soup) (url : str) : option str :=
  match find (named_with (lit "link") (lit "rel") (lit "canonical")) doc with
  | Some canonical =>
      match get_truthy canonical (lit "href") with
      | Some href => Some href
      | None => Some url
      end
  | None => Some url
  end.

Definition extract_title (doc : soup) : option str :=
  let from_title :=
    match find (named (lit "title")) doc with
    | Some t => stripped_string t
    | None => None
    end in
  let og_title :=
    or_tag (find (meta_property (lit "og:title")) doc)
           (find (meta_name (lit "title")) doc) in
  content_of og_title from_title.

Definition extract_author (doc : soup) : option str :=
  let author :=
    or_tag (find (meta_name (lit "author")) doc)
      (or_tag (find (meta_property (lit "article:author")) doc)
              (find author_span doc)) in
  match author with
  | Some (Tag name _ _ as a) =>
      match (if str_eqb name (lit "meta") then get_truthy a (lit "content")
             else None) with
      | Some c => Some (strip c)
      | None => stripped_string a
      end
  | _ => None
  end.

Definition _extract_metadata (doc : soup) (url : str) : ArticleMetadata :=
  {| canonicalUrl := extract_canonical doc url;
     title := extract_title doc;
     description :=
       content_of (or_tag (find (meta_name (lit "description")) doc)
                          (find (meta_property (lit "og:description")) doc)) None;
     image := content_of (find (meta_property (lit "og:image")) doc) None;
     source :=
       content_of (or_tag (find (meta_property (lit "og:site_name")) doc)
                          (find (meta_name (lit "publisher")) doc)) None;
     author := extract_author doc;
     keywords := content_of (find (meta_name (lit "keywords")) doc) None;
     published :=
       content_of
         (or_tag (find (meta_property (lit "article:published_time")) doc)
            (or_tag (find (meta_name (lit "pubdate")) doc)
                    (find (meta_name (lit "date")) doc))) None;
     languageCode :=
       match find (named (lit "html")) doc with
       | Some html_tag =>
           match get_truthy html_tag (lit "lang") with
           | Some l => Some (strip l)
           | None => None
           end
       | None => None
       end |}.

(** [soup.select("main, div[id*=content], div[class*=content]")] *)
Definition content_container : str -> list (str * str) -> bool :=
  fun n attrs =>
    (str_eqb n (lit "main")
     || (str_eqb n (lit "div") && attr_contains (lit "content") n attrs (lit "id"))
     || (str_eqb n (lit "div") && attr_contains (lit "content") n attrs (lit "class")))%bool.

Definition select_containers (doc : soup) : list node :=
  find_all content_container doc.

(** [tag.find_all("p")] *)
Definition paragraphs_of (tag : node) : list node :=
  find_all (named (lit "p")) (contents tag).

Definition nonempty {A : Type} (l : list A) : bool :=
  match l with [] => false | _ => true end.

(** The loop over the candidate containers: [paragraphs] is assigned at each
    candidate and the loop stops at the first one that has a paragraph. *)
Fixpoint first_paragraphs (main_candidates : list node) (paragraphs : list node)
  : list node :=
  match main_candidates with
  | [] => paragraphs
  | candidate :: rest =>
      let paragraphs := paragraphs_of candidate in
      if nonempty paragraphs then paragraphs else first_paragraphs rest paragraphs
  end.

(** The loop over the paragraphs: a text shorter than 40 is skipped. *)
Definition long_texts (paragraphs : list node) : list str :=
  filter (fun text => negb (Nat.ltb (length text) 40)) (map get_text paragraphs).

Definition _extract_text (doc : soup) : str :=
  let paragraphs :=
    match find (named (lit "article")) doc with
    | Some article_tag => paragraphs_of article_tag
    | None => first_paragraphs (select_containers doc) []
    end in
  let paragraphs :=
    if nonempty paragraphs then paragraphs else find_all (named (lit "p")) doc in
  strip (join Summarizer.newline (long_texts paragraphs)).

Local Open Scope string_scope.

(** Documents used as examples. *)
Definition tag (name : string) (attrs : list (string * string)) (cs : list node)
  : node :=
  Tag (lit name) (map (fun p => (lit (fst p), lit (snd p))) attrs) cs.

Definition text (s : string) : node := NavigableString (lit s).

(** [<title>Page</title><meta property="og:title" content="OG title">
    <meta name="title" content="Named title">] *)
Definition og_title_tag : node :=
  tag "meta" [("property", "og:title"); ("content", "OG title")] [].

Definition named_title_tag : node :=
  tag "meta" [("name", "title"); ("content", "Named title")] [].

Definition title_doc : soup :=
  [tag "html" []
     [tag "head" []
        [tag "title" [] [text "Page"]; og_title_tag; named_title_tag]]].

(** [<div class="author">Bob</div>] *)
Definition author_div : node := tag "div" [("class", "author")] [text "Bob"].

Definition author_div_doc : soup := [tag "body" [] [author_div]].

(** [<div class="author">Bob</div><span class="post-Author"> Eve </span>] *)
Definition author_span_doc : soup :=
  [tag "body" [] [author_div; tag "span" [("class", "post-Author")] [text " Eve "]]].

(** [<span class="author"><!--by-->Eve</span>]: a [span] with a comment
    before its text. *)
Definition commented_span : node :=
  tag "span" [("class", "author")] [Comment (lit "by"); text "Eve"].

Definition commented_span_doc : soup := [tag "body" [] [commented_span]].

(** [<title><!--draft--></title><span class="author"><!-- staff --></span>]:
    a title and a [span] that hold a comment and nothing else. *)
Definition comment_only_span : node :=
  tag "span" [("class", "author")] [Comment (lit " staff ")].

Definition comment_only_doc : soup :=
  [tag "html" []
     [tag "head" [] [tag "title" [] [Comment (lit "draft")]];
      tag "body" [] [comment_only_span]]].

(** [<link rel="canonical" href=" https://example.com/a ">] *)
Definition canonical_doc : soup :=
  [tag "head" []
     [tag "link" [("rel", "canonical"); ("href", " https://example.com/a ")] []]].

(** [<main><p>Menu</p></main>
    <div id="content"><p>A paragraph of the article ...</p></div>] *)
Definition long_paragraph : str :=
  lit "A paragraph of the article that has more than forty characters.".

Definition content_div : node :=
  tag "div" [("id", "content")] [Tag (lit "p") [] [NavigableString long_paragraph]].

(** [<nav><p>Menu</p></nav>
    <div id="content"><p>A paragraph of the article ...</p></div>] *)
Definition content_doc : soup :=
  [tag "body" [] [tag "nav" [] [tag "p" [] [text "Menu"]]; content_div]].

Definition container_doc : soup :=
  [tag "body" [] [tag "main" [] [tag "p" [] [text "Menu"]]; content_div]].

(** The criterion of the author fallback as the specification words it: an
    element of any tag whose class mentions the author. *)
Definition any_author_element : str -> list (str * str) -> bool :=
  fun n attrs => attr_matches mentions_author n attrs (lit "class").

(** A qualifying paragraph, and a container that has one. *)
Definition qualifying (p : node) : bool := negb (Nat.ltb (length (get_text p)) 40).

Definition has_qualifying (container : node) : bool :=
  existsb qualifying (paragraphs_of container).

Definition has_paragraph (container : node) : bool :=
  nonempty (paragraphs_of container).


End ArticleParser.

(** ** Notions used to state properties of the summariser *)

Module SummaryNotions.

Import Summarizer.

(** The characters of a string that are not white space. *)
Definition visible (s : str) : str := filter (fun c => negb (isspace c)) s.

(** [t in query_token_set] *)
Definition is_query_token (query_tokens : list str) (t : str) : bool :=
  if in_dec str_eq_dec t query_tokens then true else false.

(** Whether a sentence has a token of the query. *)
Definition shares_token (query_tokens : list str) (sentence : str) : bool :=
  existsb (is_query_token query_tokens) (_tokenize sentence).

(** The number of bullets of a summary of [count] sentences, [matched]
    telling whether some sentence has a token of the query.  A negative
    [max_sentences] counts from the end of the ranking, as a slice does. *)
Definition bullet_count (max_sentences : Z) (count : nat) (matched : bool) : nat :=
  if (matched && (max_sentences <? 0))%bool
  then Z.to_nat (Z.of_nat count + max_sentences)
  else Z.to_nat (Z.min max_sentences (Z.of_nat count)).

(** An entry of the list of scores is ranked before another: its score is
    not below the other's, and when neither score is below the other its
    sentence is the earlier one. *)
Definition ranked_before (p q : nat * Float.float) : Prop :=
  Float.ltb (snd p) (snd q) = false /\
  (Float.ltb (snd q) (snd p) = true \/ (fst p < fst q)%nat).

End SummaryNotions.

(** ** Notions used to state properties of the article parser *)

Module ArticleNotions.

Import Soup ArticleParser.

(** Whether a document has a tag of a given name. *)
Definition has_tag (name : str) (doc : soup) : bool :=
  existsb (matches (named name)) (descendants_of doc).

(** The metadata of a document that has none of the tags that are read. *)
Definition default_metadata (url : str) : ArticleMetadata :=
  {| canonicalUrl := Some url; title := None; description := None; image := None;
     source := None; author := None; keywords := None; published := None;
     languageCode := None |}.

(** [<p>short</p><p>A paragraph of the article ...</p>] *)
Definition paragraphs_doc : soup :=
  [Tag (lit "body") []
     [Tag (lit "p") [] [NavigableString (lit "short")];
      Tag (lit "p") [] [NavigableString long_paragraph]]].

End ArticleNotions.

(** ** The HTTP client ([src/utils/request_handler.py])

    The network is a parameter of the model: [session_get net k] is what
    [self.session.get] does at the attempt [k] of a call of [get], and
    [sleeps net k] tells whether the [time.sleep] that follows this attempt
    returns.  A call of [get] is run together with the list of the requests
    and pauses it makes. *)

Module Http.

Record Response : Type := {
  status_code : Z;
  url : str;
  text : str
}.

(** One call of [self.session.get]: a response, a
    [requests.RequestException], or an exception of another class. *)
Inductive reply : Type :=
| Responds (response : Response)
| RequestException
| OtherException.

Record network : Type := {
  session_get : Z -> reply;
  sleeps : Z -> bool
}.

(** [last_exc]: the [RequestError] made for a response that is not a
    success, or the exception of the session. *)
Inductive last_exception : Type :=
| HttpStatus (status_code : Z) (url : str)
| SessionException.

(** How a call ends when it does not return: with the [RequestError] of the
    last line of [get], or with an exception that [get] does not catch. *)
Inductive failure : Type :=
| RequestError (last_exc : option last_exception)
| Uncaught.

Inductive outcome (A : Type) : Type :=
| Returns (a : A)
| Fails (e : failure).

Arguments Returns {A} a.
Arguments Fails {A} e.

(** A request, with the number of the attempt, and a pause of
    [backoff_factor * 2 ** exponent] seconds. *)
Inductive event : Type :=
| Request (attempt : Z)
| Sleep (exponent : Z).

Record RequestHandler : Type := {
  timeout : Z;
  max_retries : Z;
  backoff_factor : Float.float
}.

(** [200 <= response.status_code < 400] *)
Definition is_success (response : Response) : bool :=
  ((200 <=? status_code response) && (status_code response <? 400))%bool.

(** The loop of [get], from its test.  [None] stands for a loop that has not
    ended when [fuel] iterations are done. *)
Fixpoint get_loop (fuel : nat) (net : network) (max_retries attempt : Z)
  (last_exc : option last_exception) (log : list event)
  : option (outcome Response * list event) :=
  match fuel with
  | O => None
  | S fuel' =>
      if attempt <=? max_retries then
        let attempt := attempt + 1 in
        let log := log ++ [Request attempt] in
        let next (last_exc : option last_exception) :=
          if attempt <=? max_retries then
            let log := log ++ [Sleep (attempt - 1)] in
            if sleeps net attempt
            then get_loop fuel' net max_retries attempt last_exc log
            else Some (Fails Uncaught, log)
          else get_loop fuel' net max_retries attempt last_exc log in
        match session_get net attempt with
        | Responds response =>
            if is_success response then Some (Returns response, log)
            else next (Some (HttpStatus (status_code response) (url response)))
        | RequestException => next (Some SessionException)
        | OtherException => Some (Fails Uncaught, log)
        end
      else Some (Fails (RequestError last_exc), log)
  end.

(** [RequestHandler.get]: the test of the loop is made at most
    [max_retries + 2] times. *)
Definition get (self : RequestHandler) (net : network)
  : option (outcome Response * list event) :=
  get_loop (S (Z.to_nat (max_retries self + 1))) net (max_retries self) 0 None [].

(** The requests and the pauses of a log. *)
Definition requests (log : list event) : list Z :=
  flat_map (fun e => match e with Request k => [k] | Sleep _ => [] end) log.

Definition pauses (log : list event) : list Z :=
  flat_map (fun e => match e with Sleep k => [k] | Request _ => [] end) log.

(** An attempt after which [get] goes on: no response that is a success and
    no exception that escapes. *)
Definition retried (net : network) (attempt : Z) : option last_exception :=
  match session_get net attempt with
  | Responds response =>
      if is_success response then None
      else Some (HttpStatus (status_code response) (url response))
  | RequestException => Some SessionException
  | OtherException => None
  end.

(** The runs of the loop from its test, as a relation: [run net max_retries
    attempt last_exc result log] when the loop, entered with these values of
    [attempt] and [last_exc], ends with [result] after the events [log]. *)
Inductive run (net : network) (max_retries : Z)
  : Z -> option last_exception -> outcome Response -> list event -> Prop :=
| run_exhausted (attempt : Z) (last_exc : option last_exception) :
    max_retries < attempt ->
    run net max_retries attempt last_exc (Fails (RequestError last_exc)) []
| run_success (attempt : Z) (last_exc : option last_exception) (response : Response) :
    attempt <= max_retries ->
    session_get net (attempt + 1) = Responds response ->
    is_success response = true ->
    run net max_retries attempt last_exc (Returns response) [Request (attempt + 1)]
| run_escapes (attempt : Z) (last_exc : option last_exception) :
    attempt <= max_retries ->
    session_get net (attempt + 1) = OtherException ->
    run net max_retries attempt last_exc (Fails Uncaught) [Request (attempt + 1)]
| run_interrupted (attempt : Z) (last_exc : option last_exception)
    (cause : last_exception) :
    attempt + 1 <= max_retries ->
    retried net (attempt + 1) = Some cause ->
    sleeps net (attempt + 1) = false ->
    run net max_retries attempt last_exc (Fails Uncaught)
      [Request (attempt + 1); Sleep attempt]
| run_retry (attempt : Z) (last_exc : option last_exception)
    (cause : last_exception) (result : outcome Response) (log : list event) :
    attempt + 1 <= max_retries ->
    retried net (attempt + 1) = Some cause ->
    sleeps net (attempt + 1) = true ->
    run net max_retries (attempt + 1) (Some cause) result log ->
    run net max_retries attempt last_exc result
      (Request (attempt + 1) :: Sleep attempt :: log)
| run_last (attempt : Z) (last_exc : option last_exception)
    (cause : last_exception) :
    attempt = max_retries ->
    retried net (attempt + 1) = Some cause ->
    run net max_retries attempt last_exc (Fails (RequestError (Some cause)))
      [Request (attempt + 1)].

(** The log of [k] attempts made after the attempt [attempt], each but the
    last followed by a pause whose exponent is the number of the attempts
    made before. *)
Fixpoint attempts_from (attempt : Z) (k : nat) : list event :=
  match k with
  | O => []
  | S k' =>
      match k' with
      | O => [Request (attempt + 1)]
      | S _ => Request (attempt + 1) :: Sleep attempt :: attempts_from (attempt + 1) k'
      end
  end.

Definition attempts_log (k : nat) : list event := attempts_from 0 k.

(** A network on which the first two attempts fail and the third succeeds,
    and one that always answers with the status 503. *)
Definition page : Response :=
  {| status_code := 200; url := lit "http://example.com/"; text := lit "<p>ok</p>" |}.

Definition flaky : network :=
  {| session_get := fun k =>
       if k =? 1 then RequestException
       else if k =? 2 then
         Responds {| status_code := 503; url := lit "http://example.com/"; text := [] |}
       else Responds page;
     sleeps := fun _ => true |}.

Definition down : network :=
  {| session_get := fun _ =>
       Responds {| status_code := 503; url := lit "http://example.com/"; text := [] |};
     sleeps := fun _ => true |}.

(** The handler that [run_scraper] builds with the built-in settings: three
    retries, and pauses of 0.5, 1 and 2 seconds. *)
Definition half : Float.float :=
  Eval vm_compute in SFdiv Float.prec Float.emax Float.one (Float.of_Z 2).

Definition default_handler : RequestHandler :=
  {| timeout := 10; max_retries := 3; backoff_factor := half |}.

End Http.

(** ** Articles and records ([parse_article] of
    [src/extractors/article_parser.py], [src/utils/data_formatter.py] and
    [src/main.py])

    The parser of HTML, the network and the clock are parameters: the
    functions take the document that [BeautifulSoup] builds from a text, the
    network of the module [Http], and the times that [datetime.utcnow]
    returns. *)

Module Scraper.

Import Soup.

(** The exceptions of this part of the program: the [RequestError] of [get]
    or the one that [parse_article] makes of another exception, a
    [TypeError], the exceptions of the summariser, and an exception of
    another class that the session raises. *)
Inductive request_error : Type :=
| FailedToFetch (last_exc : option Http.last_exception)
| UnexpectedError.

Inductive exception : Type :=
| RequestError (message : request_error)
| TypeError
| Builtin (e : exn)
| OtherException.

Inductive completion (A : Type) : Type :=
| Done (a : A)
| Raised (e : exception).

Arguments Done {A} a.
Arguments Raised {A} e.

Definition and_then {A B : Type} (m : completion A) (k : A -> completion B)
  : completion B :=
  match m with
  | Done a => k a
  | Raised e => Raised e
  end.

(** A call of the summariser model, with its exceptions. *)
Definition lift {A : Type} (m : result A) : completion A :=
  match m with
  | Ok a => Done a
  | Raise e => Raised (Builtin e)
  end.

(** *** [parse_article] *)

Record CrawlInfo : Type := {
  loadedUrl : str;
  loadedTime : str;
  httpStatusCode : Z
}.

(** The dictionary that [parse_article] returns. *)
Module Article.

Record t : Type := {
  url : str;
  crawl : CrawlInfo;
  metadata : ArticleParser.ArticleMetadata;
  title : str;
  text : str
}.

End Article.

(** [text.split("\n", 1)[0]] *)
Fixpoint first_line (text : str) : str :=
  match text with
  | [] => []
  | c :: rest => if Ascii.eqb c "010" then [] else c :: first_line rest
  end.

(** The title of an article: the one of the metadata, or else the first
    line of the text, cut at 120 characters, or else the URL. *)
Definition article_title (metadata_title : option str) (text url : str) : str :=
  let fallback :=
    let first_line := if truthy text then first_line text else [] in
    if truthy first_line then firstn 120 first_line else url in
  match metadata_title with
  | Some title => if truthy title then title else fallback
  | None => fallback
  end.

(** The article made of a response. *)
Definition article_of (html_parser : str -> soup) (url loaded_time : str)
  (response : Http.Response) : Article.t :=
  let soup := html_parser (Http.text response) in
  let metadata := ArticleParser._extract_metadata soup url in
  let text := ArticleParser._extract_text soup in
  {| Article.url := url;
     Article.crawl :=
       {| loadedUrl := Http.url response;
          loadedTime := loaded_time;
          httpStatusCode := Http.status_code response |};
     Article.metadata := metadata;
     Article.title := article_title (ArticleParser.title metadata) text url;
     Article.text := text |}.

(** [parse_article]: a [RequestError] of [get] is raised again and any other
    exception becomes a [RequestError].  The result comes with the log of
    the call of [get]; it is [None] if that call does not end. *)
Definition parse_article (html_parser : str -> soup) (self : Http.RequestHandler)
  (net : Http.network) (loaded_time url : str)
  : option (completion Article.t * list Http.event) :=
  match Http.get self net with
  | None => None
  | Some (Http.Returns response, log) =>
      Some (Done (article_of html_parser url loaded_time response), log)
  | Some (Http.Fails (Http.RequestError last_exc), log) =>
      Some (Raised (RequestError (FailedToFetch last_exc)), log)
  | Some (Http.Fails Http.Uncaught, log) =>
      Some (Raised (RequestError UnexpectedError), log)
  end.

(** *** [build_article_record] *)

Module ArticleRecord.

Record t : Type := {
  url : str;
  crawl : CrawlInfo;
  aiSummary : Summarizer.SummaryResult;
  metadata : ArticleParser.ArticleMetadata;
  title : str;
  text : str
}.

End ArticleRecord.

Definition build_article_record (url : str) (crawl_info : CrawlInfo)
  (metadata : ArticleParser.ArticleMetadata) (ai_summary : Summarizer.SummaryResult)
  (full_text display_title : str) : ArticleRecord.t :=
  {| ArticleRecord.url := url;
     ArticleRecord.crawl :=
       {| loadedUrl := loadedUrl crawl_info;
          loadedTime := loadedTime crawl_info;
          httpStatusCode := httpStatusCode crawl_info |};
     ArticleRecord.aiSummary :=
       {| Summarizer.title := Summarizer.title ai_summary;
          Summarizer.summary := Summarizer.summary ai_summary;
          Summarizer.score := Summarizer.score ai_summary |};
     ArticleRecord.metadata :=
       {| ArticleParser.canonicalUrl := ArticleParser.canonicalUrl metadata;
          ArticleParser.title := ArticleParser.title metadata;
          ArticleParser.description := ArticleParser.description metadata;
          ArticleParser.image := ArticleParser.image metadata;
          ArticleParser.source := ArticleParser.source metadata;
          ArticleParser.author := ArticleParser.author metadata;
          ArticleParser.keywords := ArticleParser.keywords metadata;
          ArticleParser.published := ArticleParser.published metadata;
          ArticleParser.languageCode := ArticleParser.languageCode metadata |};
     ArticleRecord.title := display_title;
     ArticleRecord.text := full_text |}.

(** *** The body of the loop over the URLs of [run_scraper]

    The record of an article that was parsed: [summarize] is called with its
    default [max_sentences], and an exception it raises is not caught. *)
Definition record_of (query_text : str) (article : Article.t)
  : completion ArticleRecord.t :=
  let text := or_else (Article.text article) [] in
  and_then
    (lift (Summarizer.summarize text query_text (Some (Article.title article)) 3))
    (fun ai_summary =>
       Done (build_article_record (Article.url article) (Article.crawl article)
               (Article.metadata article) ai_summary text
               (or_else (Article.title article)
                  (or_else (Summarizer.title ai_summary) [])))).

(** One URL: an article that cannot be fetched is skipped. *)
Definition process_url (html_parser : str -> soup) (self : Http.RequestHandler)
  (net : Http.network) (loaded_time query_text url : str)
  : option (completion (option ArticleRecord.t) * list Http.event) :=
  match parse_article html_parser self net loaded_time url with
  | None => None
  | Some (Raised _, log) => Some (Done None, log)
  | Some (Done article, log) =>
      Some (and_then (record_of query_text article) (fun record => Done (Some record)),
            log)
  end.

(** *** [search_news_duckduckgo] *)

Definition has_class (c : str) (attrs : list (str * str)) : bool :=
  match lookup (lit "class") attrs with
  | Some v => existsb (str_eqb c) (split_ws v)
  | None => false
  end.

(** [soup.select("a.result__a")] *)
Definition result_link : str -> list (str * str) -> bool :=
  fun n attrs => (str_eqb n (lit "a") && has_class (lit "result__a") attrs)%bool.

(** [soup.find_all("a", href=True)] *)
Definition link_with_href : str -> list (str * str) -> bool :=
  fun n attrs =>
    (str_eqb n (lit "a")
     && match lookup (lit "href") attrs with Some _ => true | None => false end)%bool.

(** The first loop: a link without a [href], or with an empty one, is passed
    over before the test that ends the loop. *)
Fixpoint collect_results (links : list node) (max_articles : Z) (urls : list str)
  : list str :=
  match links with
  | [] => urls
  | link :: links' =>
      match get_truthy link (lit "href") with
      | None => collect_results links' max_articles urls
      | Some href =>
          let urls := if prefixb (lit "http") href then urls ++ [href] else urls in
          if Z.of_nat (length urls) >=? max_articles then urls
          else collect_results links' max_articles urls
      end
  end.

(** The second loop, over links that all have a [href]. *)
Fixpoint collect_links (links : list node) (max_articles : Z) (urls : list str)
  : list str :=
  match links with
  | [] => urls
  | link :: links' =>
      match get link (lit "href") with
      | None => collect_links links' max_articles urls
      | Some href =>
          let urls := if prefixb (lit "http") href then urls ++ [href] else urls in
          if Z.of_nat (length urls) >=? max_articles then urls
          else collect_links links' max_articles urls
      end
  end.

(** The URLs read in the page of results. *)
Definition search_urls (doc : soup) (max_articles : Z) : list str :=
  let urls := collect_results (find_all result_link doc) max_articles [] in
  let urls :=
    if negb (ArticleParser.nonempty urls)
    then collect_links (find_all link_with_href doc) max_articles urls
    else urls in
  slice_to max_articles urls.

(** The values of the [href] attributes of some links, and those that start
    with "http". *)
Definition hrefs (links : list node) : list str :=
  flat_map
    (fun link => match get link (lit "href") with Some href => [href] | None => [] end)
    links.

Definition http_urls (links : list node) : list str :=
  filter (prefixb (lit "http")) (hrefs links).

(** [search_news_duckduckgo]: a [RequestError] of the search request gives
    no URL. *)
Definition search_news_duckduckgo (html_parser : str -> soup)
  (self : Http.RequestHandler) (net : Http.network) (max_articles : Z)
  : option (completion (list str) * list Http.event) :=
  match Http.get self net with
  | None => None
  | Some (Http.Returns response, log) =>
      Some (Done (search_urls (html_parser (Http.text response)) max_articles), log)
  | Some (Http.Fails (Http.RequestError _), log) => Some (Done [], log)
  | Some (Http.Fails Http.Uncaught, log) => Some (Raised OtherException, log)
  end.

(** *** [parse_iso8601] and [filter_by_freshness]

    A [datetime] is naive or has a time zone; its time is counted in
    microseconds from [datetime.min].  [strptime value fmt] is
    [datetime.strptime(value, fmt)], or [None] when it raises [ValueError]. *)

Inductive datetime : Type :=
| Naive (microseconds : Z)
| Aware (microseconds : Z) (utcoffset : Z).

(** [datetime.max], in microseconds from [datetime.min]. *)
Definition datetime_max : Z := 315537897599999999.

(** [cleaned.replace("Z", "+00:00")] *)
Definition replace_Z (s : str) : str :=
  flat_map (fun c => if Ascii.eqb c "Z" then lit "+00:00" else [c]) s.

Definition formats : list str :=
  [lit "%Y-%m-%dT%H:%M:%S%z"; lit "%Y-%m-%dT%H:%M:%S"; lit "%Y-%m-%d"].

Fixpoint first_parsed (strptime : str -> str -> option datetime) (cleaned : str)
  (fmts : list str) : option datetime :=
  match fmts with
  | [] => None
  | fmt :: fmts' =>
      match strptime cleaned fmt with
      | Some dt => Some dt
      | None => first_parsed strptime cleaned fmts'
      end
  end.

Definition parse_iso8601 (strptime : str -> str -> option datetime) (value : str)
  : option datetime :=
  if negb (truthy value) then None
  else first_parsed strptime (replace_Z (strip value)) formats.

(** [datetime.utcnow() - timedelta(hours=max_age_hours)], [utcnow] being the
    naive time the clock gives: [OverflowError] out of the range of
    [datetime]. *)
Definition cutoff_of (utcnow max_age_hours : Z) : completion Z :=
  let cutoff := utcnow - max_age_hours * 3600000000 in
  if ((0 <=? cutoff) && (cutoff <=? datetime_max))%bool then Done cutoff
  else Raised (Builtin OverflowError).

(** [dt is None or dt >= cutoff]: a [datetime] with a time zone does not
    compare with the naive [cutoff]. *)
Definition is_fresh (dt : option datetime) (cutoff : Z) : completion bool :=
  match dt with
  | None => Done true
  | Some (Naive t) => Done (cutoff <=? t)
  | Some (Aware _ _) => Raised TypeError
  end.

(** The body of the loop: whether a record is kept. *)
Definition keeps (strptime : str -> str -> option datetime) (cutoff : Z)
  (rec : ArticleRecord.t) : completion bool :=
  match ArticleParser.published (ArticleRecord.metadata rec) with
  | None => Done true
  | Some published_raw =>
      if negb (truthy published_raw) then Done true
      else is_fresh (parse_iso8601 strptime published_raw) cutoff
  end.

Fixpoint filter_loop (strptime : str -> str -> option datetime) (cutoff : Z)
  (records : list ArticleRecord.t) : completion (list ArticleRecord.t) :=
  match records with
  | [] => Done []
  | rec :: records' =>
      and_then (keeps strptime cutoff rec) (fun keep =>
      and_then (filter_loop strptime cutoff records') (fun filtered =>
      Done (if keep then rec :: filtered else filtered)))
  end.

Definition filter_by_freshness (strptime : str -> str -> option datetime)
  (utcnow : Z) (records : list ArticleRecord.t) (max_age_hours : option Z)
  : completion (list ArticleRecord.t) :=
  match max_age_hours with
  | None => Done records
  | Some h =>
      if h =? 0 then Done records
      else
        and_then (cutoff_of utcnow h) (fun cutoff =>
        filter_loop strptime cutoff records)
  end.

(** A record is fresh when it has no date that can be read, or a naive one
    that is not before the cutoff. *)
Definition published_at (strptime : str -> str -> option datetime)
  (rec : ArticleRecord.t) : option datetime :=
  match ArticleParser.published (ArticleRecord.metadata rec) with
  | None => None
  | Some published_raw => parse_iso8601 strptime published_raw
  end.

Definition has_time_zone (dt : option datetime) : bool :=
  match dt with
  | Some (Aware _ _) => true
  | _ => false
  end.

Definition not_before (cutoff : Z) (dt : option datetime) : bool :=
  match dt with
  | Some (Naive t) => cutoff <=? t
  | _ => true
  end.

(** *** The loop over the queries of [run_scraper]

    A query, once its fields are read with their defaults, and what the
    world does while it is processed: the network of the search request, the
    network and the clock of each article in turn, and the time at which the
    records are filtered. *)

Record Query : Type := {
  query : str;
  max_articles : Z;
  hours_back : option Z
}.

Record World : Type := {
  search_net : Http.network;
  page_net : nat -> Http.network;
  loaded_at : nat -> str;
  utcnow : Z
}.

(** The loop over the URLs, from the article of number [i]: the record of
    each article that is fetched is appended to [all_records]. *)
Fixpoint process_urls (html_parser : str -> soup) (self : Http.RequestHandler)
  (world : World) (query_text : str) (i : nat) (urls : list str)
  (all_records : list ArticleRecord.t)
  : option (completion (list ArticleRecord.t)) :=
  match urls with
  | [] => Some (Done all_records)
  | url :: urls' =>
      match process_url html_parser self (page_net world i) (loaded_at world i)
              query_text url with
      | None => None
      | Some (Raised e, _) => Some (Raised e)
      | Some (Done None, _) =>
          process_urls html_parser self world query_text (S i) urls' all_records
      | Some (Done (Some record), _) =>
          process_urls html_parser self world query_text (S i) urls'
            (all_records ++ [record])
      end
  end.

(** The body of the loop over the queries: the search, the articles, and
    the filter, which is applied to all the records gathered so far. *)
Definition run_query (html_parser : str -> soup)
  (strptime : str -> str -> option datetime) (self : Http.RequestHandler)
  (q : Query) (world : World) (all_records : list ArticleRecord.t)
  : option (completion (list ArticleRecord.t)) :=
  match search_news_duckduckgo html_parser self (search_net world) (max_articles q) with
  | None => None
  | Some (Raised e, _) => Some (Raised e)
  | Some (Done urls, _) =>
      match process_urls html_parser self world (query q) 0 urls all_records with
      | None => None
      | Some (Raised e) => Some (Raised e)
      | Some (Done all_records) =>
          Some (filter_by_freshness strptime (utcnow world) all_records (hours_back q))
      end
  end.

Fixpoint run_queries (html_parser : str -> soup)
  (strptime : str -> str -> option datetime) (self : Http.RequestHandler)
  (queries : list (Query * World)) (all_records : list ArticleRecord.t)
  : option (completion (list ArticleRecord.t)) :=
  match queries with
  | [] => Some (Done all_records)
  | (q, world) :: queries' =>
      match run_query html_parser strptime self q world all_records with
      | None => None
      | Some (Raised e) => Some (Raised e)
      | Some (Done all_records) =>
          run_queries html_parser strptime self queries' all_records
      end
  end.

(** The records that [run_scraper] writes. *)
Definition run_scraper (html_parser : str -> soup)
  (strptime : str -> str -> option datetime) (self : Http.RequestHandler)
  (queries : list (Query * World)) : option (completion (list ArticleRecord.t)) :=
  run_queries html_parser strptime self queries [].

(** What holds of every record that is written. *)
Definition well_formed (record : ArticleRecord.t) : Prop :=
  prefixb (lit "http") (ArticleRecord.url record) = true /\
  ArticleRecord.title record <> [] /\
  Summarizer.title (ArticleRecord.aiSummary record) = ArticleRecord.title record /\
  0 <= Summarizer.score (ArticleRecord.aiSummary record) <= 100 /\
  200 <= httpStatusCode (ArticleRecord.crawl record) < 400 /\
  trimmed (ArticleRecord.text record).

(** *** [load_input_file]

    The value that [json.load] returns, an object being given by its items,
    and the checks made on it. *)

#[warnings="-register-all"]
Inductive json : Type :=
| JNull
| JBool (b : bool)
| JInt (n : Z)
| JFloat (x : Float.float)
| JString (s : str)
| JArray (items : list json)
| JObject (items : list (str * json)).

Fixpoint lookup_item (key : str) (items : list (str * json)) : option json :=
  match items with
  | [] => None
  | (k, v) :: items' => if str_eqb k key then Some v else lookup_item key items'
  end.

(** The exceptions of [load_input_file]: the [AttributeError] of a payload
    without a method [get], and the two [ValueError]s. *)
Inductive input_error : Type :=
| NoGetMethod
| QueriesNotArray
| EntryWithoutQuery.

Inductive loaded (A : Type) : Type :=
| Accepted (a : A)
| Rejected (e : input_error).

Arguments Accepted {A} a.
Arguments Rejected {A} e.

(** [isinstance(item, dict) and "query" in item] *)
Definition is_query_entry (item : json) : bool :=
  match item with
  | JObject items =>
      match lookup_item (lit "query") items with
      | Some _ => true
      | None => false
      end
  | _ => false
  end.

(** The loop over the entries. *)
Fixpoint normalize (queries normalized : list json) : loaded (list json) :=
  match queries with
  | [] => Accepted normalized
  | item :: queries' =>
      if negb (is_query_entry item) then Rejected EntryWithoutQuery
      else normalize queries' (normalized ++ [item])
  end.

(** [load_input_file], from the payload that was read. *)
Definition load_queries (payload : json) : loaded (list json) :=
  match payload with
  | JObject items =>
      match lookup_item (lit "queries") items with
      | Some (JArray queries) => normalize queries []
      | _ => Rejected QueriesNotArray
      end
  | _ => Rejected NoGetMethod
  end.

(** [{"queries": [{"query": "ai", "max_articles": "many"}]}] *)
Definition example_payload : json :=
  JObject
    [(lit "queries",
      JArray [JObject [(lit "query", JString (lit "ai"));
                       (lit "max_articles", JString (lit "many"))]])].

(** A function that stands for [strptime] in examples: it reads one date
    with a time zone and one without. *)
Definition example_strptime (value fmt : str) : option datetime :=
  if (str_eqb fmt (lit "%Y-%m-%dT%H:%M:%S%z")
      && str_eqb value (lit "2024-05-01T12:00:00+00:00"))%bool
  then Some (Aware 63850161600000000 0)
  else if (str_eqb fmt (lit "%Y-%m-%d") && str_eqb value (lit "2024-05-01"))%bool
  then Some (Naive 63850118400000000)
  else None.

(** The record of a page fetched at a URL, for a query. *)
Definition example_record (published : option str) : ArticleRecord.t :=
  {| ArticleRecord.url := lit "http://example.com/";
     ArticleRecord.crawl :=
       {| loadedUrl := lit "http://example.com/";
          loadedTime := lit "2024-05-02T00:00:00Z";
          httpStatusCode := 200 |};
     ArticleRecord.aiSummary :=
       {| Summarizer.title := lit "Untitled"; Summarizer.summary := [];
          Summarizer.score := 0 |};
     ArticleRecord.metadata :=
       {| ArticleParser.canonicalUrl := Some (lit "http://example.com/");
          ArticleParser.title := None; ArticleParser.description := None;
          ArticleParser.image := None; ArticleParser.source := None;
          ArticleParser.author := None; ArticleParser.keywords := None;
          ArticleParser.published := published;
          ArticleParser.languageCode := None |};
     ArticleRecord.title := lit "Untitled";
     ArticleRecord.text := [] |}.

(** A page of results with two result links and another link. *)
Definition results_page : soup :=
  [Tag (lit "body") []
     [Tag (lit "a") [(lit "class", lit "result__a"); (lit "href", lit "http://a.example/1")] [];
      Tag (lit "a") [(lit "class", lit "nav"); (lit "href", lit "http://nav.example/")] [];
      Tag (lit "a") [(lit "class", lit "big result__a"); (lit "href", lit "/relative")] [];
      Tag (lit "a") [(lit "class", lit "result__a"); (lit "href", lit "https://b.example/2")] []]].

(** A parser that stands for [BeautifulSoup] in examples: the text
    "results" is the page of results, and any other text is the document
    [paragraphs_doc]. *)
Definition example_parser : str -> soup :=
  fun text =>
    if str_eqb text (lit "results") then results_page
    else ArticleNotions.paragraphs_doc.

(** A run of one query: the search succeeds at once, and each article is
    fetched at the third attempt. *)
Definition example_query : Query :=
  {| query := lit "article"; max_articles := 5; hours_back := Some 24 |}.

Definition example_world : World :=
  {| search_net :=
       {| Http.session_get := fun _ =>
            Http.Responds
              {| Http.status_code := 200;
                 Http.url := lit "https://duckduckgo.com/html/";
                 Http.text := lit "results" |};
          Http.sleeps := fun _ => true |};
     page_net := fun _ => Http.flaky;
     loaded_at := fun _ => lit "2024-05-02T00:00:00Z";
     utcnow := 63850204800000000 |}.

(** The same run with a window of 12 hours, entered with a record of an
    earlier query that is dated from the day before. *)
Definition narrow_query : Query :=
  {| query := lit "article"; max_articles := 5; hours_back := Some 12 |}.

Definition earlier_record : ArticleRecord.t := example_record (Some (lit "2024-05-01")).

Definition example_filtered : list ArticleRecord.t :=
  Eval vm_compute in
    match run_query example_parser example_strptime Http.default_handler
            narrow_query example_world [earlier_record] with
    | Some (Done records) => records
    | _ => []
    end.

Definition example_output : list ArticleRecord.t :=
  Eval vm_compute in
    match run_scraper example_parser example_strptime Http.default_handler
            [(example_query, example_world)] with
    | Some (Done records) => records
    | _ => []
    end.

End Scraper.

(** ** Rounding to binary64

    The facts about [binary_round_aux] that the summariser needs: the sign of
    a result, the size of its mantissa, that rounding an exact value keeps it
    between two integers of the format, and that a value of the normal range
    is not rounded to zero. *)

Module FloatFacts.

Import Float.

(** *** Digits and shifts *)

Lemma digits2_pos_size (p : positive) : digits2_pos p = Pos.size p.
Proof. induction p; simpl; congruence. Qed.

Lemma Zdigits2_log2 (m : Z) : 0 < m -> Zdigits2 m = Z.log2 m + 1.
Proof.
  destruct m as [|p|p]; try lia. intros _. simpl.
  rewrite digits2_pos_size. destruct p; simpl; lia.
Qed.

Lemma Zdigits2_nonneg (m : Z) : 0 <= m -> 0 <= Zdigits2 m.
Proof. destruct m; simpl; lia. Qed.

Lemma Zdigits2_bounds (m : Z) :
  0 < m -> 2 ^ (Zdigits2 m - 1) <= m < 2 ^ Zdigits2 m.
Proof.
  intros Hm. rewrite (Zdigits2_log2 m Hm).
  replace (Z.log2 m + 1 - 1) with (Z.log2 m) by lia.
  replace (Z.log2 m + 1) with (Z.succ (Z.log2 m)) by lia.
  apply Z.log2_spec; assumption.
Qed.

Lemma Zdigits2_le_of_lt_pow (m k : Z) :
  0 <= m -> 0 <= k -> m < 2 ^ k -> Zdigits2 m <= k.
Proof.
  intros Hm Hk Hlt.
  destruct (Z.eq_dec m 0) as [->|Hne]; [simpl; lia|].
  rewrite Zdigits2_log2 by lia.
  assert (Z.log2 m < k) by (apply Z.log2_lt_pow2; lia). lia.
Qed.

Lemma Zdigits2_gt_of_pow_le (m k : Z) :
  0 <= k -> 2 ^ k <= m -> k < Zdigits2 m.
Proof.
  intros Hk Hle.
  assert (0 < 2 ^ k) by (apply Z.pow_pos_nonneg; lia).
  rewrite Zdigits2_log2 by lia.
  assert (k <= Z.log2 m) by (apply Z.log2_le_pow2; lia). lia.
Qed.

Lemma iter_pos_nat {A : Type} (f : A -> A) (p : positive) (x : A) :
  iter_pos f p x = Nat.iter (Pos.to_nat p) f x.
Proof.
  revert x. induction p as [p IH|p IH|]; intros x.
  - change (iter_pos f p~1 x) with (iter_pos f p (iter_pos f p (f x))).
    rewrite !IH, Pos2Nat.inj_xI.
    replace (S (2 * Pos.to_nat p)) with (Pos.to_nat p + S (Pos.to_nat p))%nat by lia.
    rewrite Nat.iter_add, Nat.iter_succ_r. reflexivity.
  - change (iter_pos f p~0 x) with (iter_pos f p (iter_pos f p x)).
    rewrite !IH, Pos2Nat.inj_xO.
    replace (2 * Pos.to_nat p)%nat with (Pos.to_nat p + Pos.to_nat p)%nat by lia.
    rewrite Nat.iter_add. reflexivity.
  - reflexivity.
Qed.

Lemma shr_1_m (mrs : shr_record) :
  0 <= shr_m mrs -> shr_m (shr_1 mrs) = shr_m mrs / 2.
Proof.
  destruct mrs as [m r s]; simpl. intros Hm.
  destruct m as [|p|p]; try lia.
  - reflexivity.
  - destruct p as [p|p|]; simpl.
    + apply Z.div_unique with 1; lia.
    + apply Z.div_unique with 0; lia.
    + reflexivity.
Qed.

Lemma pow2_pos (k : Z) : 0 <= k -> 0 < 2 ^ k.
Proof. intros; apply Z.pow_pos_nonneg; lia. Qed.

Lemma pow2_succ_nat (n : nat) : 2 ^ Z.of_nat (S n) = 2 ^ Z.of_nat n * 2.
Proof. rewrite Nat2Z.inj_succ, Z.pow_succ_r by lia. lia. Qed.

Lemma shr_iter_m (n : nat) (mrs : shr_record) :
  0 <= shr_m mrs ->
  shr_m (Nat.iter n shr_1 mrs) = shr_m mrs / 2 ^ Z.of_nat n.
Proof.
  intros Hm. induction n as [|n IH].
  - simpl. now rewrite Z.div_1_r.
  - rewrite Nat.iter_succ. rewrite shr_1_m.
    + assert (0 < 2 ^ Z.of_nat n) by (apply pow2_pos; lia).
      rewrite IH, pow2_succ_nat, Z.div_div; lia.
    + rewrite IH. apply Z.div_pos; [lia | apply pow2_pos; lia].
Qed.

Lemma shr_iter_exact (n : nat) (M : Z) :
  0 <= M -> M mod 2 ^ Z.of_nat n = 0 ->
  Nat.iter n shr_1 (Build_shr_record M false false)
  = Build_shr_record (M / 2 ^ Z.of_nat n) false false.
Proof.
  intros HM. induction n as [|n IH]; intros Hmod.
  - simpl. now rewrite Z.div_1_r.
  - rewrite Nat.iter_succ.
    assert (Hp : 0 < 2 ^ Z.of_nat n) by (apply pow2_pos; lia).
    rewrite pow2_succ_nat in Hmod |- *.
    assert (HMk : M = 2 ^ Z.of_nat n * 2 * (M / (2 ^ Z.of_nat n * 2))).
    { apply Z.div_exact; lia. }
    set (k := M / (2 ^ Z.of_nat n * 2)) in *.
    assert (Hk : 0 <= k) by (apply Z.div_pos; lia).
    assert (Hdiv : M / 2 ^ Z.of_nat n = 2 * k).
    { rewrite HMk at 1. replace (2 ^ Z.of_nat n * 2 * k) with ((2 * k) * 2 ^ Z.of_nat n) by lia.
      apply Z.div_mul; lia. }
    rewrite IH.
    + rewrite Hdiv. destruct k as [|p|p]; try lia; reflexivity.
    + rewrite HMk. replace (2 ^ Z.of_nat n * 2 * k) with ((2 * k) * 2 ^ Z.of_nat n) by lia.
      apply Z.mod_mul; lia.
Qed.

Lemma round_nearest_even_bounds (m : Z) (l : location) :
  m <= round_nearest_even m l <= m + 1.
Proof.
  destruct l as [|[| |]]; simpl; try lia.
  destruct (Z.even m); lia.
Qed.

Lemma loc_of_record_of_loc (m : Z) (l : location) :
  loc_of_shr_record (shr_record_of_loc m l) = l.
Proof. destruct l as [|[| |]]; reflexivity. Qed.

Lemma shr_m_record_of_loc (m : Z) (l : location) :
  shr_m (shr_record_of_loc m l) = m.
Proof. destruct l as [|[| |]]; reflexivity. Qed.

Lemma binary_round_aux_rstep (s : bool) (mx ex : Z) (lx : location) :
  binary_round_aux prec emax s mx ex lx =
  let '(_, m1, e1) := rstep mx ex lx in
  let '(t2, _, e2) := rstep m1 e1 loc_Exact in
  match t2 with
  | Z0 => S754_zero s
  | Zpos m => if e2 <=? emax - prec then S754_finite s m e2 else S754_infinity s
  | Zneg _ => S754_nan
  end.
Proof.
  unfold binary_round_aux, rstep.
  destruct (shr_fexp prec emax mx ex lx) as [mrs1 e1].
  destruct (shr_fexp prec emax _ e1 loc_Exact) as [mrs2 e2].
  reflexivity.
Qed.

Lemma rstep_spec (m e : Z) (l : location) :
  0 <= m ->
  exists t r e',
    rstep m e l = (t, r, e') /\ t <= r <= t + 1 /\
    ((shift_of m e <= 0 /\ t = m /\ e' = e /\ (l = loc_Exact -> r = m)) \/
     (0 < shift_of m e /\ t = m / 2 ^ shift_of m e /\ e' = e + shift_of m e /\
      (l = loc_Exact -> m mod 2 ^ shift_of m e = 0 -> r = t))).
Proof.
  intros Hm. unfold rstep, shr_fexp, shr. fold (shift_of m e).
  destruct (shift_of m e) as [|p|p] eqn:Hs.
  - do 3 eexists. split; [reflexivity|]. split; [apply round_nearest_even_bounds|].
    left. rewrite shr_m_record_of_loc, loc_of_record_of_loc.
    repeat split; try lia. intros ->. reflexivity.
  - do 3 eexists. split; [reflexivity|]. split; [apply round_nearest_even_bounds|].
    right. rewrite iter_pos_nat.
    assert (Hp : Z.pos p = Z.of_nat (Pos.to_nat p)) by lia.
    repeat split; try lia.
    + rewrite shr_iter_m; rewrite shr_m_record_of_loc; [|assumption].
      now rewrite Hp.
    + intros -> Hmod. simpl shr_record_of_loc.
      rewrite Hp in Hmod. rewrite shr_iter_exact by assumption. reflexivity.
  - do 3 eexists. split; [reflexivity|]. split; [apply round_nearest_even_bounds|].
    left. rewrite shr_m_record_of_loc, loc_of_record_of_loc.
    repeat split; try lia. intros ->. reflexivity.
Qed.

Lemma shift_of_eq (m e : Z) :
  shift_of m e = Z.max (Zdigits2 m + e - 53) (-1074) - e.
Proof. reflexivity. Qed.

Lemma pow2_split (a b : Z) : 0 <= a -> 0 <= b -> 2 ^ (a + b) = 2 ^ a * 2 ^ b.
Proof. intros; apply Z.pow_add_r; assumption. Qed.

Lemma pow2_mono (a b : Z) : 0 <= a <= b -> 2 ^ a <= 2 ^ b.
Proof. intros; apply Z.pow_le_mono_r; lia. Qed.

Lemma Zdigits2_lt_pow (m : Z) : 0 <= m -> m < 2 ^ Zdigits2 m.
Proof.
  intros Hm. destruct (Z.eq_dec m 0) as [->|]; [reflexivity|].
  apply Zdigits2_bounds; lia.
Qed.

(** The truncated mantissa fits the precision and the exponent does not
    decrease. *)
Lemma rstep_basic (m e : Z) (l : location) :
  0 <= m ->
  exists t r e',
    rstep m e l = (t, r, e') /\ 0 <= t /\ t <= r <= t + 1 /\ t < 2 ^ 53 /\
    e <= e' /\ -1074 <= e'.
Proof.
  intros Hm. destruct (rstep_spec m e l Hm) as (t & r & e' & Heq & Hr & Hc).
  exists t, r, e'. split; [assumption|].
  pose proof (Zdigits2_nonneg m Hm) as Hd.
  pose proof (Zdigits2_lt_pow m Hm) as Hlt.
  rewrite shift_of_eq in Hc.
  destruct Hc as [(Hs & -> & -> & _) | (Hs & -> & -> & _)].
  - repeat split; try lia.
    assert (2 ^ Zdigits2 m <= 2 ^ 53) by (apply pow2_mono; lia). lia.
  - set (n := Z.max (Zdigits2 m + e - 53) (-1074) - e) in *.
    assert (Hp : 0 < 2 ^ n) by (apply pow2_pos; lia).
    repeat split; try lia.
    + apply Z.div_pos; lia.
    + apply Z.div_lt_upper_bound; [lia|].
      rewrite <- pow2_split by lia.
      assert (2 ^ Zdigits2 m <= 2 ^ (n + 53)) by (apply pow2_mono; lia). lia.
Qed.

(** Rounding an exact value that lies between two integers [Klo] and [Khi]
    of the format keeps it between them. *)
Lemma rstep_exact_bounds (m e Klo Khi : Z) :
  0 <= m -> e <= 0 -> 0 <= Klo -> 0 < Khi < 2 ^ 53 ->
  Klo * 2 ^ (- e) <= m <= Khi * 2 ^ (- e) ->
  exists t r e',
    rstep m e loc_Exact = (t, r, e') /\ t <= r /\ e' <= 0 /\
    Klo * 2 ^ (- e') <= t /\ r <= Khi * 2 ^ (- e').
Proof.
  intros Hm He Hlo Hhi Hb.
  destruct (rstep_spec m e loc_Exact Hm) as (t & r & e' & Heq & Hr & Hc).
  exists t, r, e'. split; [assumption|]. split; [lia|].
  rewrite shift_of_eq in Hc.
  destruct Hc as [(Hs & -> & -> & Hex) | (Hs & -> & -> & Hex)].
  - rewrite (Hex eq_refl). repeat split; lia.
  - assert (Hd : Zdigits2 m <= 53 - e).
    { apply Zdigits2_le_of_lt_pow; try lia.
      replace (53 - e) with (53 + - e) by lia.
      rewrite pow2_split by lia.
      assert (0 < 2 ^ (- e)) by (apply pow2_pos; lia). nia. }
    set (n := Z.max (Zdigits2 m + e - 53) (-1074) - e) in *.
    assert (He' : e + n <= 0) by lia.
    assert (HP : 0 < 2 ^ n) by (apply pow2_pos; lia).
    assert (HQ : 0 < 2 ^ (- (e + n))) by (apply pow2_pos; lia).
    assert (Hsplit : 2 ^ (- e) = 2 ^ (- (e + n)) * 2 ^ n).
    { rewrite <- pow2_split by lia. f_equal; lia. }
    rewrite Hsplit in Hb.
    set (P := 2 ^ n) in *. set (Q := 2 ^ (- (e + n))) in *.
    assert (Hlow : Klo * Q <= m / P).
    { apply Z.div_le_lower_bound; [lia|]. nia. }
    assert (Hup : m / P <= Khi * Q).
    { apply Z.div_le_upper_bound; [lia|]. nia. }
    repeat split; try lia.
    destruct (Z.eq_dec (m / P) (Khi * Q)) as [Heq'|Hne]; [|lia].
    assert (HmP : P * (m / P) <= m) by (apply Z.mul_div_le; lia).
    assert (Hmeq : m = Khi * Q * P) by nia.
    rewrite Hex; [lia | reflexivity |].
    rewrite Hmeq. apply Z.mod_mul; lia.
Qed.

(** In the normal range a positive mantissa is not rounded to zero. *)
Lemma rstep_normal (m e : Z) (l : location) :
  0 < m -> -1021 <= Zdigits2 m + e ->
  exists t r e',
    rstep m e l = (t, r, e') /\ 1 <= t /\ t <= r /\ -1021 <= Zdigits2 r + e'.
Proof.
  intros Hm Hn.
  destruct (rstep_spec m e l) as (t & r & e' & Heq & Hr & Hc); [lia|].
  exists t, r, e'. split; [assumption|].
  pose proof (Zdigits2_bounds m Hm) as Hb.
  rewrite shift_of_eq in Hc.
  destruct Hc as [(Hs & -> & -> & _) | (Hs & -> & -> & _)].
  - repeat split; try lia.
    assert (Zdigits2 m - 1 < Zdigits2 r).
    { apply Zdigits2_gt_of_pow_le; [|lia].
      rewrite Zdigits2_log2 by lia. pose proof (Z.log2_nonneg m). lia. }
    lia.
  - replace (Z.max (Zdigits2 m + e - 53) (-1074) - e) with (Zdigits2 m - 53) in * by lia.
    set (n := Zdigits2 m - 53) in *.
    assert (HP : 0 < 2 ^ n) by (apply pow2_pos; lia).
    assert (Ht : 2 ^ 52 <= m / 2 ^ n).
    { apply Z.div_le_lower_bound; [lia|].
      rewrite <- pow2_split by lia.
      replace (n + 52) with (Zdigits2 m - 1) by lia. lia. }
    assert (52 < Zdigits2 r) by (apply Zdigits2_gt_of_pow_le; lia).
    assert (0 < 2 ^ 52) by (apply pow2_pos; lia).
    repeat split; lia.
Qed.

(** Bounds on the exponent and on the size of the rounded mantissa. *)
Lemma rstep_exponent (m e : Z) (l : location) :
  0 <= m ->
  exists t r e',
    rstep m e l = (t, r, e') /\
    e' <= Z.max e (Z.max (Zdigits2 m + e - 53) (-1074)) /\
    Zdigits2 r + e' <= Z.max (Zdigits2 m + e) e' + 1.
Proof.
  intros Hm.
  destruct (rstep_spec m e l Hm) as (t & r & e' & Heq & Hr & Hc).
  exists t, r, e'. split; [assumption|].
  pose proof (Zdigits2_nonneg m Hm) as Hd.
  pose proof (Zdigits2_lt_pow m Hm) as Hlt.
  rewrite shift_of_eq in Hc.
  destruct Hc as [(Hs & -> & -> & _) | (Hs & -> & -> & _)].
  - split; [lia|].
    assert (Zdigits2 r <= Zdigits2 m + 1).
    { apply Zdigits2_le_of_lt_pow; try lia.
      rewrite pow2_split by lia. change (2 ^ 1) with 2. lia. }
    lia.
  - set (n := Z.max (Zdigits2 m + e - 53) (-1074) - e) in *.
    assert (HP : 0 < 2 ^ n) by (apply pow2_pos; lia).
    split; [lia|].
    assert (Ht0 : 0 <= m / 2 ^ n) by (apply Z.div_pos; lia).
    destruct (Z_lt_le_dec (Zdigits2 m) n) as [Hlt'|Hge].
    + assert (m / 2 ^ n = 0).
      { apply Z.div_small. split; [lia|].
        assert (2 ^ Zdigits2 m <= 2 ^ n) by (apply pow2_mono; lia). lia. }
      assert (Zdigits2 r <= 1).
      { apply Zdigits2_le_of_lt_pow; try lia; change (2 ^ 1) with 2; lia. }
      lia.
    + assert (m / 2 ^ n < 2 ^ (Zdigits2 m - n)).
      { apply Z.div_lt_upper_bound; [lia|].
        rewrite <- pow2_split by lia.
        replace (n + (Zdigits2 m - n)) with (Zdigits2 m) by lia. lia. }
      assert (Zdigits2 r <= Zdigits2 m - n + 1).
      { apply Zdigits2_le_of_lt_pow; try lia.
        rewrite pow2_split by lia. change (2 ^ 1) with 2. lia. }
      lia.
Qed.

(** *** Rounding *)

Lemma bra_cases (s : bool) (mx ex : Z) (lx : location) :
  0 <= mx ->
  binary_round_aux prec emax s mx ex lx = S754_zero s \/
  binary_round_aux prec emax s mx ex lx = S754_infinity s \/
  exists m e, binary_round_aux prec emax s mx ex lx = S754_finite s m e /\
              Z.pos m < 2 ^ 53 /\ ex <= e /\ -1074 <= e.
Proof.
  intros Hm. rewrite binary_round_aux_rstep.
  destruct (rstep_basic mx ex lx Hm) as (t1 & m1 & e1 & -> & Ht1 & Hr1 & _ & He1 & _).
  destruct (rstep_basic m1 e1 loc_Exact)
    as (t2 & m2 & e2 & -> & Ht2 & _ & Hlt2 & He2 & Hmin2); [lia|].
  destruct t2 as [|p|p]; try lia.
  - now left.
  - right. destruct (e2 <=? emax - prec).
    + right. exists p, e2. repeat split; [assumption | lia | lia].
    + now left.
Qed.

Lemma bra_normal (s : bool) (mx ex : Z) (lx : location) :
  0 < mx -> -1021 <= Zdigits2 mx + ex ->
  binary_round_aux prec emax s mx ex lx = S754_infinity s \/
  exists m e, binary_round_aux prec emax s mx ex lx = S754_finite s m e /\
              Z.pos m < 2 ^ 53 /\ ex <= e /\ -1074 <= e.
Proof.
  intros Hm Hn.
  destruct (bra_cases s mx ex lx) as [H|H]; [lia| |assumption].
  exfalso. rewrite binary_round_aux_rstep in H.
  destruct (rstep_normal mx ex lx Hm Hn) as (t1 & m1 & e1 & Heq1 & Ht1 & Hr1 & Hn1).
  rewrite Heq1 in H.
  destruct (rstep_normal m1 e1 loc_Exact) as (t2 & m2 & e2 & Heq2 & Ht2 & _); [lia|assumption|].
  rewrite Heq2 in H.
  destruct t2 as [|p|p]; try lia.
  destruct (e2 <=? emax - prec); discriminate.
Qed.

Lemma bra_no_overflow (s : bool) (mx ex : Z) (lx : location) :
  0 <= mx -> ex <= 970 -> Zdigits2 mx + ex <= 1023 ->
  binary_round_aux prec emax s mx ex lx <> S754_infinity s.
Proof.
  intros Hm He Hd. rewrite binary_round_aux_rstep.
  destruct (rstep_exponent mx ex lx Hm) as (t1 & m1 & e1 & Heq1 & He1 & Hd1).
  destruct (rstep_basic mx ex lx Hm) as (t1' & m1' & e1' & Heq1' & Ht1 & Hr1 & _).
  rewrite Heq1 in Heq1'. injection Heq1' as <- <- <-.
  rewrite Heq1.
  destruct (rstep_exponent m1 e1 loc_Exact) as (t2 & m2 & e2 & -> & He2 & _); [lia|].
  destruct t2 as [|p|p]; try discriminate.
  destruct (Z.leb_spec e2 (emax - prec)) as [_|Hgt]; [discriminate|].
  unfold emax, prec in Hgt. lia.
Qed.

Lemma bra_exact_bounds (mx ex Klo Khi : Z) :
  0 <= mx -> ex <= 0 -> 0 <= Klo -> 0 < Khi < 2 ^ 53 ->
  Klo * 2 ^ (- ex) <= mx <= Khi * 2 ^ (- ex) ->
  (mx = 0 -> Klo = 0) ->
  between_ints Klo Khi (binary_round_aux prec emax false mx ex loc_Exact).
Proof.
  intros Hm He Hlo Hhi Hb Hz. rewrite binary_round_aux_rstep.
  destruct (rstep_exact_bounds mx ex Klo Khi Hm He Hlo Hhi Hb)
    as (t1 & m1 & e1 & -> & Htr1 & He1 & Hlo1 & Hhi1).
  destruct (rstep_basic mx ex loc_Exact Hm) as (t1' & m1' & e1' & Heq1' & Ht1 & _).
  assert (HQ1 : 0 < 2 ^ (- e1)) by (apply pow2_pos; lia).
  assert (Hm1 : 0 <= m1) by nia.
  destruct (rstep_exact_bounds m1 e1 Klo Khi Hm1 He1 Hlo Hhi)
    as (t2 & m2 & e2 & -> & Htr2 & He2 & Hlo2 & Hhi2); [lia|].
  assert (HQ2 : 0 < 2 ^ (- e2)) by (apply pow2_pos; lia).
  destruct t2 as [|p|p]; cbv beta iota.
  - unfold between_ints. assert (Klo * 2 ^ (- e2) <= 0) by lia. nia.
  - destruct (Z.leb_spec e2 (emax - prec)) as [_|Hgt].
    + unfold between_ints. repeat split; lia.
    + unfold emax, prec in Hgt. lia.
  - assert (0 <= Klo * 2 ^ (- e2)) by nia. lia.
Qed.

(** *** Alignment and conversion of integers *)

Lemma pos_iter_xO (m d : positive) :
  Z.pos (Pos.iter xO m d) = Z.pos m * 2 ^ Z.pos d.
Proof.
  induction d as [|d IH] using Pos.peano_ind.
  - simpl. lia.
  - rewrite Pos.iter_succ, Pos2Z.inj_xO, IH, Pos2Z.inj_succ, Z.pow_succ_r by lia. lia.
Qed.

Lemma shl_align_spec (mx : positive) (ex ex' : Z) :
  exists mz ez,
    shl_align mx ex ex' = (mz, ez) /\ ez = Z.min ex ex' /\
    Z.pos mz = Z.pos mx * 2 ^ (ex - ez).
Proof.
  unfold shl_align. destruct (ex' - ex) as [|d|d] eqn:Hd.
  - exists mx, ex. repeat split; try lia.
    replace (ex - ex) with 0 by lia. lia.
  - exists mx, ex. repeat split; try lia.
    replace (ex - ex) with 0 by lia. lia.
  - exists (Pos.iter xO mx d), ex'. repeat split; try lia.
    rewrite pos_iter_xO. f_equal. f_equal. lia.
Qed.

Lemma Zdigits2_mul_pow2 (m k : Z) :
  0 < m -> 0 <= k -> Zdigits2 (m * 2 ^ k) = Zdigits2 m + k.
Proof.
  intros Hm Hk. assert (0 < 2 ^ k) by (apply pow2_pos; lia).
  rewrite !Zdigits2_log2 by nia.
  rewrite Z.log2_mul_pow2 by lia. lia.
Qed.

Lemma binary_round_cases (s : bool) (mx : positive) (ex : Z) :
  -1021 <= Zdigits2 (Z.pos mx) + ex ->
  binary_round prec emax s mx ex = S754_infinity s \/
  exists m e, binary_round prec emax s mx ex = S754_finite s m e /\
              Z.pos m < 2 ^ 53 /\ -1074 <= e.
Proof.
  intros Hn. unfold binary_round.
  destruct (shl_align_spec mx ex (fexp prec emax (Z.pos (digits2_pos mx) + ex)))
    as (mz & ez & -> & Hez & Hmz).
  assert (Hfe : -1074 <= fexp prec emax (Z.pos (digits2_pos mx) + ex)).
  { unfold fexp, SpecFloat.emin, prec, emax. lia. }
  change (Z.pos (digits2_pos mx)) with (Zdigits2 (Z.pos mx)) in *.
  assert (Hdz : Zdigits2 (Z.pos mz) + ez = Zdigits2 (Z.pos mx) + ex).
  { rewrite Hmz, Zdigits2_mul_pow2; lia. }
  destruct (bra_normal s (Z.pos mz) ez loc_Exact) as [H|(m & e & H & Hm & He & Hmin)];
    [lia | lia | now left |].
  right. exists m, e. repeat split; assumption.
Qed.

Lemma binary_round_no_overflow (s : bool) (mx : positive) (ex : Z) :
  ex <= 970 -> Zdigits2 (Z.pos mx) + ex <= 1023 ->
  binary_round prec emax s mx ex <> S754_infinity s.
Proof.
  intros He Hd. unfold binary_round.
  destruct (shl_align_spec mx ex (fexp prec emax (Z.pos (digits2_pos mx) + ex)))
    as (mz & ez & -> & Hez & Hmz).
  change (Z.pos (digits2_pos mx)) with (Zdigits2 (Z.pos mx)) in *.
  assert (Hdz : Zdigits2 (Z.pos mz) + ez = Zdigits2 (Z.pos mx) + ex).
  { rewrite Hmz, Zdigits2_mul_pow2; lia. }
  apply bra_no_overflow; lia.
Qed.

Lemma binary_round_bounds (mx : positive) (ex Klo Khi : Z) :
  ex <= 0 -> 0 <= Klo -> 0 < Khi < 2 ^ 53 ->
  Klo * 2 ^ (- ex) <= Z.pos mx <= Khi * 2 ^ (- ex) ->
  between_ints Klo Khi (binary_round prec emax false mx ex).
Proof.
  intros He Hlo Hhi Hb. unfold binary_round.
  destruct (shl_align_spec mx ex (fexp prec emax (Z.pos (digits2_pos mx) + ex)))
    as (mz & ez & -> & Hez & Hmz).
  assert (HP : 0 < 2 ^ (ex - ez)) by (apply pow2_pos; lia).
  assert (Hsplit : 2 ^ (- ez) = 2 ^ (- ex) * 2 ^ (ex - ez)).
  { rewrite <- pow2_split by lia. f_equal; lia. }
  apply bra_exact_bounds; try lia.
  rewrite Hsplit, Hmz. nia.
Qed.

Lemma nonneg_cases (x : float) :
  nonneg x = true ->
  (exists s, x = S754_zero s) \/ x = S754_infinity false \/
  (exists m e, x = S754_finite false m e).
Proof.
  destruct x as [s|[|]| |[|] m e]; cbn; intros H; try discriminate; eauto.
Qed.

Lemma positive_nonneg (x : float) : positive_float x = true -> nonneg x = true.
Proof. destruct x as [s|[|]| |[|] m e]; cbn; congruence. Qed.

Lemma of_Z_pos (n : Z) :
  0 < n ->
  of_Z n = S754_infinity false \/
  exists m e, of_Z n = S754_finite false m e /\ Z.pos m < 2 ^ 53 /\ -1074 <= e.
Proof.
  destruct n as [|p|p]; try lia. intros _.
  unfold of_Z, binary_normalize. apply binary_round_cases.
  pose proof (Zdigits2_bounds (Z.pos p)). 
  assert (0 < Zdigits2 (Z.pos p)) by (simpl; lia). lia.
Qed.

Lemma of_Z_no_overflow (n : Z) :
  0 <= n < 2 ^ 1023 -> of_Z n <> S754_infinity false.
Proof.
  destruct n as [|p|p]; try lia; intros Hn.
  - discriminate.
  - unfold of_Z, binary_normalize. apply binary_round_no_overflow; [lia|].
    assert (Zdigits2 (Z.pos p) <= 1023) by (apply Zdigits2_le_of_lt_pow; lia). lia.
Qed.

(** [float(n)] succeeds on an integer of a realistic size, and its result is
    zero for 0 and a positive finite number otherwise. *)
Lemma of_int_pos_inv (n : Z) (x : float) :
  0 < n -> of_int n = Ok x ->
  exists m e, x = S754_finite false m e /\ Z.pos m < 2 ^ 53 /\ -1074 <= e.
Proof.
  intros Hn. unfold of_int.
  destruct (of_Z_pos n Hn) as [-> | (m & e & -> & Hm & He)]; [discriminate|].
  intros [= <-]. eauto.
Qed.

Lemma of_int_ok (n : Z) :
  0 <= n < 2 ^ 1023 -> exists x, of_int n = Ok x.
Proof.
  intros Hn. pose proof (of_Z_no_overflow n Hn) as Hno.
  destruct (Z.eq_dec n 0) as [->|Hne]; [eexists; reflexivity|].
  unfold of_int.
  destruct (of_Z_pos n) as [H | (m & e & -> & _)]; [lia | contradiction | eauto].
Qed.

Lemma of_int_nonneg (n : Z) (x : float) :
  0 <= n -> of_int n = Ok x ->
  nonneg x = true /\ x <> S754_infinity false.
Proof.
  intros Hn H. destruct (Z.eq_dec n 0) as [->|Hne].
  - injection H as <-. split; [reflexivity | discriminate].
  - destruct (of_int_pos_inv n x) as (m & e & -> & _); [lia | assumption |].
    split; [reflexivity | discriminate].
Qed.

(** *** Operations *)

Lemma sqrt_positive (m : positive) (e : Z) :
  -1074 <= e ->
  positive_float (SFsqrt prec emax (S754_finite false m e)) = true.
Proof.
  intros He. unfold SFsqrt, SFsqrt_core_binary.
  set (d := Zdigits2 (Z.pos m)).
  set (e' := Z.min (fexp prec emax (Z.div2 (d + e + 1))) (Z.div2 e)).
  set (s := e - 2 * e').
  set (m' := match s with Z.pos _ => Z.shiftl (Z.pos m) s | 0 => Z.pos m | Z.neg _ => 0 end).
  assert (Hd : 1 <= d) by (unfold d; simpl; lia).
  assert (He' : -600 <= e' /\ 2 * e' <= e).
  { unfold e', fexp, SpecFloat.emin, prec, emax. rewrite !Z.div2_div. 
    pose proof (Z.mul_div_le e 2). pose proof (Z.mul_div_le (d + e + 1) 2).
    pose proof (Z.mul_succ_div_gt e 2). pose proof (Z.mul_succ_div_gt (d + e + 1) 2).
    lia. }
  assert (Hm' : Z.pos m <= m').
  { unfold m'. destruct s as [|p|p] eqn:Hs; try lia.
    rewrite Z.shiftl_mul_pow2 by lia.
    assert (0 < 2 ^ Z.pos p) by (apply pow2_pos; lia). nia. }
  pose proof (Z.sqrtrem_spec m') as Hsq.
  destruct (Z.sqrtrem m') as [q r].
  assert (Hq : 1 <= q) by nia.
  set (l := if r =? 0 then loc_Exact else loc_Inexact (if r <=? q then Lt else Gt)).
  destruct (bra_normal false q e' l) as [-> | (mr & er & -> & _)]; try reflexivity; try lia.
  assert (0 < Zdigits2 q).
  { rewrite Zdigits2_log2 by lia. pose proof (Z.log2_nonneg q). lia. }
  lia.
Qed.

(** [math.sqrt(n)] of a positive integer of the format returns a positive
    float. *)
Lemma sqrt_of_int (n : Z) (x : float) :
  0 < n -> of_int n = Ok x ->
  exists y, sqrt x = Ok y /\ positive_float y = true.
Proof.
  intros Hn Hx. destruct (of_int_pos_inv n x Hn Hx) as (m & e & -> & _ & He).
  eexists. split; [reflexivity|]. now apply sqrt_positive.
Qed.

Lemma div_finite_cases (sx sy : bool) (mx my : positive) (ex ey : Z) :
  let z := SFdiv prec emax (S754_finite sx mx ex) (S754_finite sy my ey) in
  z = S754_zero (xorb sx sy) \/ z = S754_infinity (xorb sx sy) \/
  exists m e, z = S754_finite (xorb sx sy) m e /\ Z.pos m < 2 ^ 53.
Proof.
  cbv zeta. unfold SFdiv, SFdiv_core_binary.
  set (e' := Z.min _ _). set (s := ex - ey - e').
  set (m' := match s with Z.pos _ => Z.shiftl (Z.pos mx) s | 0 => Z.pos mx | Z.neg _ => 0 end).
  assert (Hm' : 0 <= m').
  { unfold m'. destruct s; try lia. apply Z.shiftl_nonneg. lia. }
  destruct (Z.div_eucl m' (Z.pos my)) as [q r] eqn:Hdiv.
  assert (Hq : 0 <= q).
  { replace q with (m' / Z.pos my) by (unfold Z.div; now rewrite Hdiv).
    apply Z.div_pos; lia. }
  destruct (bra_cases (xorb sx sy) q e' (new_location (Z.pos my) r) Hq)
    as [H | [H | (m & e & H & Hm & _)]]; rewrite H.
  - now left.
  - right. now left.
  - right. right. exists m, e. now split.
Qed.

(** Dividing a non-negative float by a positive one gives a non-negative
    float, or a NaN when both are infinite. *)
Lemma div_nonneg (x y : float) :
  nonneg x = true -> positive_float y = true ->
  (x = S754_infinity false /\ y = S754_infinity false) \/
  nonneg (SFdiv prec emax x y) = true.
Proof.
  intros Hx Hy.
  destruct y as [sy|[|]| |[|] my ey]; try discriminate;
    destruct (nonneg_cases x Hx) as [(s & ->) | [-> | (mx & ex & ->)]];
    try (left; split; reflexivity); right;
    try reflexivity; try (destruct s; reflexivity).
  destruct (div_finite_cases false false mx my ex ey) as [H | [H | (m & e & H & _)]];
    rewrite H; reflexivity.
Qed.

Lemma div_mantissa (x y : float) (s : bool) (m : positive) (e : Z) :
  SFdiv prec emax x y = S754_finite s m e -> Z.pos m < 2 ^ 53.
Proof.
  destruct x as [sx|sx| |sx mx ex], y as [sy|sy| |sy my ey]; try discriminate.
  intros H.
  destruct (div_finite_cases sx sy mx my ex ey) as [H' | [H' | (m' & e' & H' & Hm)]];
    rewrite H' in H; try discriminate.
  now injection H as _ <- _.
Qed.

Lemma add_nonneg (x y : float) :
  nonneg x = true -> nonneg y = true -> nonneg (add x y) = true.
Proof.
  intros Hx Hy.
  destruct (nonneg_cases x Hx) as [(sx & ->) | [-> | (mx & ex & ->)]];
    destruct (nonneg_cases y Hy) as [(sy & ->) | [-> | (my & ey & ->)]];
    try reflexivity; try (destruct sx; reflexivity); try (destruct sy; reflexivity).
  - destruct sx, sy; reflexivity.
  - unfold add, SFadd, cond_Zopp.
    set (ez := Z.min ex ey).
    destruct (shl_align_spec mx ex ez) as (ma & ea & -> & _).
    destruct (shl_align_spec my ey ez) as (mb & eb & -> & _).
    cbn [fst]. change (Z.pos ma + Z.pos mb) with (Z.pos (ma + mb)).
    unfold binary_normalize, binary_round.
    destruct (shl_align (ma + mb) ez _) as [mz ez'].
    destruct (bra_cases false (Z.pos mz) ez' loc_Exact) as [H | [H | (m & e & H & _)]];
      [lia | | |]; rewrite H; reflexivity.
Qed.

Lemma sum_nonneg_from (l : list float) (acc : float) :
  nonneg acc = true -> Forall (fun x => nonneg x = true) l ->
  nonneg (fold_left add l acc) = true.
Proof.
  revert acc. induction l as [|x l IH]; intros acc Hacc Hl; simpl.
  - assumption.
  - inversion Hl; subst. apply IH; [apply add_nonneg|]; assumption.
Qed.

Lemma sum_nonneg (l : list float) :
  Forall (fun x => nonneg x = true) l -> nonneg (sum l) = true.
Proof. apply sum_nonneg_from. reflexivity. Qed.

Lemma max_in (x : float) (l : list float) : In (max x l) (x :: l).
Proof.
  unfold max. revert x. induction l as [|y l IH]; intros x; simpl.
  - now left.
  - destruct (IH (if ltb x y then y else x)) as [H|H].
    + rewrite <- H. destruct (ltb x y); auto.
    + auto.
Qed.

Lemma ltb_one_inv (m : positive) (e : Z) :
  ltb (S754_finite false m e) one = true -> Z.pos m < 2 ^ 53 ->
  e <= 0 /\ Z.pos m <= 2 ^ (- e).
Proof.
  unfold ltb, SFltb, one, SFcompare. intros H Hm.
  destruct (Z.compare_spec e (-52)) as [Heq | Hlt | Hgt].
  - rewrite Pos.compare_cont_spec in H.
    destruct (Pos.compare_spec m 4503599627370496) as [Hc | Hc | Hc];
      cbn [Pos.switch_Eq] in H.
    1,3: exfalso; clear -H; congruence.
    assert (Hz : Z.pos m < Z.pos 4503599627370496) by exact Hc.
    clear H Hc. subst e. split; [lia|].
    change (2 ^ (- -52)) with 4503599627370496. lia.
  - clear H. split; [lia|].
    assert (2 ^ 53 <= 2 ^ (- e)) by (apply pow2_mono; lia). lia.
  - exfalso; clear -H; congruence.
Qed.

Lemma mul_fifty_bounds (x : float) :
  nonneg x = true -> ltb x one = true ->
  (forall s m e, x = S754_finite s m e -> Z.pos m < 2 ^ 53) ->
  between_ints 0 50 (mul fifty x).
Proof.
  intros Hx Hlt Hm.
  destruct (nonneg_cases x Hx) as [(s & ->) | [-> | (m & e & ->)]].
  - reflexivity.
  - discriminate.
  - destruct (ltb_one_inv m e Hlt (Hm _ _ _ eq_refl)) as [He Hle].
    unfold mul, fifty, SFmul. cbn [xorb].
    assert (HQ : 0 < 2 ^ (- e)) by (apply pow2_pos; lia).
    apply bra_exact_bounds; try lia.
    replace (- (-47 + e)) with (47 + - e) by lia.
    rewrite pow2_split by lia. change (2 ^ 47) with 140737488355328.
    rewrite Pos2Z.inj_mul. lia.
Qed.

Lemma fifty_between : between_ints 50 100 fifty.
Proof. unfold between_ints, fifty. split; [lia|]. split; vm_compute; discriminate. Qed.

Lemma add_fifty_bounds (p : float) :
  between_ints 0 50 p -> between_ints 50 100 (add fifty p).
Proof.
  destruct p as [s|s| |[|] mp ep]; cbn [between_ints]; try contradiction.
  - intros _. apply fifty_between.
  - intros (He & _ & Hhi).
    unfold add, fifty, SFadd, cond_Zopp.
    set (ez := Z.min (-47) ep).
    destruct (shl_align_spec 7036874417766400 (-47) ez) as (ma & ea & -> & Hea & Hma).
    destruct (shl_align_spec mp ep ez) as (mb & eb & -> & Heb & Hmb).
    cbn [fst]. change (Z.pos ma + Z.pos mb) with (Z.pos (ma + mb)).
    unfold binary_normalize.
    replace ea with ez in Hma by lia.
    replace eb with ez in Hmb by lia.
    assert (H1 : 0 < 2 ^ (-47 - ez)) by (apply pow2_pos; lia).
    assert (H2 : 0 < 2 ^ (ep - ez)) by (apply pow2_pos; lia).
    assert (H3 : 0 < 2 ^ (- ep)) by (apply pow2_pos; lia).
    assert (Hs1 : 2 ^ (- ez) = 2 ^ 47 * 2 ^ (-47 - ez)).
    { rewrite <- pow2_split by lia. f_equal; lia. }
    assert (Hs2 : 2 ^ (- ez) = 2 ^ (- ep) * 2 ^ (ep - ez)).
    { rewrite <- pow2_split by lia. f_equal; lia. }
    apply binary_round_bounds; try lia.
    assert (Hma' : Z.pos ma = 50 * 2 ^ (- ez)).
    { rewrite Hma, Hs1, Z.mul_assoc. reflexivity. }
    rewrite Pos2Z.inj_add, Hma', Hmb.
    assert (Hmul : Z.pos mp * 2 ^ (ep - ez) <= 50 * 2 ^ (- ep) * 2 ^ (ep - ez)).
    { apply Z.mul_le_mono_nonneg_r; lia. }
    rewrite <- Z.mul_assoc, <- Hs2 in Hmul.
    assert (0 <= Z.pos mp * 2 ^ (ep - ez)) by (apply Z.mul_nonneg_nonneg; lia).
    lia.
Qed.

Lemma to_int_between (Klo Khi : Z) (x : float) :
  0 <= Klo -> 0 <= Khi -> between_ints Klo Khi x ->
  exists z, to_int x = Ok z /\ Klo <= z <= Khi.
Proof.
  intros Hlo Hhi.
  destruct x as [s|s| |[|] m e]; cbn [between_ints]; try contradiction.
  - intros ->. exists 0. split; [reflexivity | lia].
  - intros (He & Hl & Hh). eexists. split; [reflexivity|].
    rewrite Z.shiftl_div_pow2 by lia.
    assert (0 < 2 ^ (- e)) by (apply pow2_pos; lia).
    split.
    + apply Z.div_le_lower_bound; lia.
    + apply Z.div_le_upper_bound; lia.
Qed.

End FloatFacts.

(** ** Properties of the summariser *)

Module SummarizerFacts.

Import Float FloatFacts Summarizer SummaryNotions.

(** *** Strings *)

Lemma dropwhile_head {A : Type} (p : A -> bool) (l : list A) :
  dropwhile p l = [] \/ exists a r, dropwhile p l = a :: r /\ p a = false.
Proof.
  induction l as [|a l IH]; simpl; [now left|].
  destruct (p a) eqn:Hp; [assumption|]. right. eauto.
Qed.

Lemma dropwhile_id {A : Type} (p : A -> bool) (a : A) (l : list A) :
  p a = false -> dropwhile p (a :: l) = a :: l.
Proof. intros Hp. simpl. now rewrite Hp. Qed.

Lemma dropwhile_length {A : Type} (p : A -> bool) (l : list A) :
  (length (dropwhile p l) <= length l)%nat.
Proof. induction l as [|a l IH]; simpl; [lia|]. destruct (p a); simpl; lia. Qed.

Lemma dropwhile_snoc {A : Type} (p : A -> bool) (l : list A) (a : A) :
  p a = false -> exists l', dropwhile p (l ++ [a]) = l' ++ [a].
Proof.
  intros Hp. induction l as [|b l IH]; simpl.
  - rewrite Hp. now exists [].
  - destruct (p b); [assumption|]. now exists (b :: l).
Qed.

Lemma strip_length (s : str) : (length (strip s) <= length s)%nat.
Proof.
  unfold strip, rstrip, lstrip. rewrite length_rev.
  pose proof (dropwhile_length isspace (rev (dropwhile isspace s))) as H1.
  pose proof (dropwhile_length isspace s) as H2.
  rewrite length_rev in H1. lia.
Qed.

Lemma rstrip_cons (c : ascii) (s : str) :
  isspace c = false -> exists r, rstrip (c :: s) = c :: r.
Proof.
  intros Hc. unfold rstrip. simpl rev.
  destruct (dropwhile_snoc isspace (rev s) c Hc) as (l' & ->).
  rewrite rev_app_distr. simpl. eauto.
Qed.

Lemma rstrip_last (s r : str) (c : ascii) :
  rstrip s = r ++ [c] -> isspace c = false.
Proof.
  unfold rstrip. intros H.
  apply (f_equal (@rev ascii)) in H. rewrite rev_involutive, rev_app_distr in H.
  simpl in H.
  destruct (dropwhile_head isspace (rev s)) as [H0 | (a & t & H0 & Ha)];
    rewrite H0 in H; [discriminate|].
  now injection H as -> _.
Qed.

Lemma strip_trimmed (s : str) : trimmed (strip s).
Proof.
  unfold strip, lstrip. split.
  - intros c r H.
    destruct (dropwhile_head isspace s) as [H0 | (a & t & H0 & Ha)]; rewrite H0 in H.
    + discriminate.
    + destruct (rstrip_cons a t Ha) as (r' & Hr). rewrite Hr in H.
      now injection H as <- _.
  - intros c r. apply rstrip_last.
Qed.

Lemma strip_of_trimmed (s : str) : trimmed s -> strip s = s.
Proof.
  intros [Hh Hl]. destruct s as [|c r]; [reflexivity|].
  unfold strip, lstrip. rewrite dropwhile_id by (eapply Hh; reflexivity).
  unfold rstrip.
  destruct (rev (c :: r)) as [|a t] eqn:Hrev.
  - apply (f_equal (@rev ascii)) in Hrev. rewrite rev_involutive in Hrev. discriminate.
  - assert (Hs : c :: r = rev t ++ [a]).
    { rewrite <- (rev_involutive (c :: r)), Hrev. reflexivity. }
    rewrite dropwhile_id by (eapply Hl; exact Hs).
    rewrite <- Hrev. apply rev_involutive.
Qed.

Lemma strip_idempotent (s : str) : strip (strip s) = strip s.
Proof. apply strip_of_trimmed, strip_trimmed. Qed.

Lemma strip_cons_nonspace (c : ascii) (s : str) :
  isspace c = false -> exists r, strip (c :: s) = c :: r.
Proof.
  intros Hc. unfold strip, lstrip. rewrite dropwhile_id by assumption.
  now apply rstrip_cons.
Qed.

(** White space is never part of a word. *)
Lemma isspace_not_word (c : ascii) :
  isspace c = true -> isword (lower_char c) = false.
Proof.
  destruct c as [[|] [|] [|] [|] [|] [|] [|] [|]]; vm_compute; congruence.
Qed.

Lemma word_runs_spaces (s : str) :
  forallb isspace s = true -> word_runs (lower s) = [].
Proof.
  unfold word_runs. induction s as [|c s IH]; simpl; [reflexivity|].
  intros H. apply andb_prop in H as [Hc Hs].
  rewrite (isspace_not_word c Hc). simpl. auto.
Qed.

Lemma tokenize_blank (query : str) :
  forallb isspace query = true -> _tokenize query = [].
Proof. apply word_runs_spaces. Qed.

Lemma runs_length (p : ascii -> bool) (cur s : str) :
  (length (runs p cur s) <= length s + length (flush cur))%nat.
Proof.
  revert cur. induction s as [|c s IH]; intros cur; simpl.
  - lia.
  - destruct (p c).
    + specialize (IH (c :: cur)). simpl in IH. lia.
    + rewrite length_app. specialize (IH []). simpl in IH. lia.
Qed.

Lemma tokenize_length (s : str) : (length (_tokenize s) <= length s)%nat.
Proof.
  unfold _tokenize, word_runs, lower.
  pose proof (runs_length isword [] (map lower_char s)) as H.
  rewrite length_map in H. simpl in H. lia.
Qed.

(** *** Sentences *)

Lemma re_split_head (a : bool) (cur s : str) :
  exists x rest, re_split false a cur s = (rev cur ++ x) :: rest.
Proof.
  revert a cur. induction s as [|c s IH]; intros a cur; simpl.
  - exists [], []. now rewrite app_nil_r.
  - destruct (a && isspace c)%bool.
    + exists [], (re_split true false [] s). now rewrite app_nil_r.
    + destruct (IH (is_terminator c) (c :: cur)) as (x & rest & ->).
      exists (c :: x), rest. simpl. now rewrite <- app_assoc.
Qed.

Lemma re_split_total (i a : bool) (cur s : str) :
  (total_length (re_split i a cur s) <= length cur + length s)%nat.
Proof.
  revert i a cur. induction s as [|c s IH]; intros i a cur; simpl.
  - rewrite length_rev. lia.
  - destruct (i && isspace c)%bool.
    + specialize (IH true false cur). lia.
    + destruct (a && isspace c)%bool; simpl.
      * rewrite length_rev. specialize (IH true false []). simpl in IH. lia.
      * specialize (IH false (is_terminator c) (c :: cur)). simpl in IH. lia.
Qed.

Lemma total_length_filter (p : str -> bool) (l : list str) :
  (total_length (filter p l) <= total_length l)%nat.
Proof.
  induction l as [|s l IH]; simpl; [lia|]. destruct (p s); simpl; lia.
Qed.

Lemma total_length_bound (l : list str) :
  Forall (fun s => (length s <= total_length l)%nat) l.
Proof.
  induction l as [|s l IH]; constructor; simpl; [lia|].
  eapply Forall_impl; [|exact IH]. simpl. intros; lia.
Qed.

Lemma nonblank_count (l : list str) :
  (length (filter (fun s => truthy (strip s)) l) <= total_length l)%nat.
Proof.
  induction l as [|s l IH]; simpl; [lia|].
  destruct (truthy (strip s)) eqn:Ht; simpl; [|lia].
  destruct s as [|c s']; [discriminate|]. simpl. lia.
Qed.

Lemma split_sentences_count (text : str) :
  (length (_split_sentences text) <= length text)%nat.
Proof.
  unfold _split_sentences. destruct (truthy (strip text)); simpl; [|lia].
  rewrite length_map.
  pose proof (nonblank_count (re_split false false [] (strip text))).
  pose proof (re_split_total false false [] (strip text)).
  pose proof (strip_length text). simpl in *. lia.
Qed.

Lemma split_sentences_length (text : str) :
  Forall (fun s => (length s <= length text)%nat) (_split_sentences text).
Proof.
  unfold _split_sentences. destruct (truthy (strip text)); simpl; [|constructor].
  apply Forall_map. apply Forall_forall. intros s Hin.
  apply filter_In in Hin as [Hin _].
  pose proof (total_length_bound (re_split false false [] (strip text))) as Hb.
  rewrite Forall_forall in Hb. specialize (Hb s Hin).
  pose proof (re_split_total false false [] (strip text)).
  pose proof (strip_length text). pose proof (strip_length s).
  simpl in *. lia.
Qed.

(** A text that is not blank has at least one sentence. *)
Lemma split_sentences_nonempty (text : str) :
  strip text <> [] -> _split_sentences text <> [].
Proof.
  intros Hne. unfold _split_sentences.
  destruct (strip text) as [|c r] eqn:Hs; [contradiction|]. simpl truthy. simpl negb.
  cbv iota.
  assert (Hc : isspace c = false).
  { pose proof (strip_trimmed text) as [Hh _]. rewrite Hs in Hh. eapply Hh; reflexivity. }
  simpl re_split.
  destruct (re_split_head (is_terminator c) [c] r) as (x & rest & ->).
  simpl rev. simpl app. simpl filter.
  destruct (strip_cons_nonspace c x Hc) as (r' & ->). simpl. discriminate.
Qed.

Lemma split_sentences_blank (text : str) :
  strip text = [] -> _split_sentences text = [].
Proof. intros H. unfold _split_sentences. now rewrite H. Qed.

(** *** Overlap *)

Lemma sumZ_indicator (x : str) (D : list str) :
  NoDup D ->
  0 <= sumZ (fun t => if str_eq_dec x t then 1 else 0) D <= 1.
Proof.
  unfold sumZ. induction 1 as [|t D Hnin Hnd IH]; simpl; [lia|].
  destruct (str_eq_dec x t) as [->|Hne]; [|lia].
  assert (Hz : fold_right Z.add 0 (map (fun t0 => if str_eq_dec t t0 then 1 else 0) D) = 0).
  { clear IH Hnd. induction D as [|u D IHD]; simpl; [reflexivity|].
    destruct (str_eq_dec t u) as [->|_].
    - exfalso. apply Hnin. now left.
    - rewrite IHD; [reflexivity|]. intros Hin. apply Hnin. now right. }
  lia.
Qed.

Lemma sumZ_count (tokens D : list str) :
  NoDup D ->
  0 <= sumZ (fun t => Z.of_nat (count_occ str_eq_dec tokens t)) D
    <= Z.of_nat (length tokens).
Proof.
  intros Hnd. induction tokens as [|x tokens IH].
  - unfold sumZ. simpl. induction D; simpl; [lia|].
    inversion Hnd; subst. auto.
  - assert (Heq : sumZ (fun t => Z.of_nat (count_occ str_eq_dec (x :: tokens) t)) D
                  = sumZ (fun t => Z.of_nat (count_occ str_eq_dec tokens t)) D
                    + sumZ (fun t => if str_eq_dec x t then 1 else 0) D).
    { unfold sumZ. clear. induction D as [|t D IHD]; [reflexivity|].
      cbn [fold_right map]. rewrite IHD. cbn [count_occ].
      destruct (str_eq_dec x t); lia. }
    rewrite Heq. pose proof (sumZ_indicator x D Hnd).
    simpl length. lia.
Qed.

Lemma overlap_bounds (tokens query_tokens : list str) :
  0 <= overlap tokens query_tokens <= Z.of_nat (length tokens).
Proof.
  unfold overlap. apply (sumZ_count tokens).
  apply NoDup_filter, NoDup_nodup.
Qed.

Lemma overlap_empty_query (tokens : list str) : overlap tokens [] = 0.
Proof. reflexivity. Qed.

(** *** The error monad *)

Lemma mapM_inv {A B : Type} (f : A -> result B) (l : list A) (bs : list B) :
  mapM f l = Ok bs -> Forall2 (fun a b => f a = Ok b) l bs.
Proof.
  revert bs. induction l as [|a l IH]; intros bs; simpl.
  - intros [= <-]. constructor.
  - destruct (f a) as [b|e] eqn:Hf; simpl; [|discriminate].
    destruct (mapM f l) as [bs'|e]; simpl; [|discriminate].
    intros [= <-]. constructor; auto.
Qed.

Lemma mapM_ok {A B : Type} (f : A -> result B) (g : A -> B) (l : list A) :
  Forall (fun a => f a = Ok (g a)) l -> mapM f l = Ok (map g l).
Proof.
  induction 1 as [|a l Ha _ IH]; simpl; [reflexivity|].
  rewrite Ha. simpl. rewrite IH. reflexivity.
Qed.

Lemma mapM_exists {A B : Type} (f : A -> result B) (l : list A) :
  Forall (fun a => exists b, f a = Ok b) l -> exists bs, mapM f l = Ok bs.
Proof.
  induction 1 as [|a l (b & Ha) _ (bs & IH)]; simpl; [eauto|].
  rewrite Ha. simpl. rewrite IH. simpl. eauto.
Qed.

(** *** Scores of sentences *)

Lemma nonneg_positive (x : float) :
  nonneg x = true -> leb x zero = false -> positive_float x = true.
Proof. destruct x as [s|[|]| |[|] m e]; cbn; congruence. Qed.

Lemma positive_not_zero (x : float) : positive_float x = true -> is_zero x = false.
Proof. destruct x as [s|[|]| |[|] m e]; cbn; congruence. Qed.

Lemma of_int_eq (n : Z) (x : float) : of_int n = Ok x -> x = of_Z n.
Proof.
  unfold of_int. destruct (of_Z n); intros H; try discriminate;
    injection H as <-; reflexivity.
Qed.

Lemma div_zero_positive (y : float) :
  positive_float y = true -> SFdiv prec emax zero y = zero.
Proof.
  destruct y as [s|[|]| |[|] m e]; cbn; intros H; try discriminate; reflexivity.
Qed.

Lemma score_sentence_inv (q : list str) (idx : nat) (s : str) (p : nat * float) :
  score_sentence q idx s = Ok p ->
  fst p = idx /\ nonneg (snd p) = true /\ (q = [] -> leb (snd p) zero = true).
Proof.
  unfold score_sentence. destruct (_tokenize s) as [|t ts] eqn:Ht.
  - intros [= <-]. repeat split.
  - set (tokens := t :: ts). set (n := Z.of_nat (length tokens)).
    assert (Hn : 0 < n) by (unfold n, tokens; simpl length; lia).
    destruct (of_int n) as [nf|e] eqn:Hnf; [|discriminate]. cbn [bind].
    destruct (sqrt_of_int n nf Hn Hnf) as (root & -> & Hroot). cbn [bind].
    destruct (of_int (overlap tokens q)) as [ovf|e] eqn:Hov; [|discriminate]. cbn [bind].
    destruct (of_int_nonneg _ _ (proj1 (overlap_bounds tokens q)) Hov) as [Hnn Hfin].
    unfold truediv. rewrite (positive_not_zero root Hroot). cbn [bind].
    intros [= <-]. cbn [fst snd]. repeat split.
    + destruct (div_nonneg ovf root Hnn Hroot) as [[H _]|H]; [contradiction | assumption].
    + intros ->. rewrite overlap_empty_query in Hov. injection Hov as <-.
      change (S754_zero false) with zero. now rewrite div_zero_positive.
Qed.

Lemma score_sentence_ok (q : list str) (idx : nat) (s : str) :
  Z.of_nat (length s) < 2 ^ 1023 -> exists p, score_sentence q idx s = Ok p.
Proof.
  intros Hlen. unfold score_sentence. destruct (_tokenize s) as [|t ts] eqn:Ht; [eauto|].
  set (tokens := t :: ts). set (n := Z.of_nat (length tokens)).
  assert (Hn : 0 < n <= Z.of_nat (length s)).
  { unfold n, tokens. rewrite <- Ht. pose proof (tokenize_length s).
    rewrite Ht in *. simpl length in *. lia. }
  destruct (of_int_ok n) as (nf & Hnf); [lia|]. rewrite Hnf. cbn [bind].
  destruct (sqrt_of_int n nf (proj1 Hn) Hnf) as (root & -> & Hroot). cbn [bind].
  pose proof (overlap_bounds tokens q) as Hov. fold n in Hov.
  destruct (of_int_ok (overlap tokens q)) as (ovf & ->); [lia|]. cbn [bind].
  unfold truediv. rewrite (positive_not_zero root Hroot). cbn [bind]. eauto.
Qed.

Lemma score_sentences_inv_from (q : list str) (k : nat) (ss : list str)
  (scores : list (nat * float)) :
  mapM (fun p => score_sentence q (fst p) (snd p)) (enumerate k ss) = Ok scores ->
  map fst scores = seq k (length ss) /\
  Forall (fun p => nonneg (snd p) = true) scores /\
  (q = [] -> Forall (fun p => leb (snd p) zero = true) scores).
Proof.
  revert k scores. induction ss as [|s ss IH]; intros k scores; simpl.
  - intros [= <-]. repeat split; constructor.
  - destruct (score_sentence q k s) as [p|e] eqn:Hp; [|discriminate]. cbn [bind].
    destruct (mapM _ (enumerate (S k) ss)) as [ps|e] eqn:Hps; [|discriminate].
    cbn [bind]. intros [= <-].
    destruct (score_sentence_inv q k s p Hp) as (Hi & Hnn & Hz).
    destruct (IH (S k) ps Hps) as (Hseq & Hall & Hzs).
    simpl. rewrite Hi, Hseq. repeat split; [constructor; assumption|].
    intros Hq. constructor; auto.
Qed.

Lemma score_sentences_inv (ss q : list str) (scores : list (nat * float)) :
  _score_sentences ss q = Ok scores ->
  map fst scores = seq 0 (length ss) /\
  Forall (fun p => nonneg (snd p) = true) scores /\
  (q = [] -> Forall (fun p => leb (snd p) zero = true) scores).
Proof. apply score_sentences_inv_from. Qed.

Lemma score_sentences_ok (ss q : list str) :
  Forall (fun s => Z.of_nat (length s) < 2 ^ 1023) ss ->
  exists scores, _score_sentences ss q = Ok scores.
Proof.
  intros Hall. unfold _score_sentences. apply mapM_exists.
  generalize 0%nat. induction Hall as [|s ss Hs _ IH]; intros k; simpl; constructor.
  - apply score_sentence_ok, Hs.
  - apply IH.
Qed.

(** *** Sorting *)

Lemma insert_desc_perm (x : nat * float) (l : list (nat * float)) :
  Permutation (insert_desc x l) (x :: l).
Proof.
  induction l as [|y l IH]; simpl; [reflexivity|].
  destruct (ltb (snd x) (snd y)); [|reflexivity].
  rewrite IH. apply perm_swap.
Qed.

Lemma sort_desc_perm (l : list (nat * float)) : Permutation (sort_desc l) l.
Proof.
  induction l as [|x l IH]; simpl; [reflexivity|].
  rewrite insert_desc_perm. now constructor.
Qed.

Lemma insert_asc_perm (x : nat) (l : list nat) :
  Permutation (insert_asc x l) (x :: l).
Proof.
  induction l as [|y l IH]; simpl; [reflexivity|].
  destruct (y <? x)%nat; [|reflexivity].
  rewrite IH. apply perm_swap.
Qed.

Lemma sort_asc_perm (l : list nat) : Permutation (sort_asc l) l.
Proof.
  induction l as [|x l IH]; simpl; [reflexivity|].
  rewrite insert_asc_perm. now constructor.
Qed.

Lemma insert_asc_sorted (x : nat) (l : list nat) :
  StronglySorted lt l -> ~ In x l -> StronglySorted lt (insert_asc x l).
Proof.
  induction 1 as [|y l Hs IH Hy]; intros Hnin; simpl.
  - repeat constructor.
  - destruct (Nat.ltb_spec y x) as [Hlt|Hge].
    + constructor.
      * apply IH. intros Hin. apply Hnin. now right.
      * eapply Permutation_Forall; [symmetry; apply insert_asc_perm|].
        constructor; assumption.
    + assert (Hxy : (x < y)%nat).
      { destruct (Nat.eq_dec x y) as [->|]; [exfalso; apply Hnin; now left | lia]. }
      constructor; [constructor; assumption|].
      constructor; [assumption|].
      eapply Forall_impl; [|exact Hy]. simpl. intros; lia.
Qed.

Lemma sort_asc_sorted (l : list nat) : NoDup l -> StronglySorted lt (sort_asc l).
Proof.
  induction 1 as [|x l Hnin Hnd IH]; simpl; [constructor|].
  apply insert_asc_sorted; [assumption|].
  intros Hin. apply Hnin. eapply Permutation_in; [apply sort_asc_perm|exact Hin].
Qed.

(** *** The overall score *)

Lemma to_int_floor (Klo Khi : Z) (x : float) :
  between_ints Klo Khi x -> to_int x = Ok (floor x).
Proof.
  destruct x as [s|s| |[|] m e]; cbn [between_ints]; try contradiction; reflexivity.
Qed.

Lemma hundred_between : between_ints 50 100 (add fifty (mul fifty one)).
Proof.
  vm_compute. split; [discriminate|]. split; discriminate.
Qed.

Lemma normalized_between (ratio : float) :
  ratio = S754_nan \/ nonneg ratio = true ->
  (forall s m e, ratio = S754_finite s m e -> Z.pos m < 2 ^ 53) ->
  between_ints 50 100 (add fifty (mul fifty (min2 one ratio))).
Proof.
  intros Hr Hm. unfold min2. destruct (ltb ratio one) eqn:Hlt.
  - destruct Hr as [-> | Hnn]; [discriminate|].
    apply add_fifty_bounds, mul_fifty_bounds; assumption.
  - apply hundred_between.
Qed.

Lemma max_forall (P : float -> Prop) (s0 : float) (rest : list float) :
  Forall P (s0 :: rest) -> P (Float.max s0 rest).
Proof.
  intros H. rewrite Forall_forall in H. apply H, max_in.
Qed.

Lemma scaled_between (s0 : float) (rest : list float) (lenf : float) :
  Forall (fun x => nonneg x = true) (s0 :: rest) ->
  leb (Float.max s0 rest) zero = false ->
  of_int (Z.of_nat (length (s0 :: rest))) = Ok lenf ->
  is_zero lenf = false /\ is_zero (Float.max s0 rest) = false /\
  between_ints 50 100 (scaled (s0 :: rest) lenf (Float.max s0 rest)).
Proof.
  intros Hall Hmx Hlen.
  set (raw := s0 :: rest) in *. set (mx := Float.max s0 rest) in *.
  assert (Hmxnn : nonneg mx = true) by (apply (max_forall _ s0 rest Hall)).
  pose proof (nonneg_positive mx Hmxnn Hmx) as Hmxpos.
  assert (Hpos : 0 < Z.of_nat (length raw)) by (unfold raw; simpl length; lia).
  destruct (of_int_pos_inv _ lenf Hpos Hlen) as (m & e & -> & _).
  split; [reflexivity|]. split; [now apply positive_not_zero|].
  unfold scaled. apply normalized_between.
  - set (avg := SFdiv prec emax (sum raw) (S754_finite false m e)).
    assert (Havg : nonneg avg = true).
    { destruct (div_nonneg (sum raw) (S754_finite false m e)) as [[_ H]|H];
        [now apply sum_nonneg | reflexivity | discriminate | assumption]. }
    destruct (div_nonneg avg mx Havg Hmxpos) as [[-> ->]|H]; [now left | now right].
  - intros s m' e'. apply div_mantissa.
Qed.

Lemma compute_overall_score_eq (scores : list (nat * float)) (s0 : float)
  (rest : list float) (lenf : float) :
  map snd scores = s0 :: rest ->
  Forall (fun x => nonneg x = true) (s0 :: rest) ->
  leb (Float.max s0 rest) zero = false ->
  of_int (Z.of_nat (length (s0 :: rest))) = Ok lenf ->
  _compute_overall_score scores
  = Ok (floor (scaled (s0 :: rest) lenf (Float.max s0 rest))).
Proof.
  intros Hraw Hall Hmx Hlen.
  destruct (scaled_between s0 rest lenf Hall Hmx Hlen) as (Hz1 & Hz2 & Hb).
  unfold _compute_overall_score. rewrite Hraw. cbv zeta. rewrite Hmx, Hlen.
  cbn [bind]. unfold truediv. rewrite Hz1. cbn [bind]. rewrite Hz2. cbn [bind].
  apply (to_int_floor 50 100). exact Hb.
Qed.

Lemma floor_between (Klo Khi : Z) (x : float) :
  0 <= Klo -> 0 <= Khi -> between_ints Klo Khi x -> Klo <= floor x <= Khi.
Proof.
  intros Hlo Hhi Hb.
  destruct (to_int_between Klo Khi x Hlo Hhi Hb) as (z & Hz & Hr).
  rewrite (to_int_floor Klo Khi x Hb) in Hz. now injection Hz as <-.
Qed.

Lemma forall_snd {A B : Type} (P : B -> Prop) (l : list (A * B)) :
  Forall (fun p => P (snd p)) l -> Forall P (map snd l).
Proof. intros H. now apply Forall_map. Qed.

(** Whenever [_compute_overall_score] returns on sentence scores, its result
    is 0, 40 or between 50 and 100. *)
Lemma compute_overall_score_range (scores : list (nat * float)) (r : Z) :
  Forall (fun p => nonneg (snd p) = true) scores ->
  _compute_overall_score scores = Ok r -> 0 <= r <= 100.
Proof.
  intros Hall Hr. apply (forall_snd (fun x => nonneg x = true)) in Hall.
  destruct (map snd scores) as [|s0 rest] eqn:Hraw.
  - unfold _compute_overall_score in Hr. rewrite Hraw in Hr. injection Hr as <-. lia.
  - destruct (leb (Float.max s0 rest) zero) eqn:Hmx.
    + unfold _compute_overall_score in Hr. rewrite Hraw in Hr. cbv zeta in Hr.
      rewrite Hmx in Hr. injection Hr as <-. lia.
    + destruct (of_int (Z.of_nat (length (s0 :: rest)))) as [lenf|e] eqn:Hlen.
      * rewrite (compute_overall_score_eq scores s0 rest lenf Hraw Hall Hmx Hlen) in Hr.
        injection Hr as <-.
        destruct (scaled_between s0 rest lenf Hall Hmx Hlen) as (_ & _ & Hb).
        pose proof (floor_between 50 100 _ ltac:(lia) ltac:(lia) Hb). lia.
      * unfold _compute_overall_score in Hr. rewrite Hraw in Hr. cbv zeta in Hr.
        rewrite Hmx, Hlen in Hr. discriminate.
Qed.

Lemma sys_maxsize_lt : sys_maxsize < 2 ^ 1023.
Proof. reflexivity. Qed.

Lemma compute_overall_score_ok (scores : list (nat * float)) :
  Forall (fun p => nonneg (snd p) = true) scores ->
  Z.of_nat (length scores) <= sys_maxsize ->
  exists r, _compute_overall_score scores = Ok r.
Proof.
  intros Hall Hlen. apply (forall_snd (fun x => nonneg x = true)) in Hall.
  destruct (map snd scores) as [|s0 rest] eqn:Hraw.
  - unfold _compute_overall_score. rewrite Hraw. eauto.
  - destruct (leb (Float.max s0 rest) zero) eqn:Hmx.
    + unfold _compute_overall_score. rewrite Hraw. cbv zeta. rewrite Hmx. eauto.
    + destruct (of_int_ok (Z.of_nat (length (s0 :: rest)))) as (lenf & Hl).
      { rewrite <- Hraw, length_map. pose proof sys_maxsize_lt. lia. }
      rewrite (compute_overall_score_eq scores s0 rest lenf Hraw Hall Hmx Hl). eauto.
Qed.

(** *** Selection and rendering *)

Lemma forallb_perm {A : Type} (f : A -> bool) (l l' : list A) :
  Permutation l l' -> forallb f l = forallb f l'.
Proof.
  induction 1 as [|x l l' _ IH|x y l|l l' l'' _ IH1 _ IH2]; simpl.
  - reflexivity.
  - now rewrite IH.
  - destruct (f x), (f y); reflexivity.
  - now rewrite IH1.
Qed.

Lemma forallb_sorted (f : nat * float -> bool) (l : list (nat * float)) :
  forallb f (sort_desc l) = forallb f l.
Proof. apply forallb_perm, sort_desc_perm. Qed.

Lemma forallb_Forall {A : Type} (f : A -> bool) (l : list A) :
  Forall (fun a => f a = true) l -> forallb f l = true.
Proof. intros H. apply forallb_forall. now apply Forall_forall. Qed.

Lemma firstn_incl {A : Type} (n : nat) (l : list A) : incl (firstn n l) l.
Proof.
  intros a Hin. rewrite <- (firstn_skipn n l). apply in_or_app. now left.
Qed.

Lemma slice_to_incl {A : Type} (k : Z) (l : list A) : incl (slice_to k l) l.
Proof. unfold slice_to. destruct (0 <=? k); apply firstn_incl. Qed.

Lemma firstn_NoDup {A : Type} (n : nat) (l : list A) : NoDup l -> NoDup (firstn n l).
Proof.
  intros H. rewrite <- (firstn_skipn n l) in H. eapply NoDup_app_remove_r. exact H.
Qed.

Lemma slice_to_map {A B : Type} (f : A -> B) (k : Z) (l : list A) :
  map f (slice_to k l) = slice_to k (map f l).
Proof.
  unfold slice_to. rewrite length_map.
  destruct (0 <=? k); symmetry; apply firstn_map.
Qed.

Lemma slice_to_NoDup {A : Type} (k : Z) (l : list A) : NoDup l -> NoDup (slice_to k l).
Proof. unfold slice_to. destruct (0 <=? k); apply firstn_NoDup. Qed.

Lemma sorted_indices_perm (ss : list str) (scores : list (nat * float)) :
  map fst scores = seq 0 (length ss) ->
  Permutation (map fst (sort_desc scores)) (seq 0 (length ss)).
Proof.
  intros <-. apply Permutation_map, sort_desc_perm.
Qed.

Lemma selected_indices_valid (ss : list str) (scores : list (nat * float)) (N : Z) :
  map fst scores = seq 0 (length ss) ->
  Forall (fun i => (i < length ss)%nat) (selected_indices ss (sort_desc scores) N).
Proof.
  intros Hidx. unfold selected_indices. apply Forall_forall. intros i Hin.
  destruct (forallb _ (sort_desc scores)).
  - apply in_seq in Hin. lia.
  - apply (Permutation_in _ (sort_asc_perm _)) in Hin.
    rewrite slice_to_map in Hin. apply slice_to_incl in Hin.
    apply (Permutation_in _ (sorted_indices_perm ss scores Hidx)) in Hin.
    apply in_seq in Hin. lia.
Qed.

Lemma bullet_valid (ss : list str) (i : nat) :
  (i < length ss)%nat -> bullet ss i = Ok (bullet_text (nth i ss [])).
Proof.
  intros Hi. unfold bullet. now rewrite (nth_error_nth' ss [] Hi).
Qed.

Lemma bullets_ok (ss : list str) (sel : list nat) :
  Forall (fun i => (i < length ss)%nat) sel ->
  mapM (bullet ss) sel = Ok (map (fun i => bullet_text (nth i ss [])) sel).
Proof.
  intros H. apply mapM_ok. eapply Forall_impl; [|exact H].
  intros i Hi. now apply bullet_valid.
Qed.

Lemma map_nth_seq {A : Type} (d : A) (l : list A) (k : nat) :
  (k <= length l)%nat -> map (fun i => nth i l d) (seq 0 k) = firstn k l.
Proof.
  revert k. induction l as [|a l IH]; intros k Hk.
  - simpl in Hk. replace k with 0%nat by lia. reflexivity.
  - destruct k as [|k]; [reflexivity|].
    cbn [seq map nth firstn]. rewrite <- seq_shift, map_map. cbn [nth].
    f_equal. apply IH. simpl in Hk. lia.
Qed.

(** *** The function [summarize] *)

Lemma summarize_blank_text (text query : str) (mt : option str) (N : Z) :
  strip text = [] ->
  summarize text query mt N
  = Ok {| title := title_or mt (or_else query (lit "Untitled"));
          summary := []; score := 0 |}.
Proof. intros H. unfold summarize. now rewrite H. Qed.

(** With a text that is not blank, [summarize] scores the sentences, renders
    the selected ones and computes the overall score. *)
Lemma summarize_scored (text query : str) (mt : option str) (N : Z)
  (scores : list (nat * float)) :
  strip text <> [] ->
  _score_sentences (_split_sentences (strip text)) (_tokenize query) = Ok scores ->
  let sentences := _split_sentences (strip text) in
  let sel := selected_indices sentences (sort_desc scores) N in
  summarize text query mt N =
  (overall_score <- _compute_overall_score (sort_desc scores) ;;
   Ok {| title := title_or mt (or_else (firstn 120 (hd [] sentences))
                                 (or_else query (lit "Untitled")));
         summary := join newline (map (fun i => bullet_text (nth i sentences [])) sel);
         score := overall_score |}).
Proof.
  intros Hne Hsc. cbv zeta. unfold summarize.
  destruct (truthy (strip text)) eqn:Ht;
    [|destruct (strip text); [contradiction | discriminate]].
  cbn [negb].
  pose proof (split_sentences_nonempty (strip text)) as Hss.
  rewrite strip_idempotent in Hss. specialize (Hss Hne).
  destruct (score_sentences_inv _ _ _ Hsc) as (Hidx & _).
  remember (_split_sentences (strip text)) as sentences eqn:Hsent.
  destruct sentences as [|first rest]; [contradiction|].
  rewrite Hsc. cbn [bind].
  rewrite bullets_ok by (now apply selected_indices_valid).
  reflexivity.
Qed.

Lemma sorted_nonneg (scores : list (nat * float)) :
  Forall (fun p => nonneg (snd p) = true) scores ->
  Forall (fun p => nonneg (snd p) = true) (sort_desc scores).
Proof.
  intros H. eapply Permutation_Forall; [symmetry; apply sort_desc_perm | exact H].
Qed.

Lemma compute_overall_score_fallback (scores : list (nat * float)) :
  scores <> [] ->
  Forall (fun p => leb (snd p) zero = true) scores ->
  _compute_overall_score scores = Ok 40.
Proof.
  intros Hne Hall. unfold _compute_overall_score.
  destruct scores as [|p scores]; [contradiction|]. cbn [map]. cbv zeta.
  assert (H : leb (Float.max (snd p) (map snd scores)) zero = true).
  { apply (max_forall (fun x => leb x zero = true)).
    change (snd p :: map snd scores) with (map snd (p :: scores)).
    now apply Forall_map. }
  now rewrite H.
Qed.

Lemma sentences_bound (text : str) :
  Z.of_nat (length text) <= sys_maxsize ->
  let sentences := _split_sentences (strip text) in
  Z.of_nat (length sentences) <= sys_maxsize /\
  Forall (fun s => Z.of_nat (length s) < 2 ^ 1023) sentences.
Proof.
  intros Hlen sentences. pose proof (strip_length text) as Hst.
  pose proof sys_maxsize_lt as Hmax. split.
  - pose proof (split_sentences_count (strip text)). fold sentences in H. lia.
  - eapply Forall_impl; [|apply split_sentences_length].
    simpl. intros s Hs. lia.
Qed.

(** C1, as stated, fails: with an empty text and an empty query the score is
    0, not 40. *)
Lemma summarize_blank_query_blank_text :
  forallb isspace [] = true /\
  exists r, summarize [] [] None 3 = Ok r /\ score r = 0 /\ score r <> 40.
Proof.
  split; [reflexivity|]. eexists. split; [reflexivity|]. split; [reflexivity|].
  discriminate.
Qed.

Lemma summarize_fallback (text query : str) (mt : option str) (N : Z)
  (scores : list (nat * float)) :
  strip text <> [] ->
  _score_sentences (_split_sentences (strip text)) (_tokenize query) = Ok scores ->
  Forall (fun p => leb (snd p) zero = true) scores ->
  exists r, summarize text query mt N = Ok r /\ score r = 40 /\
    summary r = join newline
      (map bullet_text
         (firstn (Z.to_nat (Z.min N (Z.of_nat (length (_split_sentences (strip text))))))
            (_split_sentences (strip text)))).
Proof.
  intros Hne Hsc Hall.
  rewrite (summarize_scored text query mt N scores Hne Hsc).
  destruct (score_sentences_inv _ _ _ Hsc) as (Hidx & _).
  pose proof (split_sentences_nonempty (strip text)) as Hss.
  rewrite strip_idempotent in Hss. specialize (Hss Hne).
  set (sentences := _split_sentences (strip text)) in *.
  rewrite compute_overall_score_fallback.
  - cbn [bind]. eexists. split; [reflexivity|]. split; [reflexivity|].
    cbn [summary]. unfold selected_indices.
    rewrite forallb_sorted, (forallb_Forall _ scores Hall).
    rewrite <- (map_nth_seq ([] : str) sentences) by lia.
    now rewrite map_map.
  - intros Hnil. apply (f_equal (@length _)) in Hnil.
    rewrite (Permutation_length (sort_desc_perm scores)) in Hnil.
    apply (f_equal (@length _)) in Hidx. rewrite length_map, length_seq in Hidx.
    destruct sentences; [contradiction | simpl in *; lia].
  - eapply Permutation_Forall; [symmetry; apply sort_desc_perm | exact Hall].
Qed.

(** C1 (amended): for every text that is not blank, of a length a Python
    string can have, [summarize] with an empty or white-space query returns a
    result whose score is 40. *)
Theorem summarize_blank_query_score (text query : str) (mt : option str) (N : Z) :
  forallb isspace query = true ->
  strip text <> [] ->
  Z.of_nat (length text) <= sys_maxsize ->
  exists r, summarize text query mt N = Ok r /\ score r = 40.
Proof.
  intros Hq Hne Hlen.
  destruct (sentences_bound text Hlen) as (_ & Hss).
  destruct (score_sentences_ok _ (_tokenize query) Hss) as (scores & Hsc).
  destruct (score_sentences_inv _ _ _ Hsc) as (_ & _ & Hz).
  destruct (summarize_fallback text query mt N scores Hne Hsc) as (r & Hr & H40 & _).
  - apply Hz. now apply tokenize_blank.
  - eauto.
Qed.

Lemma summarize_blank_query_score_witness :
  exists r, summarize example_text (lit "  ") None 3 = Ok r /\ score r = 40.
Proof.
  apply summarize_blank_query_score.
  - reflexivity.
  - vm_compute. discriminate.
  - vm_compute. discriminate.
Defined.

(** C2: on sentence scores, which are not negative, [_compute_overall_score]
    returns the score the specification words: 0 for no score, 40 when the
    largest score is not positive, and otherwise the floor of
    50 + 50 * min(1.0, avg / max), which lies between 50 and 100. *)
Theorem compute_overall_score_spec (scores : list (nat * float)) :
  Forall (fun p => nonneg (snd p) = true) scores ->
  Z.of_nat (length scores) <= sys_maxsize ->
  _compute_overall_score scores = Ok (spec_overall_score (map snd scores)) /\
  (scores = [] -> spec_overall_score (map snd scores) = 0) /\
  (forall s0 rest, map snd scores = s0 :: rest ->
     leb (Float.max s0 rest) zero = true ->
     spec_overall_score (map snd scores) = 40) /\
  (forall s0 rest, map snd scores = s0 :: rest ->
     leb (Float.max s0 rest) zero = false ->
     50 <= spec_overall_score (map snd scores) <= 100).
Proof.
  intros Hall Hlen. apply (forall_snd (fun x => nonneg x = true)) in Hall.
  split; [|split; [|split]].
  - destruct (map snd scores) as [|s0 rest] eqn:Hraw.
    + unfold _compute_overall_score. now rewrite Hraw.
    + destruct (leb (Float.max s0 rest) zero) eqn:Hmx.
      * unfold _compute_overall_score, spec_overall_score. rewrite Hraw. cbv zeta.
        now rewrite Hmx.
      * destruct (of_int_ok (Z.of_nat (length (s0 :: rest)))) as (lenf & Hl).
        { rewrite <- Hraw, length_map. pose proof sys_maxsize_lt. lia. }
        rewrite (compute_overall_score_eq scores s0 rest lenf Hraw Hall Hmx Hl).
        unfold spec_overall_score. cbv zeta. rewrite Hmx.
        now rewrite (of_int_eq _ _ Hl).
  - intros ->. reflexivity.
  - intros s0 rest Hraw Hmx. rewrite Hraw. unfold spec_overall_score. cbv zeta.
    now rewrite Hmx.
  - intros s0 rest Hraw Hmx. rewrite Hraw in *.
    destruct (of_int_ok (Z.of_nat (length (s0 :: rest)))) as (lenf & Hl).
    { rewrite <- Hraw, length_map. pose proof sys_maxsize_lt. lia. }
    destruct (scaled_between s0 rest lenf Hall Hmx Hl) as (_ & _ & Hb).
    unfold spec_overall_score. cbv zeta. rewrite Hmx.
    rewrite <- (of_int_eq _ _ Hl).
    apply (floor_between 50 100); [lia | lia | exact Hb].
Qed.

Lemma compute_overall_score_spec_witness :
  _compute_overall_score example_scores
  = Ok (spec_overall_score (map snd example_scores)) /\
  spec_overall_score (map snd example_scores) = 78.
Proof.
  split.
  - apply (compute_overall_score_spec example_scores).
    + repeat constructor.
    + vm_compute. discriminate.
  - vm_compute. reflexivity.
Defined.

(** *** Slices and sorted lists *)

Lemma seq_sorted (a k : nat) : StronglySorted lt (seq a k).
Proof.
  revert a. induction k as [|k IH]; intros a; cbn [seq]; constructor.
  - apply IH.
  - apply Forall_forall. intros x Hx. apply in_seq in Hx. lia.
Qed.

Lemma slice_to_length {A : Type} (k : Z) (l : list A) :
  length (slice_to k l)
  = if k <? 0 then Z.to_nat (Z.of_nat (length l) + k)
    else Z.to_nat (Z.min k (Z.of_nat (length l))).
Proof.
  unfold slice_to. destruct (Z.leb_spec 0 k) as [Hk|Hk];
    destruct (Z.ltb_spec k 0) as [Hk'|Hk']; try lia;
    rewrite length_firstn; lia.
Qed.

Lemma sort_asc_length (l : list nat) : length (sort_asc l) = length l.
Proof. apply Permutation_length, sort_asc_perm. Qed.

Lemma sort_desc_length (l : list (nat * float)) : length (sort_desc l) = length l.
Proof. apply Permutation_length, sort_desc_perm. Qed.

(** *** The order of the scores *)

(** On scores, which are not negative, [<] compares the exponents and then
    the mantissas, a zero being below every positive number and infinity
    above. *)
Lemma ltb_finite (m1 m2 : positive) (e1 e2 : Z) :
  ltb (S754_finite false m1 e1) (S754_finite false m2 e2) = true
  <-> e1 < e2 \/ (e1 = e2 /\ (m1 < m2)%positive).
Proof.
  unfold ltb, SFltb. cbn [SFcompare].
  destruct (Z.compare_spec e1 e2) as [He|He|He].
  - change (Pos.compare_cont Eq m1 m2) with (Pos.compare m1 m2).
    destruct (Pos.compare_spec m1 m2) as [Hm|Hm|Hm]; split; intros H;
      try discriminate; try reflexivity; lia.
  - split; [intros _; now left | reflexivity].
  - split; [discriminate | lia].
Qed.

Lemma ltb_finite_false (m1 m2 : positive) (e1 e2 : Z) :
  ltb (S754_finite false m1 e1) (S754_finite false m2 e2) = false
  <-> e2 < e1 \/ (e1 = e2 /\ (m2 <= m1)%positive).
Proof.
  pose proof (ltb_finite m1 m2 e1 e2) as H.
  destruct (ltb _ _); split; intros H'; try reflexivity; try discriminate.
  - assert (e1 < e2 \/ e1 = e2 /\ (m1 < m2)%positive) by now apply H. lia.
  - destruct (Z.lt_total e1 e2) as [Hlt|[Heq|Hgt]]; [|  |now left].
    + assert (false = true) by (apply H; now left). discriminate.
    + destruct (Pos.lt_total m1 m2) as [Hm|[Hm|Hm]]; [|right; lia|right; lia].
      assert (false = true) by (apply H; right; now split). discriminate.
Qed.

(** [<] is asymmetric on scores. *)
Lemma ltb_asym (x y : float) :
  nonneg x = true -> nonneg y = true -> ltb x y = true -> ltb y x = false.
Proof.
  intros Hx Hy.
  destruct (nonneg_cases x Hx) as [(sx & ->) | [-> | (mx & ex & ->)]];
    destruct (nonneg_cases y Hy) as [(sy & ->) | [-> | (my & ey & ->)]];
    try (intros _; reflexivity); try discriminate.
  intros H. apply ltb_finite in H. apply ltb_finite_false. lia.
Qed.

(** Not being below is transitive on scores. *)
Lemma not_ltb_trans (x y z : float) :
  nonneg x = true -> nonneg y = true -> nonneg z = true ->
  ltb x y = false -> ltb y z = false -> ltb x z = false.
Proof.
  intros Hx Hy Hz.
  destruct (nonneg_cases x Hx) as [(sx & ->) | [-> | (mx & ex & ->)]];
    destruct (nonneg_cases y Hy) as [(sy & ->) | [-> | (my & ey & ->)]];
    destruct (nonneg_cases z Hz) as [(sz & ->) | [-> | (mz & ez & ->)]];
    try (intros _ _; reflexivity); try discriminate;
    try (intros _; discriminate).
  intros H1 H2. apply ltb_finite_false in H1, H2. apply ltb_finite_false. lia.
Qed.

(** *** The ranking *)

(** An entry put into a ranking, all of whose entries have a larger index,
    goes behind the entries with a larger score and before the others. *)
Lemma insert_desc_ranked (x : nat * float) (l : list (nat * float)) :
  Forall (fun p => nonneg (snd p) = true) (x :: l) ->
  Forall (fun q => (fst x < fst q)%nat) l ->
  StronglySorted ranked_before l ->
  StronglySorted ranked_before (insert_desc x l).
Proof.
  intros Hnn Hidx Hs. induction l as [|y l IH]; simpl.
  - repeat constructor.
  - inversion Hs as [|? ? Hsl Hy]; subst.
    inversion Hnn as [|? ? Hx Hnl]; subst. inversion Hnl as [|? ? Hyn Hln]; subst.
    inversion Hidx as [|? ? Hxy Hxl]; subst.
    destruct (ltb (snd x) (snd y)) eqn:Hlt.
    + constructor.
      * apply IH; [now constructor | assumption | assumption].
      * eapply Permutation_Forall; [symmetry; apply insert_desc_perm|].
        constructor; [|assumption].
        split; [now apply ltb_asym | now left].
    + constructor; [assumption|]. constructor.
      * split; [assumption | now right].
      * rewrite Forall_forall in *. intros z Hz.
        destruct (Hy z Hz) as [Hyz _]. split.
        -- apply not_ltb_trans with (y := snd y); auto.
        -- right. auto.
Qed.

(** [sorted(scores, key=lambda x: x[1], reverse=True)] ranks the entries: a
    larger score comes first, and of equal scores the one of the earlier
    sentence. *)
Lemma sort_desc_ranked (l : list (nat * float)) :
  Forall (fun p => nonneg (snd p) = true) l ->
  StronglySorted lt (map fst l) ->
  StronglySorted ranked_before (sort_desc l).
Proof.
  induction l as [|x l IH]; intros Hnn Hidx; [constructor|].
  inversion Hnn as [|? ? Hx Hl]; subst.
  cbn [map] in Hidx. inversion Hidx as [|? ? Hsl Hxl]; subst.
  change (sort_desc (x :: l)) with (insert_desc x (sort_desc l)).
  apply insert_desc_ranked.
  - constructor; [assumption|].
    eapply Permutation_Forall; [symmetry; apply sort_desc_perm | assumption].
  - eapply Permutation_Forall; [symmetry; apply sort_desc_perm|].
    rewrite Forall_forall in *. intros q Hq. apply Hxl. now apply in_map.
  - now apply IH.
Qed.

Lemma sorted_app_related {A : Type} (R : A -> A -> Prop) (l1 l2 : list A) :
  StronglySorted R (l1 ++ l2) -> forall p q, In p l1 -> In q l2 -> R p q.
Proof.
  induction l1 as [|a l1 IH]; intros Hs p q Hp Hq; [destruct Hp|].
  cbn [app] in Hs. inversion Hs as [|? ? Hs' Ha]; subst.
  destruct Hp as [<- | Hp].
  - rewrite Forall_forall in Ha. apply Ha, in_or_app. now right.
  - now apply IH.
Qed.

Lemma in_same_key {A B : Type} (f : A -> B) (l : list A) (a b : A) :
  NoDup (map f l) -> In a l -> In b l -> f a = f b -> a = b.
Proof.
  induction l as [|c l IH]; intros Hnd Ha Hb Hf; [destruct Ha|].
  cbn [map] in Hnd. inversion Hnd as [|? ? Hc Hl]; subst.
  destruct Ha as [<- | Ha], Hb as [<- | Hb]; auto.
  - exfalso. apply Hc. rewrite Hf. now apply in_map.
  - exfalso. apply Hc. rewrite <- Hf. now apply in_map.
Qed.

(** The entries of the best ranked sentences are ranked before all others. *)
Lemma slice_to_ranked (scores : list (nat * float)) (N : Z) (p q : nat * float) :
  Forall (fun p => nonneg (snd p) = true) scores ->
  StronglySorted lt (map fst scores) ->
  In p scores -> In q scores ->
  In (fst p) (map fst (slice_to N (sort_desc scores))) ->
  ~ In (fst q) (map fst (slice_to N (sort_desc scores))) ->
  ranked_before p q.
Proof.
  intros Hnn Hidx Hp Hq Hin Hout.
  assert (Hk : exists k, slice_to N (sort_desc scores) = firstn k (sort_desc scores)).
  { unfold slice_to. destruct (0 <=? N); eauto. }
  destruct Hk as (k & Hk). rewrite Hk in *.
  pose proof (sort_desc_ranked scores Hnn Hidx) as Hs.
  rewrite <- (firstn_skipn k (sort_desc scores)) in Hs.
  assert (Hnd : NoDup (map fst scores)).
  { apply StronglySorted_Sorted, Sorted_StronglySorted in Hidx;
      [|intros a b c; apply Nat.lt_trans].
    clear - Hidx. induction Hidx as [|a l Hl IH Ha]; constructor; [|assumption].
    intros Hin. rewrite Forall_forall in Ha. specialize (Ha a Hin). lia. }
  apply (sorted_app_related _ _ _ Hs).
  - apply in_map_iff in Hin as (p' & Hf & Hp').
    assert (p' = p) as <-; [|assumption].
    apply (in_same_key fst scores); try assumption.
    eapply Permutation_in; [apply sort_desc_perm|]. eapply firstn_incl, Hp'.
  - assert (Hqs : In q (sort_desc scores)).
    { eapply Permutation_in; [symmetry; apply sort_desc_perm | assumption]. }
    rewrite <- (firstn_skipn k (sort_desc scores)) in Hqs.
    apply in_app_or in Hqs as [Hqs|Hqs]; [|assumption].
    exfalso. apply Hout. now apply in_map.
Qed.

(** C5: when some sentence has a positive score, the indices of the rendered
    sentences are strictly increasing, whatever the rank of their scores.
    They are the indices of the first [max_sentences] entries of the ranking
    (all but the last [-max_sentences] when [max_sentences] is negative), and
    every sentence that is rendered is ranked before every sentence that is
    not: its score is not below, and of two scores that tie it has the
    smaller index. *)
Theorem selected_indices_document_order (text query : str) (N : Z)
  (scores : list (nat * float)) :
  let sentences := _split_sentences (strip text) in
  _score_sentences sentences (_tokenize query) = Ok scores ->
  forallb (fun p => leb (snd p) zero) scores = false ->
  let sel := selected_indices sentences (sort_desc scores) N in
  StronglySorted lt sel /\
  Permutation sel (map fst (slice_to N (sort_desc scores))) /\
  mapM (bullet sentences) sel = Ok (map (fun i => bullet_text (nth i sentences [])) sel) /\
  map fst scores = seq 0 (length sentences) /\
  length sel = (if N <? 0 then Z.to_nat (Z.of_nat (length sentences) + N)
                else Z.to_nat (Z.min N (Z.of_nat (length sentences)))) /\
  (forall p q, In p scores -> In q scores ->
     In (fst p) sel -> ~ In (fst q) sel -> ranked_before p q).
Proof.
  intros sentences Hsc Hpos sel.
  destruct (score_sentences_inv _ _ _ Hsc) as (Hidx & Hnn & _).
  assert (Hsel : sel = sort_asc (map fst (slice_to N (sort_desc scores)))).
  { unfold sel, selected_indices. now rewrite forallb_sorted, Hpos. }
  assert (Hperm : Permutation sel (map fst (slice_to N (sort_desc scores)))).
  { rewrite Hsel. apply sort_asc_perm. }
  split; [|split; [|split; [|split; [|split]]]].
  - rewrite Hsel. apply sort_asc_sorted. rewrite slice_to_map. apply slice_to_NoDup.
    eapply Permutation_NoDup; [symmetry; apply (sorted_indices_perm sentences scores Hidx)|].
    apply seq_NoDup.
  - exact Hperm.
  - apply bullets_ok. now apply selected_indices_valid.
  - exact Hidx.
  - rewrite (Permutation_length Hperm), length_map, slice_to_length.
    rewrite (Permutation_length (sort_desc_perm scores)).
    rewrite <- (length_map fst scores), Hidx, length_seq. reflexivity.
  - intros p q Hp Hq Hin Hout.
    apply (slice_to_ranked scores N); try assumption.
    + rewrite Hidx. apply seq_sorted.
    + eapply Permutation_in; [exact Hperm | exact Hin].
    + intros H. apply Hout. eapply Permutation_in; [symmetry; exact Hperm | exact H].
Qed.

Lemma selected_indices_document_order_witness :
  let sentences := _split_sentences (strip ranked_text) in
  let sel := selected_indices sentences (sort_desc ranked_scores) 2 in
  (StronglySorted lt sel /\
   Permutation sel (map fst (slice_to 2 (sort_desc ranked_scores))) /\
   mapM (bullet sentences) sel = Ok (map (fun i => bullet_text (nth i sentences [])) sel) /\
   map fst ranked_scores = seq 0 (length sentences) /\
   length sel = 2%nat /\
   (forall p q, In p ranked_scores -> In q ranked_scores ->
      In (fst p) sel -> ~ In (fst q) sel -> ranked_before p q)) /\
  map fst (sort_desc ranked_scores) = [2; 1; 0]%nat /\
  sel = [1; 2]%nat /\
  exists r, summarize ranked_text example_query None 2 = Ok r /\
            summary r = join newline [lit "- Cats purr."; lit "- Dogs bark at cats!"].
Proof.
  split; [|split; [|split]].
  - apply (selected_indices_document_order ranked_text example_query 2 ranked_scores).
    + vm_compute. reflexivity.
    + vm_compute. reflexivity.
  - vm_compute. reflexivity.
  - vm_compute. reflexivity.
  - eexists. split; vm_compute; reflexivity.
Defined.

(** C6: when no sentence has a positive score, the selected indices are those
    of the first min(N, sentence_count) sentences, and the summary renders
    exactly these sentences in their original order. *)
Theorem fallback_selects_first_sentences (text query : str) (mt : option str) (N : Z)
  (scores : list (nat * float)) :
  let sentences := _split_sentences (strip text) in
  let k := Z.to_nat (Z.min N (Z.of_nat (length sentences))) in
  _score_sentences sentences (_tokenize query) = Ok scores ->
  Forall (fun p => leb (snd p) zero = true) scores ->
  selected_indices sentences (sort_desc scores) N = seq 0 k /\
  exists r, summarize text query mt N = Ok r /\
            summary r = join newline (map bullet_text (firstn k sentences)).
Proof.
  intros sentences k Hsc Hall. split.
  - unfold selected_indices. now rewrite forallb_sorted, (forallb_Forall _ scores Hall).
  - destruct (str_eq_dec (strip text) []) as [Hs|Hne].
    + rewrite (summarize_blank_text text query mt N Hs).
      eexists. split; [reflexivity|]. cbn [summary].
      unfold sentences. rewrite Hs.
      change (_split_sentences []) with (@nil str). now rewrite firstn_nil.
    + destruct (summarize_fallback text query mt N scores Hne Hsc Hall)
        as (res & Hres & _ & Hsum).
      eauto.
Qed.

Lemma fallback_selects_first_sentences_witness :
  let sentences := _split_sentences (strip example_text) in
  selected_indices sentences (sort_desc blank_scores) 2 = seq 0 2 /\
  exists r, summarize example_text [] None 2 = Ok r /\
            summary r = join newline (map bullet_text (firstn 2 sentences)).
Proof.
  apply (fallback_selects_first_sentences example_text [] None 2 blank_scores).
  - vm_compute. reflexivity.
  - repeat constructor.
Defined.

(** Whatever the length of the text, a result that [summarize] returns has a
    score between 0 and 100. *)
Lemma summarize_score_range_returned (text query : str) (mt : option str) (N : Z)
  (r : SummaryResult) :
  summarize text query mt N = Ok r -> 0 <= score r <= 100.
Proof.
  destruct (str_eq_dec (strip text) []) as [Hs|Hne].
  - rewrite (summarize_blank_text text query mt N Hs).
    intros [= <-]. cbn [score]. lia.
  - destruct (_score_sentences (_split_sentences (strip text)) (_tokenize query))
      as [scores|e] eqn:Hsc.
    + rewrite (summarize_scored text query mt N scores Hne Hsc).
      destruct (score_sentences_inv _ _ _ Hsc) as (_ & Hnn & _).
      pose proof (sorted_nonneg scores Hnn) as Hsnn.
      destruct (_compute_overall_score (sort_desc scores)) as [z|e] eqn:Hz;
        [|discriminate].
      cbn [bind]. intros [= <-]. cbn [score].
      exact (compute_overall_score_range _ _ Hsnn Hz).
    + unfold summarize.
      destruct (truthy (strip text)); cbn [negb].
      * destruct (_split_sentences (strip text)).
        -- intros [= <-]. cbn [score]. lia.
        -- rewrite Hsc. discriminate.
      * intros [= <-]. cbn [score]. lia.
Qed.

(** C7: on a text of a length a Python string can have, [summarize] returns a
    result whose score is between 0 and 100. *)
Theorem summarize_score_range (text query : str) (mt : option str) (N : Z) :
  Z.of_nat (length text) <= sys_maxsize ->
  exists r, summarize text query mt N = Ok r /\ 0 <= score r <= 100.
Proof.
  intros Hlen. destruct (str_eq_dec (strip text) []) as [Hs|Hne].
  - rewrite (summarize_blank_text text query mt N Hs).
    eexists. split; [reflexivity|]. cbn [score]. lia.
  - destruct (sentences_bound text Hlen) as (Hcount & Hss).
    destruct (score_sentences_ok _ (_tokenize query) Hss) as (scores & Hsc).
    destruct (score_sentences_inv _ _ _ Hsc) as (Hidx & Hnn & _).
    rewrite (summarize_scored text query mt N scores Hne Hsc).
    pose proof (sorted_nonneg scores Hnn) as Hsnn.
    destruct (compute_overall_score_ok (sort_desc scores) Hsnn) as (r & Hr).
    { rewrite (Permutation_length (sort_desc_perm scores)).
      apply (f_equal (@length _)) in Hidx. rewrite length_map, length_seq in Hidx.
      unfold str in *. lia. }
    rewrite Hr. cbn [bind]. eexists. split; [reflexivity|]. cbn [score].
    exact (compute_overall_score_range _ _ Hsnn Hr).
Qed.

Lemma summarize_score_range_witness :
  exists r, summarize example_text example_query None 3 = Ok r /\ 0 <= score r <= 100.
Proof.
  apply summarize_score_range. vm_compute. discriminate.
Defined.

(** C10: the score of the result, or the exception raised, is the same for
    any two values of [max_sentences]. *)
Theorem score_independent_of_max_sentences (text query : str) (mt : option str)
  (m1 m2 : Z) :
  score_of (summarize text query mt m1) = score_of (summarize text query mt m2).
Proof.
  destruct (str_eq_dec (strip text) []) as [Hs|Hne].
  - now rewrite !(summarize_blank_text text query mt _ Hs).
  - destruct (_score_sentences (_split_sentences (strip text)) (_tokenize query))
      as [scores|e] eqn:Hsc.
    + rewrite !(summarize_scored text query mt _ scores Hne Hsc).
      destruct (_compute_overall_score (sort_desc scores)); reflexivity.
    + unfold summarize.
      destruct (truthy (strip text)); [|reflexivity]. cbn [negb].
      destruct (_split_sentences (strip text)); [reflexivity|].
      rewrite Hsc. reflexivity.
Qed.

End SummarizerFacts.

(** ** Properties of the article parser *)

Module ArticleParserFacts.

Import Soup ArticleParser SummarizerFacts.

(** *** Searches *)

Lemma str_eqb_eq (a b : str) : str_eqb a b = true <-> a = b.
Proof.
  unfold str_eqb. destruct (str_eq_dec a b); split; congruence.
Qed.

(** A tag found by a search satisfies the criterion. *)
Lemma find_matches (crit : str -> list (str * str) -> bool) (root : list node)
  (n : node) :
  find crit root = Some n ->
  exists name attrs cs, n = Tag name attrs cs /\ crit name attrs = true.
Proof.
  unfold find, find_all. intros H.
  assert (Hin : In n (filter (matches crit) (descendants_of root))).
  { destruct (filter _ _) as [|x l]; [discriminate|].
    injection H as ->. now left. }
  apply filter_In in Hin as [_ Hm].
  destruct n as [s|s|name attrs cs]; [discriminate|discriminate|]. eauto.
Qed.

Lemma content_of_found (t : node) (c : str) (otherwise : option str) :
  get_truthy t (lit "content") = Some c ->
  content_of (Some t) otherwise = Some (strip c).
Proof. intros H. unfold content_of. now rewrite H. Qed.

(** *** Metadata *)

(** C3, as stated, fails: with both tags present the title is the content of
    the [og:title] tag, not that of the [name="title"] tag. *)
Lemma title_not_from_named_title :
  find (meta_property (lit "og:title")) title_doc = Some og_title_tag /\
  find (meta_name (lit "title")) title_doc = Some named_title_tag /\
  get named_title_tag (lit "content") = Some (lit "Named title") /\
  title (_extract_metadata title_doc (lit "http://u")) = Some (lit "OG title") /\
  title (_extract_metadata title_doc (lit "http://u")) <> Some (lit "Named title").
Proof. repeat split; try reflexivity. vm_compute. discriminate. Qed.

(** C3 (amended): when the document has an [og:title] meta tag with a
    non-empty content, the title is that content, stripped, whatever the
    [name="title"] meta tag and the [<title>] element hold. *)
Theorem title_from_og_title (doc : soup) (url : str) (og : node) (c : str) :
  find (meta_property (lit "og:title")) doc = Some og ->
  get_truthy og (lit "content") = Some c ->
  title (_extract_metadata doc url) = Some (strip c).
Proof.
  intros Hog Hc. cbn [_extract_metadata title]. unfold extract_title.
  rewrite Hog. cbn [or_tag]. now apply content_of_found.
Qed.

Lemma title_from_og_title_witness :
  title (_extract_metadata title_doc (lit "http://u")) = Some (strip (lit "OG title")).
Proof.
  apply (title_from_og_title title_doc (lit "http://u") og_title_tag); reflexivity.
Defined.

(** The [name="title"] meta tag is read only when there is no [og:title]
    meta tag. *)
Lemma title_from_named_title (doc : soup) (url : str) (nm : node) (c : str) :
  find (meta_property (lit "og:title")) doc = None ->
  find (meta_name (lit "title")) doc = Some nm ->
  get_truthy nm (lit "content") = Some c ->
  title (_extract_metadata doc url) = Some (strip c).
Proof.
  intros Hog Hnm Hc. cbn [_extract_metadata title]. unfold extract_title.
  rewrite Hog, Hnm. cbn [or_tag]. now apply content_of_found.
Qed.

(** C4, as stated, fails: an element that is not a [span] is not read. *)
Lemma author_not_from_any_element :
  find (meta_name (lit "author")) author_div_doc = None /\
  find (meta_property (lit "article:author")) author_div_doc = None /\
  find any_author_element author_div_doc = Some author_div /\
  stripped_string author_div = Some (lit "Bob") /\
  author (_extract_metadata author_div_doc (lit "http://u")) = None.
Proof. repeat split; reflexivity. Qed.

(** C4 (amended): without a [name="author"] and an [article:author] meta tag,
    the author is read from the first [span] whose class mentions the author
    (no other tag is looked at), as its [.string], stripped; it stays absent
    when there is no such [span] or when the [span] has no single non-empty
    string, a comment being a string of the [span] like a text node. *)
Theorem author_from_span (doc : soup) (url : str) :
  find (meta_name (lit "author")) doc = None ->
  find (meta_property (lit "article:author")) doc = None ->
  (find author_span doc = None /\ author (_extract_metadata doc url) = None) \/
  (exists attrs cs,
      find author_span doc = Some (Tag (lit "span") attrs cs) /\
      attr_matches mentions_author (lit "span") attrs (lit "class") = true /\
      author (_extract_metadata doc url) = stripped_string (Tag (lit "span") attrs cs)).
Proof.
  intros Hn Hp. cbn [_extract_metadata author]. unfold extract_author.
  rewrite Hn, Hp. cbn [or_tag].
  destruct (find author_span doc) as [a|] eqn:Ha; [right | left; now split].
  destruct (find_matches _ _ _ Ha) as (name & attrs & cs & -> & Hcrit).
  unfold author_span in Hcrit. apply andb_prop in Hcrit as [Hname Hclass].
  apply str_eqb_eq in Hname. subst name.
  exists attrs, cs. split; [reflexivity|]. split; [assumption|].
  reflexivity.
Qed.

Lemma author_from_span_witness :
  exists attrs cs,
    find author_span author_span_doc = Some (Tag (lit "span") attrs cs) /\
    attr_matches mentions_author (lit "span") attrs (lit "class") = true /\
    author (_extract_metadata author_span_doc (lit "http://u")) = Some (lit "Eve").
Proof.
  destruct (author_from_span author_span_doc (lit "http://u"))
    as [[H _] | (attrs & cs & Hf & Hc & Ha)]; try reflexivity.
  - discriminate.
  - exists attrs, cs. split; [assumption|]. split; [assumption|].
    reflexivity.
Defined.

(** A comment is a string of its tag: a [span] that holds a comment and a
    text node has two children and so no [.string], and the author stays
    absent, although the text of the [span] is the name. *)
Lemma author_span_with_comment :
  find author_span commented_span_doc = Some commented_span /\
  string_of commented_span = None /\
  get_text commented_span = lit "Eve" /\
  author (_extract_metadata commented_span_doc (lit "http://u")) = None.
Proof. repeat split; reflexivity. Qed.

(** A tag that holds a comment and nothing else has the comment as its
    [.string]: it is read as the title and as the author, and is no part of
    the text of the tag. *)
Lemma comment_read_as_string :
  string_of comment_only_span = Some (lit " staff ") /\
  get_text comment_only_span = nil /\
  author (_extract_metadata comment_only_doc (lit "http://u")) = Some (lit "staff") /\
  title (_extract_metadata comment_only_doc (lit "http://u")) = Some (lit "draft").
Proof. repeat split; reflexivity. Qed.

(** [.string] of a tag with one child, and of a tag with two or more. *)
Lemma string_of_only_child (name : str) (attrs : list (str * str)) (c : node) :
  string_of (Tag name attrs [c]) = string_of c.
Proof. reflexivity. Qed.

Lemma string_of_many (name : str) (attrs : list (str * str)) (c d : node)
  (cs : list node) :
  string_of (Tag name attrs (c :: d :: cs)) = None.
Proof. reflexivity. Qed.

(** C8 fails on the canonical URL: the [href] of the canonical link is stored
    as it is written. *)
Theorem canonical_url_not_trimmed :
  canonicalUrl (_extract_metadata canonical_doc (lit "http://u"))
  = Some (lit " https://example.com/a ") /\
  ~ trimmed (lit " https://example.com/a ").
Proof.
  split; [reflexivity|].
  intros [Hh _]. specialize (Hh " "%char (lit "https://example.com/a ") eq_refl).
  discriminate.
Qed.

Lemma content_of_trimmed (t : option node) (otherwise : option str) (s : str) :
  (forall s', otherwise = Some s' -> trimmed s') ->
  content_of t otherwise = Some s -> trimmed s.
Proof.
  intros Ho. unfold content_of.
  destruct t as [t|]; [|apply Ho].
  destruct (get_truthy t (lit "content")); [|apply Ho].
  intros [= <-]. apply strip_trimmed.
Qed.

Lemma stripped_string_trimmed (a : node) (s : str) :
  stripped_string a = Some s -> trimmed s.
Proof.
  unfold stripped_string. destruct (string_of a) as [x|]; [|discriminate].
  destruct (truthy x); [|discriminate]. intros [= <-]. apply strip_trimmed.
Qed.

(** The eight other fields are trimmed. *)
Lemma metadata_fields_trimmed (doc : soup) (url : str) (s : str) :
  let m := _extract_metadata doc url in
  In (Some s) [title m; description m; image m; source m; author m; keywords m;
               published m; languageCode m] ->
  trimmed s.
Proof.
  cbn [_extract_metadata title description image source author keywords published
       languageCode In].
  intros [H|[H|[H|[H|[H|[H|[H|[H|[]]]]]]]]].
  - unfold extract_title in H. eapply content_of_trimmed; [|exact H].
    intros s'. destruct (find (named (lit "title")) doc); [|discriminate].
    apply stripped_string_trimmed.
  - eapply content_of_trimmed; [|exact H]. discriminate.
  - eapply content_of_trimmed; [|exact H]. discriminate.
  - eapply content_of_trimmed; [|exact H]. discriminate.
  - unfold extract_author in H.
    destruct (or_tag _ _) as [[x|x|name attrs cs]|]; try discriminate.
    destruct (if str_eqb name (lit "meta") then _ else _).
    + injection H as <-. apply strip_trimmed.
    + now apply stripped_string_trimmed in H.
  - eapply content_of_trimmed; [|exact H]. discriminate.
  - eapply content_of_trimmed; [|exact H]. discriminate.
  - destruct (find (named (lit "html")) doc) as [h|]; [|discriminate].
    destruct (get_truthy h (lit "lang")); [|discriminate].
    injection H as <-. apply strip_trimmed.
Qed.

(** *** Body text *)

(** C9, as stated, fails: the first container that has a paragraph is taken
    even when none of its paragraphs qualifies. *)
Lemma container_without_qualifying_paragraph :
  find (named (lit "article")) container_doc = None /\
  List.find has_qualifying (select_containers container_doc) = Some content_div /\
  long_texts (paragraphs_of content_div) = [long_paragraph] /\
  _extract_text container_doc = [] /\
  _extract_text container_doc
  <> strip (join Summarizer.newline (long_texts (paragraphs_of content_div))).
Proof. repeat split; try reflexivity. vm_compute. discriminate. Qed.

Lemma first_paragraphs_found (cands : list node) (ps : list node) (c : node) :
  List.find has_paragraph cands = Some c ->
  first_paragraphs cands ps = paragraphs_of c /\ has_paragraph c = true.
Proof.
  revert ps. induction cands as [|x cands IH]; intros ps; simpl; [discriminate|].
  unfold has_paragraph at 1. destruct (nonempty (paragraphs_of x)) eqn:Hx.
  - intros [= <-]. now split.
  - intros H. now apply IH.
Qed.

Lemma long_texts_long (ps : list node) :
  Forall (fun t => (40 <= length t)%nat) (long_texts ps).
Proof.
  unfold long_texts. apply Forall_forall. intros t Hin.
  apply filter_In in Hin as [_ Hlen].
  apply negb_true_iff, Nat.ltb_ge in Hlen. exact Hlen.
Qed.

(** C9 (amended): without an [<article>] element, the text is made of the
    paragraphs of the first container, in document order among [<main>], a
    [<div>] whose id contains "content" and a [<div>] whose class contains
    "content", that has at least one [<p>] element of any length; of these
    paragraphs only the texts of at least 40 characters are kept. *)
Theorem extract_text_first_container (doc : soup) (c : node) :
  find (named (lit "article")) doc = None ->
  List.find has_paragraph (select_containers doc) = Some c ->
  _extract_text doc = strip (join Summarizer.newline (long_texts (paragraphs_of c))) /\
  In c (select_containers doc) /\
  Forall (fun t => (40 <= length t)%nat) (long_texts (paragraphs_of c)).
Proof.
  intros Hart Hc. unfold _extract_text. rewrite Hart.
  destruct (first_paragraphs_found _ [] c Hc) as [-> Hne].
  unfold has_paragraph in Hne. rewrite Hne.
  split; [reflexivity|]. split; [|apply long_texts_long].
  now apply find_some in Hc.
Qed.

Lemma extract_text_first_container_witness :
  _extract_text content_doc
  = strip (join Summarizer.newline (long_texts (paragraphs_of content_div))) /\
  In content_div (select_containers content_doc) /\
  Forall (fun t => (40 <= length t)%nat) (long_texts (paragraphs_of content_div)).
Proof.
  apply (extract_text_first_container content_doc content_div); reflexivity.
Defined.

End ArticleParserFacts.

(** ** Sentences and tokens *)

Module SentenceFacts.

Import Summarizer SummaryNotions SummarizerFacts.

(** *** White space *)

Lemma truthy_nonempty (s : str) : truthy s = true <-> s <> [].
Proof. destruct s; simpl; split; congruence. Qed.

Lemma visible_app (a b : str) : visible (a ++ b) = visible a ++ visible b.
Proof. apply filter_app. Qed.

Lemma visible_dropwhile (s : str) : visible (dropwhile isspace s) = visible s.
Proof.
  induction s as [|c s IH]; simpl; [reflexivity|].
  destruct (isspace c) eqn:Hc; simpl; [assumption|]. now rewrite Hc.
Qed.

Lemma visible_rev (s : str) : visible (rev s) = rev (visible s).
Proof.
  induction s as [|c s IH]; simpl; [reflexivity|].
  rewrite visible_app, IH. simpl. destruct (isspace c); simpl; [|reflexivity].
  now rewrite app_nil_r.
Qed.

Lemma visible_strip (s : str) : visible (strip s) = visible s.
Proof.
  unfold strip, rstrip, lstrip.
  rewrite visible_rev, visible_dropwhile, visible_rev, rev_involutive.
  apply visible_dropwhile.
Qed.

Lemma visible_nil (s : str) : visible s = [] <-> forallb isspace s = true.
Proof.
  induction s as [|c s IH]; simpl; [tauto|].
  destruct (isspace c); simpl; [exact IH | split; discriminate].
Qed.

Lemma dropwhile_all {A : Type} (p : A -> bool) (l : list A) :
  forallb p l = true -> dropwhile p l = [].
Proof.
  induction l as [|a l IH]; simpl; [reflexivity|].
  destruct (p a); simpl; [exact IH | discriminate].
Qed.

(** A string is blank, that is [strip] empties it, exactly when each of its
    characters is white space. *)
Lemma strip_nil (s : str) : strip s = [] <-> forallb isspace s = true.
Proof.
  split.
  - intros H. apply visible_nil. rewrite <- visible_strip, H. reflexivity.
  - intros H. unfold strip, rstrip, lstrip. now rewrite (dropwhile_all _ _ H).
Qed.

(** *** Sentences *)

Lemma split_sentences_items (text : str) :
  Forall (fun s => s <> [] /\ trimmed s) (_split_sentences text).
Proof.
  unfold _split_sentences. destruct (negb (truthy (strip text))); [constructor|].
  cbv zeta. apply Forall_map, Forall_forall. intros s Hin.
  apply filter_In in Hin as [_ Ht]. split.
  - now apply truthy_nonempty.
  - apply strip_trimmed.
Qed.

Lemma split_sentences_strip (text : str) :
  _split_sentences (strip text) = _split_sentences text.
Proof. unfold _split_sentences. now rewrite strip_idempotent. Qed.

Lemma first_sentence_nonempty (text : str) :
  strip text <> [] -> hd [] (_split_sentences text) <> [].
Proof.
  intros Hne. pose proof (split_sentences_nonempty text Hne) as Hss.
  pose proof (split_sentences_items text) as Hall.
  destruct (_split_sentences text) as [|s ss]; [contradiction|].
  apply Forall_inv in Hall. simpl. tauto.
Qed.

(** X1: every sentence that [_split_sentences] returns is a non-empty string
    that [strip] leaves unchanged, and white space around the text plays no
    part. *)
Theorem split_sentences_stripped (text : str) :
  Forall (fun s => truthy s = true /\ strip s = s) (_split_sentences text) /\
  _split_sentences (strip text) = _split_sentences text.
Proof.
  split; [|apply split_sentences_strip].
  eapply Forall_impl; [|apply split_sentences_items].
  intros s [Hne Htr]. split; [now apply truthy_nonempty | now apply strip_of_trimmed].
Qed.

(** X2: [_split_sentences] returns no sentence exactly when the text is empty
    or made of white space only. *)
Theorem split_sentences_empty_iff (text : str) :
  _split_sentences text = [] <-> forallb isspace text = true.
Proof.
  rewrite <- strip_nil. split.
  - intros H. destruct (str_eq_dec (strip text) []) as [|Hne]; [assumption|].
    exfalso. now apply (split_sentences_nonempty text).
  - apply split_sentences_blank.
Qed.

Lemma visible_re_split (i a : bool) (cur s : str) :
  visible (concat (re_split i a cur s)) = visible (rev cur) ++ visible s.
Proof.
  revert i a cur. induction s as [|c s IH]; intros i a cur; simpl re_split.
  - simpl. now rewrite !app_nil_r.
  - destruct (isspace c) eqn:Hc.
    + assert (Hv : visible (c :: s) = visible s) by (simpl; now rewrite Hc).
      rewrite Hv. destruct i; cbv beta iota delta [andb].
      * apply IH.
      * destruct a; cbv beta iota delta [andb].
        -- cbn [concat]. rewrite visible_app, IH. reflexivity.
        -- rewrite IH. simpl rev. rewrite visible_app. simpl. rewrite Hc. simpl.
           now rewrite app_nil_r.
    + rewrite !andb_false_r. cbv beta iota. rewrite IH. simpl rev.
      rewrite visible_app, <- app_assoc. simpl. now rewrite Hc.
Qed.

Lemma visible_nonblank (l : list str) :
  visible (concat (map strip (filter (fun s => truthy (strip s)) l)))
  = visible (concat l).
Proof.
  induction l as [|s l IH]; simpl; [reflexivity|].
  rewrite visible_app, <- IH.
  destruct (truthy (strip s)) eqn:Ht; simpl.
  - now rewrite visible_app, visible_strip.
  - rewrite <- (visible_strip s). destruct (strip s); [reflexivity | discriminate].
Qed.

(** X3: splitting a text into sentences loses and adds no character other
    than white space: the sentences, read one after the other, have the
    characters of the text that are not white space, in the same order. *)
Theorem split_sentences_keeps_characters (text : str) :
  visible (concat (_split_sentences text)) = visible text.
Proof.
  unfold _split_sentences. destruct (truthy (strip text)) eqn:Ht; simpl negb; cbv iota zeta.
  - rewrite visible_nonblank, visible_re_split. simpl. apply visible_strip.
  - rewrite <- (visible_strip text). destruct (strip text); [reflexivity | discriminate].
Qed.

(** *** Tokens *)

Lemma lower_char_idempotent (c : ascii) : lower_char (lower_char c) = lower_char c.
Proof.
  destruct c as [[|] [|] [|] [|] [|] [|] [|] [|]]; vm_compute; reflexivity.
Qed.

Lemma runs_chars (p : ascii -> bool) (P : ascii -> Prop) (cur s : str) :
  Forall P cur -> Forall P s ->
  Forall (fun t => t <> [] /\ Forall P t) (runs p cur s).
Proof.
  revert cur. induction s as [|c s IH]; intros cur Hcur Hs; simpl.
  - destruct cur as [|a cur]; simpl; [constructor|].
    constructor; [|constructor]. split.
    + intros H. apply (f_equal (@length _)) in H. rewrite length_app in H.
      simpl in H. lia.
    + apply Forall_rev in Hcur. exact Hcur.
  - apply Forall_cons_iff in Hs as [Hc Hs'].
    destruct (p c).
    + apply IH; [now constructor | assumption].
    + apply Forall_app. split; [|apply IH; [constructor | assumption]].
      destruct cur as [|a cur]; simpl; [constructor|].
      constructor; [|constructor]. split.
      * intros H. apply (f_equal (@length _)) in H. rewrite length_app in H.
        simpl in H. lia.
      * apply Forall_rev in Hcur. exact Hcur.
Qed.

Lemma runs_class (p : ascii -> bool) (cur s : str) :
  forallb p cur = true ->
  Forall (fun t => forallb p t = true) (runs p cur s).
Proof.
  revert cur. induction s as [|c s IH]; intros cur Hcur; simpl.
  - destruct cur as [|a cur]; simpl; [constructor|].
    constructor; [|constructor].
    apply forallb_forall. intros x Hx.
    change (rev cur ++ [a]) with (rev (a :: cur)) in Hx. rewrite <- in_rev in Hx.
    rewrite forallb_forall in Hcur. now apply Hcur.
  - destruct (p c) eqn:Hc.
    + apply IH. simpl. now rewrite Hc.
    + apply Forall_app. split; [|now apply IH].
      destruct cur as [|a cur]; simpl; [constructor|].
      constructor; [|constructor].
      apply forallb_forall. intros x Hx.
      change (rev cur ++ [a]) with (rev (a :: cur)) in Hx. rewrite <- in_rev in Hx.
      rewrite forallb_forall in Hcur. now apply Hcur.
Qed.

Lemma runs_concat (p : ascii -> bool) (cur s : str) :
  concat (runs p cur s) = rev cur ++ filter p s.
Proof.
  revert cur. induction s as [|c s IH]; intros cur; simpl.
  - destruct cur; simpl; [reflexivity | now rewrite !app_nil_r].
  - destruct (p c).
    + rewrite IH. simpl. now rewrite <- app_assoc.
    + rewrite concat_app, IH. simpl.
      destruct cur; simpl; [reflexivity | now rewrite app_nil_r].
Qed.

(** X4: the tokens of a text are non-empty strings of word characters in
    lower case, and together they are exactly the word characters of the
    lower-cased text, in order. *)
Theorem tokenize_tokens (text : str) :
  Forall (fun t => t <> [] /\ forallb isword t = true /\ lower t = t) (_tokenize text) /\
  concat (_tokenize text) = filter isword (lower text).
Proof.
  split; [|apply (runs_concat isword [] (lower text))].
  unfold _tokenize, word_runs.
  pose proof (runs_chars isword (fun c => lower_char c = c) [] (lower text)) as H1.
  pose proof (runs_class isword [] (lower text) eq_refl) as H2.
  assert (Hl : Forall (fun c => lower_char c = c) (lower text)).
  { unfold lower. apply Forall_map, Forall_forall. intros c _.
    apply lower_char_idempotent. }
  specialize (H1 (Forall_nil _) Hl).
  rewrite Forall_forall in *. intros t Ht.
  destruct (H1 t Ht) as [Hne Hlow]. repeat split; [assumption | now apply H2 |].
  unfold lower. clear -Hlow. induction Hlow as [|c t Hc _ IH]; simpl; congruence.
Qed.

End SentenceFacts.

(** ** Sentence scores *)

Module ScoringFacts.

Import Float FloatFacts Summarizer SummaryNotions SummarizerFacts.

Lemma Ok_inj {A : Type} (a b : A) : Ok a = Ok b -> a = b.
Proof. congruence. Qed.

(** *** The size of a rounded number *)

Lemma Zdigits2_mono (a b : Z) : 0 < a -> a <= b -> Zdigits2 a <= Zdigits2 b.
Proof.
  intros Ha Hab. rewrite !Zdigits2_log2 by lia.
  pose proof (Z.log2_le_mono a b Hab). lia.
Qed.

Lemma Zdigits2_succ (a b : Z) : 0 < a -> 0 <= b <= a + 1 -> Zdigits2 b <= Zdigits2 a + 1.
Proof.
  intros Ha Hb. pose proof (Zdigits2_bounds a Ha) as Hd.
  pose proof (Zdigits2_nonneg a ltac:(lia)).
  apply Zdigits2_le_of_lt_pow; try lia.
  rewrite pow2_split by lia. change (2 ^ 1) with 2. lia.
Qed.

(** In the normal range a rounding step keeps the size [digits + exponent] of
    the truncated number. *)
Lemma rstep_magnitude (m e : Z) (l : location) :
  0 < m -> -1021 <= Zdigits2 m + e ->
  exists t r e',
    rstep m e l = (t, r, e') /\ 1 <= t /\ t <= r <= t + 1 /\
    Zdigits2 t + e' = Zdigits2 m + e.
Proof.
  intros Hm Hn.
  destruct (rstep_spec m e l) as (t & r & e' & Heq & Hr & Hc); [lia|].
  exists t, r, e'. split; [assumption|].
  pose proof (Zdigits2_bounds m Hm) as Hb.
  rewrite shift_of_eq in Hc.
  destruct Hc as [(Hs & -> & -> & _) | (Hs & -> & -> & _)].
  - repeat split; lia.
  - replace (Z.max (Zdigits2 m + e - 53) (-1074) - e) with (Zdigits2 m - 53) in * by lia.
    set (n := Zdigits2 m - 53) in *.
    assert (HP : 0 < 2 ^ n) by (apply pow2_pos; lia).
    assert (Ht : 2 ^ 52 <= m / 2 ^ n).
    { apply Z.div_le_lower_bound; [lia|].
      rewrite <- pow2_split by lia.
      replace (n + 52) with (Zdigits2 m - 1) by lia. lia. }
    assert (Ht' : m / 2 ^ n < 2 ^ 53).
    { apply Z.div_lt_upper_bound; [lia|].
      rewrite <- pow2_split by lia.
      replace (n + 53) with (Zdigits2 m) by lia. lia. }
    assert (52 < Zdigits2 (m / 2 ^ n)) by (apply Zdigits2_gt_of_pow_le; lia).
    assert (Zdigits2 (m / 2 ^ n) <= 53) by (apply Zdigits2_le_of_lt_pow; lia).
    assert (0 < 2 ^ 52) by (apply pow2_pos; lia).
    repeat split; lia.
Qed.

Lemma bra_magnitude (s s' : bool) (mx ex : Z) (lx : location) (m : positive) (e : Z) :
  0 < mx -> -1021 <= Zdigits2 mx + ex ->
  binary_round_aux prec emax s mx ex lx = S754_finite s' m e ->
  Zdigits2 mx + ex <= Zdigits2 (Z.pos m) + e <= Zdigits2 mx + ex + 1 /\ e <= 971.
Proof.
  intros Hm Hn H. rewrite binary_round_aux_rstep in H.
  destruct (rstep_magnitude mx ex lx Hm Hn) as (t1 & r1 & e1 & Heq1 & Ht1 & Hr1 & Hd1).
  rewrite Heq1 in H.
  pose proof (Zdigits2_mono t1 r1 ltac:(lia) ltac:(lia)) as Hlo.
  pose proof (Zdigits2_succ t1 r1 ltac:(lia) ltac:(lia)) as Hhi.
  destruct (rstep_magnitude r1 e1 loc_Exact) as (t2 & r2 & e2 & Heq2 & Ht2 & Hr2 & Hd2);
    [lia | lia |].
  rewrite Heq2 in H.
  destruct t2 as [|p|p]; try lia.
  destruct (Z.leb_spec e2 (emax - prec)) as [Hle|Hgt]; [|discriminate].
  injection H as _ <- <-. unfold emax, prec in Hle. lia.
Qed.

Lemma of_Z_magnitude (n : Z) (s : bool) (m : positive) (e : Z) :
  0 < n -> of_Z n = S754_finite s m e ->
  Zdigits2 n <= Zdigits2 (Z.pos m) + e <= Zdigits2 n + 1 /\ e <= 971.
Proof.
  destruct n as [|p|p]; try lia. intros _.
  unfold of_Z, binary_normalize, binary_round.
  destruct (shl_align_spec p 0 (fexp prec emax (Z.pos (digits2_pos p) + 0)))
    as (mz & ez & -> & Hez & Hmz).
  change (Z.pos (digits2_pos p)) with (Zdigits2 (Z.pos p)) in *.
  assert (Hd : 1 <= Zdigits2 (Z.pos p)) by (simpl; lia).
  assert (Hdz : Zdigits2 (Z.pos mz) + ez = Zdigits2 (Z.pos p)).
  { rewrite Hmz, Zdigits2_mul_pow2; lia. }
  intros H. apply bra_magnitude in H; lia.
Qed.

(** *** Square roots and quotients that are not rounded to zero *)

Lemma sqrt_finite (m : positive) (e : Z) :
  -1074 <= e -> Zdigits2 (Z.pos m) + e <= 1024 ->
  exists m' e',
    SFsqrt prec emax (S754_finite false m e) = S754_finite false m' e' /\
    Zdigits2 (Z.pos m') + e' <= 514.
Proof.
  intros He Hmag.
  pose proof (sqrt_positive m e He) as Hpos.
  unfold SFsqrt, SFsqrt_core_binary in *.
  set (d := Zdigits2 (Z.pos m)) in *.
  set (e' := Z.min (fexp prec emax (Z.div2 (d + e + 1))) (Z.div2 e)) in *.
  set (s := e - 2 * e') in *.
  set (m' := match s with Z.pos _ => Z.shiftl (Z.pos m) s | 0 => Z.pos m | Z.neg _ => 0 end) in *.
  assert (Hd : 1 <= d) by (unfold d; simpl; lia).
  assert (He' : -600 <= e' /\ 2 * e' <= e /\ e' <= 460).
  { unfold e', fexp, SpecFloat.emin, prec, emax. rewrite !Z.div2_div.
    pose proof (Z.mul_div_le e 2). pose proof (Z.mul_div_le (d + e + 1) 2).
    pose proof (Z.mul_succ_div_gt e 2). pose proof (Z.mul_succ_div_gt (d + e + 1) 2).
    lia. }
  assert (Hm' : m' = Z.pos m * 2 ^ s).
  { unfold m'. destruct s as [|p|p] eqn:Hs; try lia.
    rewrite Z.shiftl_mul_pow2 by lia. reflexivity. }
  assert (Hs : 0 <= s) by (unfold s; lia).
  assert (HP : 0 < 2 ^ s) by (apply pow2_pos; lia).
  assert (Hdm' : Zdigits2 m' = d + s).
  { rewrite Hm'. apply Zdigits2_mul_pow2; lia. }
  assert (Hm'pos : 0 < m') by nia.
  pose proof (Zdigits2_bounds m' Hm'pos) as Hbm'.
  pose proof (Z.sqrtrem_spec m') as Hsq.
  destruct (Z.sqrtrem m') as [q r].
  specialize (Hsq ltac:(lia)).
  assert (Hq : 1 <= q) by nia.
  pose proof (Zdigits2_bounds q ltac:(lia)) as Hbq.
  assert (Hdq1 : 1 <= Zdigits2 q).
  { rewrite Zdigits2_log2 by lia. pose proof (Z.log2_nonneg q). lia. }
  assert (Hdq : 2 * Zdigits2 q <= d + s + 1).
  { destruct (Z_le_gt_dec (2 * Zdigits2 q) (d + s + 1)) as [H|H]; [assumption|].
    exfalso.
    assert (Hpp : 2 ^ (d + s) <= 2 ^ (Zdigits2 q - 1) * 2 ^ (Zdigits2 q - 1)).
    { rewrite <- pow2_split by lia. apply pow2_mono. lia. }
    assert (0 < 2 ^ (Zdigits2 q - 1)) by (apply pow2_pos; lia).
    rewrite Hdm' in Hbm'. nia. }
  set (l := if r =? 0 then loc_Exact else loc_Inexact (if r <=? q then Lt else Gt)) in *.
  destruct (binary_round_aux prec emax false q e' l) as [sz|sz| |sz mz ez] eqn:Hz;
    try discriminate.
  - exfalso. destruct sz; [discriminate|].
    apply (bra_no_overflow false q e' l); try lia. exact Hz.
  - destruct sz; [discriminate|].
    exists mz, ez. split; [reflexivity|].
    apply bra_magnitude in Hz; lia.
Qed.

Lemma div_positive (mx my : positive) (ex ey : Z) :
  -1021 <= Zdigits2 (Z.pos mx) + ex - (Zdigits2 (Z.pos my) + ey) ->
  positive_float (SFdiv prec emax (S754_finite false mx ex) (S754_finite false my ey)) = true.
Proof.
  intros Hk. unfold SFdiv, SFdiv_core_binary.
  change (xorb false false) with false.
  set (d1 := Zdigits2 (Z.pos mx)) in *. set (d2 := Zdigits2 (Z.pos my)) in *.
  set (e' := Z.min (fexp prec emax (d1 + ex - (d2 + ey))) (ex - ey)).
  set (s := ex - ey - e').
  set (m' := match s with Z.pos _ => Z.shiftl (Z.pos mx) s | 0 => Z.pos mx | Z.neg _ => 0 end).
  assert (Hd1 : 1 <= d1) by (unfold d1; simpl; lia).
  assert (Hd2 : 1 <= d2) by (unfold d2; simpl; lia).
  assert (He' : e' <= d1 + ex - (d2 + ey) - 53 /\ e' <= ex - ey).
  { unfold e', fexp, SpecFloat.emin, prec, emax. lia. }
  assert (Hs : 0 <= s /\ 53 + d2 - d1 <= s) by (unfold s; lia).
  assert (HP : 0 < 2 ^ s) by (apply pow2_pos; lia).
  assert (Hm' : m' = Z.pos mx * 2 ^ s).
  { unfold m'. destruct s as [|p|p] eqn:Es; try lia.
    rewrite Z.shiftl_mul_pow2 by lia. reflexivity. }
  assert (Hdm' : Zdigits2 m' = d1 + s).
  { rewrite Hm'. apply Zdigits2_mul_pow2; lia. }
  assert (Hm'pos : 0 < m') by nia.
  pose proof (Zdigits2_bounds m' Hm'pos) as Hbm'. rewrite Hdm' in Hbm'.
  pose proof (Zdigits2_bounds (Z.pos my) ltac:(lia)) as Hbmy. fold d2 in Hbmy.
  destruct (Z.div_eucl m' (Z.pos my)) as [q r] eqn:Hdiv.
  assert (Hqd : q = m' / Z.pos my) by (unfold Z.div; now rewrite Hdiv).
  assert (Hq : 2 ^ (d1 + s - 1 - d2) <= q).
  { rewrite Hqd. apply Z.div_le_lower_bound; [lia|].
    assert (0 < 2 ^ (d1 + s - 1 - d2)) by (apply pow2_pos; lia).
    assert (2 ^ (d1 + s - 1) = 2 ^ d2 * 2 ^ (d1 + s - 1 - d2)).
    { rewrite <- pow2_split by lia. f_equal. lia. }
    nia. }
  assert (0 < 2 ^ (d1 + s - 1 - d2)) by (apply pow2_pos; lia).
  assert (Hdq : d1 + s - 1 - d2 < Zdigits2 q) by (apply Zdigits2_gt_of_pow_le; lia).
  destruct (bra_normal false q e' (new_location (Z.pos my) r))
    as [-> | (mr & er & -> & _)]; try reflexivity; unfold s in *; lia.
Qed.

(** *** The overlap of a sentence with the query *)

Lemma sumZ_indicator_in (x : str) (D : list str) :
  NoDup D ->
  sumZ (fun t => if str_eq_dec x t then 1 else 0) D
  = if in_dec str_eq_dec x D then 1 else 0.
Proof.
  unfold sumZ. induction 1 as [|t D Hnin Hnd IH]; [reflexivity|].
  cbn [map fold_right]. rewrite IH.
  destruct (str_eq_dec x t) as [Heq|Hne].
  - subst t.
    destruct (in_dec str_eq_dec x D) as [Hin|_]; [contradiction|].
    destruct (in_dec str_eq_dec x (x :: D)) as [_|Hn]; [reflexivity|].
    exfalso. apply Hn. now left.
  - destruct (in_dec str_eq_dec x D) as [Hin|Hnin'];
      destruct (in_dec str_eq_dec x (t :: D)) as [Hin2|Hnin2]; try reflexivity.
    + exfalso. apply Hnin2. now right.
    + exfalso. destruct Hin2 as [E|E]; [now apply Hne | contradiction].
Qed.

Lemma sumZ_count_filter (tokens D : list str) :
  NoDup D ->
  sumZ (fun t => Z.of_nat (count_occ str_eq_dec tokens t)) D
  = Z.of_nat (length (filter (is_query_token D) tokens)).
Proof.
  intros Hnd. induction tokens as [|x tokens IH].
  - unfold sumZ. simpl. clear Hnd. induction D; simpl; [reflexivity | assumption].
  - assert (Heq : sumZ (fun t => Z.of_nat (count_occ str_eq_dec (x :: tokens) t)) D
                  = sumZ (fun t => Z.of_nat (count_occ str_eq_dec tokens t)) D
                    + sumZ (fun t => if str_eq_dec x t then 1 else 0) D).
    { unfold sumZ. clear. induction D as [|t D IHD]; [reflexivity|].
      cbn [fold_right map]. rewrite IHD. cbn [count_occ].
      destruct (str_eq_dec x t); lia. }
    rewrite Heq, IH, (sumZ_indicator_in x D Hnd). cbn [filter].
    unfold is_query_token at 2.
    destruct (in_dec str_eq_dec x D); cbn [length]; lia.
Qed.

Lemma sumZ_skip_absent (tokens D : list str) :
  sumZ (fun t => Z.of_nat (count_occ str_eq_dec tokens t))
       (filter (fun t => if in_dec str_eq_dec t tokens then true else false) D)
  = sumZ (fun t => Z.of_nat (count_occ str_eq_dec tokens t)) D.
Proof.
  unfold sumZ. induction D as [|t D IH]; simpl; [reflexivity|].
  destruct (in_dec str_eq_dec t tokens) as [Hin|Hnin]; simpl; rewrite IH; [reflexivity|].
  apply (count_occ_not_In str_eq_dec) in Hnin. rewrite Hnin. reflexivity.
Qed.

Lemma is_query_token_nodup (q : list str) (t : str) :
  is_query_token (nodup str_eq_dec q) t = is_query_token q t.
Proof.
  unfold is_query_token.
  destruct (in_dec str_eq_dec t (nodup str_eq_dec q)) as [H|H];
    destruct (in_dec str_eq_dec t q) as [H'|H']; try reflexivity.
  - exfalso. apply H'. now apply nodup_In in H.
  - exfalso. apply H. now apply nodup_In.
Qed.

(** The overlap counts the tokens of the sentence, with their repetitions, that
    are tokens of the query. *)
Lemma overlap_counts_query_tokens (tokens query_tokens : list str) :
  overlap tokens query_tokens
  = Z.of_nat (length (filter (is_query_token query_tokens) tokens)).
Proof.
  unfold overlap.
  change (fold_right Z.add 0 (map ?f ?l)) with (sumZ f l).
  rewrite sumZ_skip_absent, sumZ_count_filter by apply NoDup_nodup.
  f_equal. f_equal. apply filter_ext. apply is_query_token_nodup.
Qed.

Lemma is_query_token_ext (q1 q2 : list str) :
  (forall t, In t q1 <-> In t q2) ->
  forall t, is_query_token q1 t = is_query_token q2 t.
Proof.
  intros H t. unfold is_query_token.
  destruct (in_dec str_eq_dec t q1) as [H1|H1];
    destruct (in_dec str_eq_dec t q2) as [H2|H2]; try reflexivity.
  - exfalso. now apply H2, H.
  - exfalso. now apply H1, H.
Qed.

Lemma overlap_ext (tokens q1 q2 : list str) :
  (forall t, In t q1 <-> In t q2) -> overlap tokens q1 = overlap tokens q2.
Proof.
  intros H. rewrite !overlap_counts_query_tokens.
  f_equal. f_equal. apply filter_ext. now apply is_query_token_ext.
Qed.

Lemma mapM_ext {A B : Type} (f g : A -> result B) (l : list A) :
  (forall a, f a = g a) -> mapM f l = mapM g l.
Proof.
  intros H. induction l as [|a l IH]; [reflexivity|].
  cbn [mapM]. rewrite H, IH. reflexivity.
Qed.

Lemma score_sentences_ext (sentences q1 q2 : list str) :
  (forall t, In t q1 <-> In t q2) ->
  _score_sentences sentences q1 = _score_sentences sentences q2.
Proof.
  intros H. unfold _score_sentences. apply mapM_ext. intros [idx s].
  unfold score_sentence. cbn [fst snd].
  now rewrite (overlap_ext (_tokenize s) q1 q2 H).
Qed.

Lemma filter_nil_existsb {A : Type} (f : A -> bool) (l : list A) :
  existsb f l = false <-> filter f l = [].
Proof.
  induction l as [|a l IH]; simpl; [tauto|].
  destruct (f a); simpl; [split; discriminate | exact IH].
Qed.

Lemma overlap_zero (tokens query_tokens : list str) :
  overlap tokens query_tokens = 0 <->
  existsb (is_query_token query_tokens) tokens = false.
Proof.
  rewrite overlap_counts_query_tokens, filter_nil_existsb.
  destruct (filter _ tokens); simpl; split; intros H; try reflexivity; try discriminate; lia.
Qed.

(** *** The score of a sentence *)

Lemma is_zero_leb (x : float) : positive_float x = true -> leb x zero = false.
Proof. destruct x as [s|[|]| |[|] m e]; try discriminate; reflexivity. Qed.

(** A sentence with a token of the query has a positive score. *)
Lemma score_value_positive (ov n : Z) (x nf root sc : float) :
  1 <= ov -> 1 <= n ->
  of_int n = Ok nf -> sqrt nf = Ok root -> of_int ov = Ok x ->
  truediv x root = Ok sc ->
  positive_float sc = true.
Proof.
  intros Hov Hn Hnf Hroot Hx Hsc.
  destruct (of_int_pos_inv n nf ltac:(lia) Hnf) as (mn & en & -> & Hmn & Hen).
  pose proof (of_int_eq _ _ Hnf) as Hnz. symmetry in Hnz.
  apply of_Z_magnitude in Hnz; [|lia].
  destruct (of_int_pos_inv ov x ltac:(lia) Hx) as (mo & eo & -> & Hmo & Heo).
  pose proof (of_int_eq _ _ Hx) as Hxz. symmetry in Hxz.
  apply of_Z_magnitude in Hxz; [|lia].
  assert (Hdov : 1 <= Zdigits2 ov).
  { rewrite Zdigits2_log2 by lia. pose proof (Z.log2_nonneg ov). lia. }
  assert (Hdn : Zdigits2 (Z.pos mn) <= 53) by (apply Zdigits2_le_of_lt_pow; lia).
  destruct (sqrt_finite mn en Hen ltac:(lia)) as (mr & er & Hsq & Hmag).
  unfold sqrt in Hroot. rewrite Hsq in Hroot. apply Ok_inj in Hroot. subst root.
  unfold truediv in Hsc. cbn [is_zero] in Hsc. apply Ok_inj in Hsc. subst sc.
  apply div_positive. lia.
Qed.

(** The score of a sentence is positive exactly when one of its tokens is a
    token of the query. *)
Lemma score_sentence_sign (q : list str) (idx : nat) (s : str) (p : nat * float) :
  score_sentence q idx s = Ok p ->
  leb (snd p) zero = negb (shares_token q s).
Proof.
  unfold score_sentence, shares_token. destruct (_tokenize s) as [|t ts] eqn:Ht.
  - intros H. apply Ok_inj in H. subst p. reflexivity.
  - set (tokens := t :: ts). set (n := Z.of_nat (length tokens)).
    assert (Hn : 0 < n) by (unfold n, tokens; simpl length; lia).
    destruct (of_int n) as [nf|e] eqn:Hnf; [|discriminate]. cbn [bind].
    destruct (sqrt_of_int n nf Hn Hnf) as (root & Hsq & Hroot). rewrite Hsq. cbn [bind].
    destruct (of_int (overlap tokens q)) as [ovf|e] eqn:Hov; [|discriminate]. cbn [bind].
    destruct (truediv ovf root) as [sc|e] eqn:Hsc; [|discriminate]. cbn [bind].
    intros H. apply Ok_inj in H. subst p. cbn [snd].
    pose proof (overlap_bounds tokens q) as Hb.
    destruct (Z.eq_dec (overlap tokens q) 0) as [Hz|Hnz].
    + rewrite (proj1 (overlap_zero tokens q) Hz). cbn [negb].
      rewrite Hz in Hov. apply Ok_inj in Hov. subst ovf.
      unfold truediv in Hsc. rewrite (positive_not_zero root Hroot) in Hsc.
      apply Ok_inj in Hsc. subst sc.
      change (S754_zero false) with zero. now rewrite div_zero_positive.
    + destruct (existsb (is_query_token q) tokens) eqn:Hex.
      * cbn [negb]. apply is_zero_leb.
        apply (score_value_positive (overlap tokens q) n ovf nf root sc);
          try assumption; lia.
      * exfalso. apply Hnz. now apply overlap_zero.
Qed.

Lemma score_sentences_signs_from (q : list str) (k : nat) (ss : list str)
  (scores : list (nat * float)) :
  mapM (fun p => score_sentence q (fst p) (snd p)) (enumerate k ss) = Ok scores ->
  Forall2 (fun p s => nonneg (snd p) = true /\
                      leb (snd p) zero = negb (shares_token q s)) scores ss.
Proof.
  revert k scores. induction ss as [|s ss IH]; intros k scores H.
  - apply Ok_inj in H. subst scores. constructor.
  - cbn [enumerate mapM] in H. cbn [fst snd] in H.
    destruct (score_sentence q k s) as [p|e] eqn:Hp; [|discriminate]. cbn [bind] in H.
    destruct (mapM _ (enumerate (S k) ss)) as [ps|e] eqn:Hps; [|discriminate].
    cbn [bind] in H. apply Ok_inj in H. subst scores.
    constructor; [|exact (IH _ _ Hps)]. split.
    + now destruct (score_sentence_inv _ _ _ _ Hp) as (_ & Hnn & _).
    + exact (score_sentence_sign _ _ _ _ Hp).
Qed.

Lemma score_sentences_signs (ss q : list str) (scores : list (nat * float)) :
  _score_sentences ss q = Ok scores ->
  Forall2 (fun p s => nonneg (snd p) = true /\
                      leb (snd p) zero = negb (shares_token q s)) scores ss.
Proof. apply score_sentences_signs_from. Qed.

(** No score is positive exactly when no sentence has a token of the query. *)
Lemma score_sentences_sign (ss q : list str) (scores : list (nat * float)) :
  _score_sentences ss q = Ok scores ->
  forallb (fun p => leb (snd p) zero) scores = negb (existsb (shares_token q) ss).
Proof.
  intros H. apply score_sentences_signs in H.
  induction H as [|p s scores ss [_ Hp] _ IH]; [reflexivity|].
  cbn [forallb existsb]. rewrite IH, Hp. now rewrite negb_orb.
Qed.

Lemma scores_length (sentences query_tokens : list str) (scores : list (nat * float)) :
  _score_sentences sentences query_tokens = Ok scores ->
  length scores = length sentences.
Proof.
  intros Hsc. destruct (score_sentences_inv _ _ _ Hsc) as (H & _).
  apply (f_equal (@length _)) in H. now rewrite length_map, length_seq in H.
Qed.

(** X6: on sentences of a length a Python string can have, [_score_sentences]
    raises nothing and returns one pair for each sentence, in order: its
    index, and a score that is not negative and is positive exactly when the
    sentence has a token of the query. *)
Theorem score_sentences_scores (sentences query_tokens : list str) :
  Forall (fun s => Z.of_nat (length s) <= sys_maxsize) sentences ->
  exists scores,
    _score_sentences sentences query_tokens = Ok scores /\
    map fst scores = seq 0 (length sentences) /\
    Forall2 (fun p s => nonneg (snd p) = true /\
                        leb (snd p) zero = negb (shares_token query_tokens s))
      scores sentences.
Proof.
  intros Hlen.
  destruct (score_sentences_ok sentences query_tokens) as (scores & Hsc).
  { eapply Forall_impl; [|exact Hlen]. simpl. intros s Hs.
    pose proof sys_maxsize_lt. lia. }
  exists scores. split; [assumption|].
  destruct (score_sentences_inv _ _ _ Hsc) as (H1 & _). split; [assumption|].
  now apply score_sentences_signs.
Qed.

Lemma score_sentences_scores_witness :
  exists scores,
    _score_sentences [lit "Cats purr."; lit "Dogs bark."] [lit "cats"] = Ok scores /\
    map fst scores = seq 0 2 /\
    Forall2 (fun p s => nonneg (snd p) = true /\
                        leb (snd p) zero = negb (shares_token [lit "cats"] s))
      scores [lit "Cats purr."; lit "Dogs bark."].
Proof.
  apply (score_sentences_scores [lit "Cats purr."; lit "Dogs bark."] [lit "cats"]).
  repeat constructor; vm_compute; discriminate.
Defined.

(** *** The largest score *)

Lemma ltb_positive (x y : float) :
  positive_float x = true -> ltb x y = true -> positive_float y = true.
Proof.
  destruct x as [sx|[|]| |[|] mx ex]; try discriminate; intros _;
    destruct y as [sy|[|]| |[|] my ey]; try reflexivity; cbn; discriminate.
Qed.

Lemma max_positive_from (x : float) (l : list float) :
  positive_float x = true -> positive_float (Float.max x l) = true.
Proof.
  revert x. induction l as [|y l IH]; intros x Hx; [assumption|].
  unfold Float.max. cbn [fold_left]. apply IH.
  destruct (ltb x y) eqn:Hlt; [now apply (ltb_positive x y) | assumption].
Qed.

Lemma ltb_zero_positive (x y : float) :
  nonneg x = true -> positive_float x = false -> positive_float y = true ->
  ltb x y = true.
Proof.
  intros Hx Hnp Hy.
  destruct (nonneg_cases x Hx) as [(s & ->) | [-> | (m & e & ->)]]; try discriminate.
  destruct y as [sy|[|]| |[|] my ey]; try discriminate; reflexivity.
Qed.

Lemma max_positive (x : float) (l : list float) :
  Forall (fun y => nonneg y = true) (x :: l) ->
  forallb (fun y => leb y zero) (x :: l) = false ->
  leb (Float.max x l) zero = false.
Proof.
  revert x. induction l as [|y l IH]; intros x Hall Hex.
  - cbn [forallb] in Hex. rewrite andb_true_r in Hex. exact Hex.
  - apply Forall_cons_iff in Hall as [Hx Hall].
    unfold Float.max. cbn [fold_left].
    change (fold_left _ l ?a) with (Float.max a l).
    destruct (leb x zero) eqn:Hxz.
    + cbn [forallb] in Hex. rewrite Hxz in Hex. cbn [andb] in Hex.
      apply IH.
      * apply Forall_cons_iff in Hall as [Hy Hall].
        constructor; [|assumption]. destruct (ltb x y); assumption.
      * destruct (leb y zero) eqn:Hyz.
        -- cbn [forallb] in *. cbn [andb] in Hex.
           destruct (ltb x y); [now rewrite Hyz | now rewrite Hxz].
        -- assert (Hlt : ltb x y = true).
           { apply Forall_inv in Hall. apply ltb_zero_positive; try assumption.
             - destruct x as [sx|[|]| |[|] mx ex]; try reflexivity; discriminate.
             - now apply nonneg_positive. }
           rewrite Hlt. cbn [forallb]. now rewrite Hyz.
    + apply is_zero_leb, max_positive_from.
      pose proof (nonneg_positive x Hx Hxz) as Hp.
      destruct (ltb x y) eqn:Hlt; [now apply (ltb_positive x y) | assumption].
Qed.

(** The overall score when some score is positive. *)
Lemma compute_overall_score_matched (scores : list (nat * float)) (r : Z) :
  Forall (fun p => nonneg (snd p) = true) scores ->
  forallb (fun p => leb (snd p) zero) scores = false ->
  _compute_overall_score scores = Ok r -> 50 <= r <= 100.
Proof.
  intros Hall Hex Hr. apply (forall_snd (fun x => nonneg x = true)) in Hall.
  assert (Hex' : forallb (fun y => leb y zero) (map snd scores) = false).
  { rewrite <- Hex. clear. induction scores as [|p l IH]; [reflexivity|].
    cbn [map forallb]. now rewrite IH. }
  destruct (map snd scores) as [|s0 rest] eqn:Hraw; [discriminate|].
  pose proof (max_positive s0 rest Hall Hex') as Hmx.
  destruct (of_int (Z.of_nat (length (s0 :: rest)))) as [lenf|e] eqn:Hlen.
  - rewrite (compute_overall_score_eq scores s0 rest lenf Hraw Hall Hmx Hlen) in Hr.
    apply Ok_inj in Hr. subst r.
    destruct (scaled_between s0 rest lenf Hall Hmx Hlen) as (_ & _ & Hb).
    apply (floor_between 50 100); [lia | lia | exact Hb].
  - unfold _compute_overall_score in Hr. rewrite Hraw in Hr. cbv zeta in Hr.
    rewrite Hmx, Hlen in Hr. discriminate.
Qed.

End ScoringFacts.

(** ** Summaries *)

Module SummaryFacts.

Import Float FloatFacts Summarizer SummaryNotions SummarizerFacts.
Import SentenceFacts ScoringFacts.

(** *** What [summarize] returns *)

Lemma or_else_nonempty (a b : str) : a <> [] -> or_else a b = a.
Proof. destruct a; [contradiction | reflexivity]. Qed.

Lemma or_else_default_nonempty (a b : str) : b <> [] -> or_else a b <> [].
Proof. destruct a; simpl; [auto | discriminate]. Qed.

Lemma title_or_nonempty (mt : option str) (fallback : str) :
  fallback <> [] -> title_or mt fallback <> [].
Proof.
  intros H. destruct mt as [t|]; simpl; [|assumption].
  now apply or_else_default_nonempty.
Qed.

Lemma firstn_nonempty {A : Type} (n : nat) (l : list A) :
  (0 < n)%nat -> l <> [] -> firstn n l <> [].
Proof. destruct n; [lia|]. destruct l; [contradiction | discriminate]. Qed.

(** What [summarize] returns on a text that is not blank. *)
Lemma summarize_inv (text query : str) (mt : option str) (N : Z) (r : SummaryResult) :
  strip text <> [] ->
  summarize text query mt N = Ok r ->
  let sentences := _split_sentences text in
  exists scores overall,
    _score_sentences sentences (_tokenize query) = Ok scores /\
    _compute_overall_score (sort_desc scores) = Ok overall /\
    r = {| title := title_or mt (firstn 120 (hd [] sentences));
           summary := join newline
                        (map (fun i => bullet_text (nth i sentences []))
                           (selected_indices sentences (sort_desc scores) N));
           score := overall |}.
Proof.
  intros Hne Hr. cbv zeta. rewrite <- (split_sentences_strip text).
  destruct (_score_sentences (_split_sentences (strip text)) (_tokenize query))
    as [scores|e] eqn:Hsc.
  - rewrite (summarize_scored text query mt N scores Hne Hsc) in Hr.
    destruct (_compute_overall_score (sort_desc scores)) as [z|e] eqn:Hz;
      [|discriminate].
    rewrite or_else_nonempty in Hr.
    2:{ apply firstn_nonempty; [lia|].
        rewrite split_sentences_strip. now apply first_sentence_nonempty. }
    exists scores, z. split; [reflexivity|]. split; [exact Hz|].
    change (bind (Ok z) ?k) with (k z) in Hr. cbv beta in Hr.
    congruence.
  - exfalso. unfold summarize in Hr.
    destruct (truthy (strip text)) eqn:Ht;
      [|destruct (strip text); [contradiction | discriminate]].
    cbn [negb] in Hr.
    pose proof (split_sentences_nonempty (strip text)) as Hss.
    rewrite strip_idempotent in Hss. specialize (Hss Hne).
    destruct (_split_sentences (strip text)); [contradiction|].
    rewrite Hsc in Hr. discriminate.
Qed.

(** The title of a result: the metadata title, or else a fallback that
    depends on whether the text is blank. *)
Lemma summarize_title_or (text query : str) (mt : option str) (N : Z)
  (r : SummaryResult) :
  summarize text query mt N = Ok r ->
  title r = title_or mt
              (if truthy (strip text)
               then firstn 120 (hd [] (_split_sentences text))
               else or_else query (lit "Untitled")).
Proof.
  intros Hr. destruct (str_eq_dec (strip text) []) as [Hs|Hne].
  - rewrite (summarize_blank_text text query mt N Hs) in Hr.
    apply Ok_inj in Hr. subst r. rewrite Hs. reflexivity.
  - destruct (summarize_inv text query mt N r Hne Hr) as (scores & z & _ & _ & ->).
    cbn [title]. destruct (strip text); [contradiction | reflexivity].
Qed.

Lemma title_fallback_nonempty (text query : str) :
  (if truthy (strip text)
   then firstn 120 (hd [] (_split_sentences text))
   else or_else query (lit "Untitled")) <> [].
Proof.
  destruct (str_eq_dec (strip text) []) as [Hs|Hne].
  - rewrite Hs. cbn [truthy]. apply or_else_default_nonempty. discriminate.
  - destruct (strip text) eqn:E; [contradiction|]. cbn [truthy].
    apply firstn_nonempty; [lia|]. apply first_sentence_nonempty.
    rewrite E. discriminate.
Qed.

(** On a text of a length a Python string can have, [summarize] raises
    nothing. *)
Lemma summarize_returns (text query : str) (mt : option str) (N : Z) :
  Z.of_nat (length text) <= sys_maxsize ->
  exists r, summarize text query mt N = Ok r.
Proof.
  intros Hlen. destruct (str_eq_dec (strip text) []) as [Hs|Hne].
  - rewrite (summarize_blank_text text query mt N Hs). eauto.
  - destruct (sentences_bound text Hlen) as (Hcount & Hss).
    destruct (score_sentences_ok _ (_tokenize query) Hss) as (scores & Hsc).
    destruct (score_sentences_inv _ _ _ Hsc) as (Hidx & Hnn & _).
    rewrite (summarize_scored text query mt N scores Hne Hsc).
    pose proof (sorted_nonneg scores Hnn) as Hsnn.
    destruct (compute_overall_score_ok (sort_desc scores) Hsnn) as (r & Hr).
    { rewrite sort_desc_length.
      apply (f_equal (@length _)) in Hidx. rewrite length_map, length_seq in Hidx.
      unfold str in *. lia. }
    rewrite Hr. cbn [bind]. eauto.
Qed.

(** X7: the title of a result is never empty.  It is the metadata title when
    there is a non-empty one; otherwise the first 120 characters of the first
    sentence when the text is not blank, and the query, or "Untitled" for an
    empty query, when the text is blank. *)
Theorem summarize_title (text query : str) (mt : option str) (N : Z)
  (r : SummaryResult) :
  summarize text query mt N = Ok r ->
  title r <> [] /\
  (forall t, mt = Some t -> t <> [] -> title r = t) /\
  (mt = None \/ mt = Some [] ->
   title r = if truthy (strip text)
             then firstn 120 (hd [] (_split_sentences text))
             else or_else query (lit "Untitled")).
Proof.
  intros Hr. rewrite (summarize_title_or text query mt N r Hr).
  pose proof (title_fallback_nonempty text query) as Hfb.
  split; [|split].
  - now apply title_or_nonempty.
  - intros t -> Hne. simpl. now apply or_else_nonempty.
  - intros [-> | ->]; reflexivity.
Qed.

Lemma summarize_title_witness :
  exists r, summarize example_text example_query None 2 = Ok r /\
            title r = lit "Cats purr.".
Proof.
  destruct (summarize example_text example_query None 2) as [r|e] eqn:Hr.
  - exists r. split; [reflexivity|].
    destruct (summarize_title example_text example_query None 2 r Hr) as (_ & _ & H).
    rewrite (H (or_introl eq_refl)). vm_compute. reflexivity.
  - vm_compute in Hr. discriminate.
Defined.

(** *** The query *)

(** X5: on a text that is not blank, [summarize] depends on the query only
    through the set of its tokens: letter case, punctuation, order and
    repetition of the words of the query change nothing in the result. *)
Theorem summarize_query_token_set (text q1 q2 : str) (mt : option str) (N : Z) :
  strip text <> [] ->
  (forall t, In t (_tokenize q1) <-> In t (_tokenize q2)) ->
  summarize text q1 mt N = summarize text q2 mt N.
Proof.
  intros Hne Hq. unfold summarize.
  destruct (truthy (strip text)) eqn:Ht;
    [|destruct (strip text); [contradiction | discriminate]].
  cbn [negb].
  pose proof (first_sentence_nonempty (strip text)) as Hfirst.
  rewrite strip_idempotent in Hfirst. specialize (Hfirst Hne).
  destruct (_split_sentences (strip text)) as [|first rest] eqn:Hs.
  - exfalso. now apply Hfirst.
  - rewrite (score_sentences_ext (first :: rest) _ _ Hq).
    cbn [hd] in Hfirst.
    rewrite !(or_else_nonempty (firstn 120 first))
      by (apply firstn_nonempty; [lia | assumption]).
    reflexivity.
Qed.

Lemma summarize_query_token_set_witness :
  summarize example_text (lit "cats dogs") None 2
  = summarize example_text (lit "DOGS, dogs; Cats?!") None 2.
Proof.
  apply summarize_query_token_set.
  - vm_compute. discriminate.
  - intros t. vm_compute. tauto.
Defined.

(** *** The score *)

(** X8: the score of a result tells how the text met the query: it is 0, with
    an empty summary, for a blank text; 40 when no sentence has a token of the
    query; and between 50 and 100 when some sentence has one. *)
Theorem summarize_score_cases (text query : str) (mt : option str) (N : Z)
  (r : SummaryResult) :
  summarize text query mt N = Ok r ->
  if negb (truthy (strip text)) then score r = 0 /\ summary r = []
  else if existsb (shares_token (_tokenize query)) (_split_sentences text)
       then 50 <= score r <= 100
       else score r = 40.
Proof.
  intros Hr. destruct (str_eq_dec (strip text) []) as [Hs|Hne].
  - rewrite Hs. cbn [truthy negb].
    rewrite (summarize_blank_text text query mt N Hs) in Hr.
    apply Ok_inj in Hr. subst r. split; reflexivity.
  - destruct (strip text) as [|c rest] eqn:Est; [contradiction|]. cbn [truthy negb].
    rewrite <- Est in Hne.
    destruct (summarize_inv text query mt N r Hne Hr) as (scores & z & Hsc & Hz & ->).
    cbn [score].
    pose proof (score_sentences_sign _ _ _ Hsc) as Hsign.
    destruct (score_sentences_inv _ _ _ Hsc) as (_ & Hnn & _).
    pose proof (sorted_nonneg scores Hnn) as Hsnn.
    rewrite <- (forallb_sorted _ scores) in Hsign.
    destruct (existsb _ _); cbn [negb] in Hsign.
    + exact (compute_overall_score_matched _ _ Hsnn Hsign Hz).
    + rewrite compute_overall_score_fallback in Hz.
      * now apply Ok_inj in Hz.
      * intros E. pose proof (scores_length _ _ _ Hsc) as Hl.
        pose proof (sort_desc_length scores) as Hl'. rewrite E in Hl'.
        pose proof (split_sentences_nonempty text Hne).
        destruct (_split_sentences text); [contradiction|].
        simpl in *. lia.
      * apply Forall_forall. intros p Hp.
        rewrite forallb_forall in Hsign. now apply Hsign.
Qed.

Lemma summarize_score_cases_witness :
  exists r, summarize example_text (lit "zebra") None 2 = Ok r /\ score r = 40.
Proof.
  destruct (summarize example_text (lit "zebra") None 2) as [r|e] eqn:Hr.
  - exists r. split; [reflexivity|].
    exact (summarize_score_cases example_text (lit "zebra") None 2 r Hr).
  - vm_compute in Hr. discriminate.
Defined.

(** *** The bullets *)

Lemma selected_indices_shape (sentences query_tokens : list str)
  (scores : list (nat * float)) (N : Z) :
  _score_sentences sentences query_tokens = Ok scores ->
  let sel := selected_indices sentences (sort_desc scores) N in
  StronglySorted lt sel /\
  Forall (fun i => (i < length sentences)%nat) sel /\
  length sel = bullet_count N (length sentences)
                 (existsb (shares_token query_tokens) sentences).
Proof.
  intros Hsc sel.
  destruct (score_sentences_inv _ _ _ Hsc) as (Hidx & _).
  pose proof (scores_length _ _ _ Hsc) as Hlen.
  pose proof (score_sentences_sign _ _ _ Hsc) as Hsign.
  rewrite <- (forallb_sorted _ scores) in Hsign.
  split; [|split].
  - unfold sel, selected_indices. destruct (forallb _ _).
    + apply seq_sorted.
    + apply sort_asc_sorted. rewrite slice_to_map. apply slice_to_NoDup.
      eapply Permutation_NoDup;
        [symmetry; apply (sorted_indices_perm sentences scores Hidx)|].
      apply seq_NoDup.
  - now apply selected_indices_valid.
  - unfold sel, selected_indices, bullet_count. rewrite Hsign.
    destruct (existsb _ _); cbn [negb andb].
    + rewrite sort_asc_length, length_map, slice_to_length, sort_desc_length, Hlen.
      reflexivity.
    + apply length_seq.
Qed.

(** X9: the summary of a result is the list of bullets of distinct sentences
    of the text, in the order of the text, and their number is
    min(max_sentences, number of sentences); for a negative [max_sentences] it
    is the number of sentences plus [max_sentences] when some sentence has a
    token of the query, and 0 otherwise. *)
Theorem summarize_bullets (text query : str) (mt : option str) (N : Z)
  (r : SummaryResult) :
  summarize text query mt N = Ok r ->
  let sentences := _split_sentences text in
  exists sel,
    summary r = join newline (map (fun i => bullet_text (nth i sentences [])) sel) /\
    StronglySorted lt sel /\
    Forall (fun i => (i < length sentences)%nat) sel /\
    length sel = bullet_count N (length sentences)
                   (existsb (shares_token (_tokenize query)) sentences).
Proof.
  intros Hr sentences. destruct (str_eq_dec (strip text) []) as [Hs|Hne].
  - rewrite (summarize_blank_text text query mt N Hs) in Hr.
    apply Ok_inj in Hr. subst r. exists [].
    unfold sentences. rewrite (split_sentences_blank text Hs).
    repeat split; try constructor.
    unfold bullet_count. cbn [existsb andb length]. lia.
  - destruct (summarize_inv text query mt N r Hne Hr) as (scores & z & Hsc & _ & ->).
    exists (selected_indices sentences (sort_desc scores) N).
    split; [reflexivity|]. now apply selected_indices_shape.
Qed.

Lemma summarize_bullets_witness :
  exists r sel,
    summarize example_text example_query None (-1) = Ok r /\
    summary r = join newline
                  (map (fun i => bullet_text
                                   (nth i (_split_sentences example_text) [])) sel) /\
    length sel = 2%nat.
Proof.
  destruct (summarize example_text example_query None (-1)) as [r|e] eqn:Hr.
  - destruct (summarize_bullets example_text example_query None (-1) r Hr)
      as (sel & Hsum & _ & _ & Hlen).
    exists r, sel. split; [reflexivity|]. split; [exact Hsum | exact Hlen].
  - vm_compute in Hr. discriminate.
Defined.

End SummaryFacts.

(** ** Metadata and body text of a document *)

Module DocumentFacts.

Import Summarizer SummarizerFacts SentenceFacts ScoringFacts.
Import Soup ArticleParser ArticleNotions ArticleParserFacts.

(** *** Searches *)

Lemma find_absent (crit : str -> list (str * str) -> bool) (root : list node) :
  existsb (matches crit) (descendants_of root) = false -> find crit root = None.
Proof.
  unfold find, find_all. intros H.
  apply filter_nil_existsb in H. now rewrite H.
Qed.

Lemma existsb_weaken {A : Type} (f g : A -> bool) (l : list A) :
  (forall a, f a = true -> g a = true) ->
  existsb g l = false -> existsb f l = false.
Proof.
  intros Hfg. induction l as [|a l IH]; simpl; [reflexivity|].
  intros H. apply orb_false_iff in H as [Ha Hl].
  rewrite (IH Hl), orb_false_r.
  destruct (f a) eqn:Hf; [|reflexivity]. apply Hfg in Hf. congruence.
Qed.

Lemma find_named_with_absent (name key value : str) (doc : soup) :
  has_tag name doc = false -> find (named_with name key value) doc = None.
Proof.
  intros H. apply find_absent. revert H. apply existsb_weaken.
  intros [s|s|n attrs cs]; simpl; [discriminate|discriminate|].
  unfold named_with, named. intros H. now apply andb_prop in H as [H _].
Qed.

Lemma find_named_absent (name : str) (doc : soup) :
  has_tag name doc = false -> find (named name) doc = None.
Proof. apply find_absent. Qed.

Lemma find_author_span_absent (doc : soup) :
  has_tag (lit "span") doc = false -> find author_span doc = None.
Proof.
  intros H. apply find_absent. revert H. apply existsb_weaken.
  intros [s|s|n attrs cs]; simpl; [discriminate|discriminate|].
  unfold author_span, named. intros H. now apply andb_prop in H as [H _].
Qed.

(** X10: a document without any [meta], [link], [title], [html] and [span]
    tag has the default metadata: the canonical URL is the URL that was
    fetched and every other field is absent. *)
Theorem metadata_defaults (doc : soup) (url : str) :
  has_tag (lit "meta") doc = false ->
  has_tag (lit "link") doc = false ->
  has_tag (lit "title") doc = false ->
  has_tag (lit "html") doc = false ->
  has_tag (lit "span") doc = false ->
  _extract_metadata doc url = default_metadata url.
Proof.
  intros Hmeta Hlink Htitle Hhtml Hspan.
  unfold _extract_metadata, default_metadata, extract_canonical, extract_title,
    extract_author, meta_property, meta_name.
  rewrite !(find_named_with_absent (lit "meta")) by assumption.
  rewrite (find_named_with_absent (lit "link")) by assumption.
  rewrite !find_named_absent by assumption.
  rewrite find_author_span_absent by assumption.
  reflexivity.
Qed.

Lemma metadata_defaults_witness :
  _extract_metadata paragraphs_doc (lit "http://u") = default_metadata (lit "http://u").
Proof. apply metadata_defaults; reflexivity. Defined.

(** *** The fields *)

Lemma find_in (crit : str -> list (str * str) -> bool) (root : list node) (n : node) :
  find crit root = Some n -> In n (descendants_of root).
Proof.
  unfold find, find_all. intros H.
  assert (Hin : In n (filter (matches crit) (descendants_of root))).
  { destruct (filter _ _) as [|x l]; [discriminate|].
    injection H as ->. now left. }
  now apply filter_In in Hin as [Hin _].
Qed.

(** X11: the canonical URL is always present: it is the URL that was fetched
    or the non-empty [href] of a [link] tag of the document.  Each of the
    eight other fields, when present, is a string that [strip] leaves
    unchanged. *)
Theorem metadata_fields (doc : soup) (url : str) :
  let m := _extract_metadata doc url in
  (exists u, canonicalUrl m = Some u /\
     (u = url \/
      u <> [] /\ exists attrs cs,
        In (Tag (lit "link") attrs cs) (descendants_of doc) /\
        lookup (lit "href") attrs = Some u)) /\
  (forall s, In (Some s) [title m; description m; image m; source m; author m;
                          keywords m; published m; languageCode m] ->
             strip s = s).
Proof.
  cbv zeta. split.
  - cbn [_extract_metadata canonicalUrl]. unfold extract_canonical.
    destruct (find _ doc) as [c|] eqn:Hc; [|eauto].
    destruct (get_truthy c (lit "href")) as [href|] eqn:Hh; [|eauto].
    exists href. split; [reflexivity|]. right.
    pose proof (find_in _ _ _ Hc) as Hin.
    destruct (find_matches _ _ _ Hc) as (name & attrs & cs & -> & Hcrit).
    unfold named_with in Hcrit. apply andb_prop in Hcrit as [Hname _].
    apply str_eqb_eq in Hname. subst name.
    unfold get_truthy in Hh. cbn [get] in Hh.
    destruct (lookup (lit "href") attrs) as [v|] eqn:Hv; [|discriminate].
    destruct v as [|c0 v]; [discriminate|]. cbn [truthy] in Hh.
    injection Hh as <-. split; [discriminate|]. eauto.
  - intros s Hs. apply strip_of_trimmed.
    exact (metadata_fields_trimmed doc url s Hs).
Qed.

Lemma metadata_fields_witness :
  strip (lit "OG title") = lit "OG title".
Proof.
  apply (metadata_fields title_doc (lit "http://u")). left. reflexivity.
Defined.

(** *** The tree of a document *)

Lemma node_induction (P : node -> Prop) :
  (forall s, P (NavigableString s)) ->
  (forall s, P (Comment s)) ->
  (forall name attrs cs, Forall P cs -> P (Tag name attrs cs)) ->
  forall n, P n.
Proof.
  intros Hs Hc Ht. fix IH 1.
  intros [s|s|name attrs cs]; [apply Hs|apply Hc|]. apply Ht.
  revert cs. fix IHcs 1. intros [|c cs]; constructor; [apply IH | apply IHcs].
Qed.

Lemma descendants_eq (n : node) : descendants n = descendants_of (contents n).
Proof.
  destruct n as [s|s|name attrs cs]; [reflexivity|reflexivity|]. simpl.
  induction cs as [|c cs IH]; [reflexivity|].
  unfold descendants_of in *. cbn [flat_map]. rewrite <- IH. reflexivity.
Qed.

(** A comment among the children of a tag adds nothing to its text. *)
Lemma get_text_skips_comment (name : str) (attrs : list (str * str)) (s : str)
  (before after : list node) :
  get_text (Tag name attrs (before ++ Comment s :: after))
  = get_text (Tag name attrs (before ++ after)).
Proof.
  unfold get_text, stripped_strings. f_equal.
  rewrite !(descendants_eq (Tag name attrs _)). cbn [contents].
  unfold descendants_of. rewrite !flat_map_app. reflexivity.
Qed.

Lemma descendants_nested (n d : node) :
  In d (descendants n) -> incl (descendants d) (descendants n).
Proof.
  revert d. induction n as [s|s|name attrs cs IH] using node_induction; intros d Hd.
  - destruct Hd.
  - destruct Hd.
  - rewrite (descendants_eq (Tag name attrs cs)) in *. cbn [contents] in *.
    unfold descendants_of in *.
    apply in_flat_map in Hd as (c & Hc & Hd).
    rewrite Forall_forall in IH.
    intros x Hx. apply in_flat_map. exists c. split; [assumption|].
    destruct Hd as [<- | Hd]; [now right|].
    right. now apply (IH c Hc d Hd).
Qed.

Lemma descendants_of_nested (root : list node) (d : node) :
  In d (descendants_of root) ->
  incl (descendants_of (contents d)) (descendants_of root).
Proof.
  intros Hd.
  pose proof (descendants_nested (Tag [] [] root) d) as H.
  rewrite !descendants_eq in H. cbn [contents] in H. now apply H.
Qed.

Lemma paragraphs_of_document (doc : soup) (c : node) :
  In c (descendants_of doc) ->
  incl (paragraphs_of c) (find_all (named (lit "p")) doc).
Proof.
  intros Hc p Hp. unfold paragraphs_of, find_all in *.
  apply filter_In in Hp as [Hin Hm]. apply filter_In. split; [|assumption].
  now apply (descendants_of_nested doc c Hc).
Qed.

Lemma first_paragraphs_cases (cands : list node) (ps : list node) :
  first_paragraphs cands ps = ps \/
  exists c, In c cands /\ first_paragraphs cands ps = paragraphs_of c.
Proof.
  revert ps. induction cands as [|x cands IH]; intros ps; simpl; [now left|].
  destruct (nonempty (paragraphs_of x)) eqn:Hx.
  - right. exists x. split; [now left | reflexivity].
  - destruct (IH (paragraphs_of x)) as [H | (c & Hc & H)].
    + right. exists x. split; [now left | assumption].
    + right. exists c. split; [now right | assumption].
Qed.

(** *** Texts without white space at the ends *)

Lemma trimmed_between (a m b : str) :
  a <> [] -> trimmed a -> b <> [] -> trimmed b -> trimmed (a ++ m ++ b).
Proof.
  intros Ha [Hah _] Hb [_ Hbl]. split.
  - intros c r H. destruct a as [|x a]; [contradiction|].
    injection H as <- _. now apply (Hah x a).
  - intros c r H. destruct (exists_last Hb) as (b' & y & ->).
    rewrite !app_assoc in H. apply app_inj_tail in H as [_ <-].
    now apply (Hbl y b').
Qed.

Lemma join_nonempty_trimmed (sep : str) (parts : list str) :
  parts <> [] -> Forall (fun p => p <> [] /\ trimmed p) parts ->
  join sep parts <> [] /\ trimmed (join sep parts).
Proof.
  induction parts as [|p parts IH]; [contradiction|]. intros _ Hall.
  apply Forall_cons_iff in Hall as [[Hp Htp] Hall].
  destruct parts as [|q parts]; [now split|].
  destruct (IH ltac:(discriminate) Hall) as [Hne Htr].
  change (join sep (p :: q :: parts)) with (p ++ sep ++ join sep (q :: parts)).
  split; [destruct p; [contradiction | discriminate]|].
  now apply trimmed_between.
Qed.

Lemma join_length_first (sep p : str) (parts : list str) :
  (length p <= length (join sep (p :: parts)))%nat.
Proof.
  destruct parts as [|q parts]; [simpl; lia|].
  change (join sep (p :: q :: parts)) with (p ++ sep ++ join sep (q :: parts)).
  rewrite length_app. lia.
Qed.

Lemma trimmed_nil : trimmed [].
Proof. split; intros c r H; [discriminate | now destruct r]. Qed.

Lemma stripped_strings_items (n : node) :
  Forall (fun p => p <> [] /\ trimmed p) (stripped_strings n).
Proof.
  unfold stripped_strings. apply Forall_forall. intros p Hp.
  apply in_flat_map in Hp as (d & _ & Hp).
  destruct d as [s|s|name attrs cs]; [|destruct Hp|destruct Hp].
  destruct (truthy (strip s)) eqn:Ht; [|destruct Hp].
  destruct Hp as [<- | []]. split; [now apply truthy_nonempty | apply strip_trimmed].
Qed.

(** [get_text(" ", strip=True)] has no white space at its ends. *)
Lemma get_text_trimmed (n : node) : trimmed (get_text n).
Proof.
  unfold get_text. destruct (stripped_strings n) as [|p ps] eqn:Hs; [apply trimmed_nil|].
  rewrite <- Hs. apply join_nonempty_trimmed; [rewrite Hs; discriminate|].
  apply stripped_strings_items.
Qed.

Lemma long_texts_items (ps : list node) :
  Forall (fun t => t <> [] /\ trimmed t) (long_texts ps).
Proof.
  pose proof (long_texts_long ps) as Hlong.
  rewrite Forall_forall in *. intros t Ht. split.
  - specialize (Hlong t Ht). destruct t; [simpl in Hlong; lia | discriminate].
  - unfold long_texts in Ht. apply filter_In in Ht as [Ht _].
    apply in_map_iff in Ht as (p & <- & _). apply get_text_trimmed.
Qed.

Lemma joined_texts (ps : list node) :
  let joined := join newline (long_texts ps) in
  trimmed joined /\ (joined = [] \/ (40 <= length joined)%nat).
Proof.
  cbv zeta. destruct (long_texts ps) as [|t ts] eqn:Hl.
  - split; [apply trimmed_nil | now left].
  - pose proof (long_texts_items ps) as Hit. pose proof (long_texts_long ps) as Hlong.
    rewrite Hl in *. split.
    + apply join_nonempty_trimmed; [discriminate | assumption].
    + right. apply Forall_inv in Hlong.
      pose proof (join_length_first newline t ts). lia.
Qed.

Lemma extract_text_paragraphs (doc : soup) :
  exists paragraphs,
    incl paragraphs (find_all (named (lit "p")) doc) /\
    _extract_text doc = strip (join newline (long_texts paragraphs)).
Proof.
  unfold _extract_text.
  destruct (find (named (lit "article")) doc) as [a|] eqn:Ha.
  - destruct (nonempty (paragraphs_of a)).
    + exists (paragraphs_of a). split; [|reflexivity].
      apply paragraphs_of_document. now apply find_in in Ha.
    + eexists. split; [apply incl_refl | reflexivity].
  - destruct (first_paragraphs_cases (select_containers doc) []) as [-> | (c & Hc & ->)].
    + cbn [nonempty]. eexists. split; [apply incl_refl | reflexivity].
    + destruct (nonempty (paragraphs_of c)).
      * exists (paragraphs_of c). split; [|reflexivity].
        apply paragraphs_of_document.
        unfold select_containers, find_all in Hc. now apply filter_In in Hc as [Hc _].
      * eexists. split; [apply incl_refl | reflexivity].
Qed.

Lemma extract_text_trimmed (doc : soup) : trimmed (_extract_text doc).
Proof.
  destruct (extract_text_paragraphs doc) as (ps & _ & ->). apply strip_trimmed.
Qed.

(** X12: the text of a document is made of [<p>] elements of the document:
    it is the texts of at least 40 characters of some of them, joined by new
    lines.  It has no white space at its ends, so that the final [strip]
    changes nothing, and it is empty or has at least 40 characters. *)
Theorem extract_text_shape (doc : soup) :
  exists paragraphs,
    incl paragraphs (find_all (named (lit "p")) doc) /\
    _extract_text doc = join newline (long_texts paragraphs) /\
    trimmed (_extract_text doc) /\
    (_extract_text doc = [] \/ (40 <= length (_extract_text doc))%nat).
Proof.
  destruct (extract_text_paragraphs doc) as (ps & Hincl & Heq).
  destruct (joined_texts ps) as [Htr Hlen].
  rewrite (strip_of_trimmed _ Htr) in Heq.
  exists ps. rewrite Heq. split; [assumption|]. split; [reflexivity|]. split; assumption.
Qed.

End DocumentFacts.

(** ** The HTTP client *)

Module HttpFacts.

Import Http.

(** *** The loop and its runs *)

Lemma retried_cases (net : network) (k : Z) :
  (exists r, session_get net k = Responds r /\ is_success r = true /\ retried net k = None) \/
  (session_get net k = OtherException /\ retried net k = None) \/
  (exists c, retried net k = Some c /\
     (session_get net k = RequestException /\ c = SessionException \/
      exists r, session_get net k = Responds r /\ is_success r = false /\
                c = HttpStatus (status_code r) (url r))).
Proof.
  unfold retried. destruct (session_get net k) as [r| |].
  - destruct (is_success r) eqn:Hs.
    + left. eauto.
    + right. right. eexists. split; [reflexivity|]. right. eauto.
  - right. right. eexists. split; [reflexivity|]. now left.
  - right. now left.
Qed.

(** The loop ends within [max_retries + 1 - attempt] iterations and one more
    test, and what it computes is a run. *)
Lemma get_loop_run (net : network) (mr : Z) (fuel : nat) :
  forall (a : Z) (last : option last_exception) (log : list event),
    (Z.to_nat (mr + 1 - a) < fuel)%nat ->
    exists res log',
      get_loop fuel net mr a last log = Some (res, log ++ log') /\
      run net mr a last res log'.
Proof.
  induction fuel as [|fuel IH]; intros a last log Hfuel; [lia|].
  cbn [get_loop]. destruct (Z.leb_spec a mr) as [Hle|Hgt].
  - cbv zeta.
    assert (Hnext : forall c, retried net (a + 1) = Some c ->
              exists res log',
                (if a + 1 <=? mr
                 then if sleeps net (a + 1)
                      then get_loop fuel net mr (a + 1) (Some c)
                             ((log ++ [Request (a + 1)]) ++ [Sleep (a + 1 - 1)])
                      else Some (Fails Uncaught,
                                 (log ++ [Request (a + 1)]) ++ [Sleep (a + 1 - 1)])
                 else get_loop fuel net mr (a + 1) (Some c) (log ++ [Request (a + 1)]))
                = Some (res, log ++ log') /\
                run net mr a last res log').
    { intros c Hc. replace (a + 1 - 1) with a by lia.
      destruct (Z.leb_spec (a + 1) mr) as [Hle1|Hgt1].
      - destruct (sleeps net (a + 1)) eqn:Hsl.
        + destruct (IH (a + 1) (Some c) ((log ++ [Request (a + 1)]) ++ [Sleep a]))
            as (res & log' & Heq & Hrun); [lia|].
          exists res, (Request (a + 1) :: Sleep a :: log'). split.
          * rewrite Heq. f_equal. f_equal. now rewrite <- !app_assoc.
          * now apply (run_retry net mr a last c).
        + exists (Fails Uncaught), [Request (a + 1); Sleep a]. split.
          * now rewrite <- app_assoc.
          * now apply (run_interrupted net mr a last c).
      - destruct (IH (a + 1) (Some c) (log ++ [Request (a + 1)]))
          as (res & log' & Heq & Hrun); [lia|].
        inversion Hrun; subst; try lia.
        exists (Fails (RequestError (Some c))), [Request (a + 1)]. split.
        + rewrite Heq. now rewrite app_nil_r.
        + apply (run_last net mr a last c); [lia | assumption]. }
    destruct (retried_cases net (a + 1))
      as [(r & Hg & Hs & _) | [(Hg & _) | (c & Hc & [(Hg & ->) | (r & Hg & Hs & ->)])]];
      rewrite Hg.
    + rewrite Hs. exists (Returns r), [Request (a + 1)]. split; [reflexivity|].
      now apply run_success.
    + exists (Fails Uncaught), [Request (a + 1)]. split; [reflexivity|].
      now apply run_escapes.
    + now apply Hnext.
    + rewrite Hs. now apply Hnext.
  - exists (Fails (RequestError last)), []. split; [now rewrite app_nil_r|].
    now apply run_exhausted.
Qed.

Lemma get_run (self : RequestHandler) (net : network) :
  exists res log,
    get self net = Some (res, log) /\ run net (max_retries self) 0 None res log.
Proof.
  unfold get.
  destruct (get_loop_run net (max_retries self) (S (Z.to_nat (max_retries self + 1)))
              0 None []) as (res & log & Heq & Hrun); [lia|].
  exists res, log. now split.
Qed.

Lemma retried_success (net : network) (k : Z) (r : Response) :
  session_get net k = Responds r -> is_success r = true -> retried net k = None.
Proof. intros Hg Hs. unfold retried. now rewrite Hg, Hs. Qed.

Lemma retried_escapes (net : network) (k : Z) :
  session_get net k = OtherException -> retried net k = None.
Proof. intros Hg. unfold retried. now rewrite Hg. Qed.

Ltac retried_conflict :=
  match goal with
  | [ Hc : retried ?net ?k = Some _, Hg : session_get ?net ?k = Responds ?r,
      Hs : is_success ?r = true |- _ ] =>
      rewrite (retried_success net k r Hg Hs) in Hc; discriminate
  | [ Hc : retried ?net ?k = Some _, Hg : session_get ?net ?k = OtherException |- _ ] =>
      rewrite (retried_escapes net k Hg) in Hc; discriminate
  end.

(** A run is determined by the values the loop is entered with. *)
Lemma run_functional (net : network) (mr a : Z) (last : option last_exception)
  (res1 res2 : outcome Response) (log1 log2 : list event) :
  run net mr a last res1 log1 -> run net mr a last res2 log2 ->
  res1 = res2 /\ log1 = log2.
Proof.
  intros H1. revert res2 log2.
  induction H1 as [a last Hgt | a last r Hle Hg Hs | a last Hle Hg
                  | a last c Hle Hc Hsl | a last c res log Hle Hc Hsl Hrun IH
                  | a last c Heq Hc];
    intros res2 log2 H2; inversion H2; subst; try lia;
    try retried_conflict; try (split; congruence).
  match goal with
  | [ H : run net mr (a + 1) (Some ?c') _ _ |- _ ] =>
      assert (Hcc : c' = c) by congruence; rewrite Hcc in H;
      destruct (IH _ _ H) as [-> ->]
  end.
  now split.
Qed.

Lemma get_of_run (self : RequestHandler) (net : network) (res : outcome Response)
  (log : list event) :
  run net (max_retries self) 0 None res log -> get self net = Some (res, log).
Proof.
  intros H. destruct (get_run self net) as (res' & log' & Heq & Hrun).
  destruct (run_functional _ _ _ _ _ _ _ _ H Hrun) as [-> ->]. exact Heq.
Qed.

Lemma run_of_get (self : RequestHandler) (net : network) (res : outcome Response)
  (log : list event) :
  get self net = Some (res, log) -> run net (max_retries self) 0 None res log.
Proof.
  intros H. destruct (get_run self net) as (res' & log' & Heq & Hrun).
  rewrite Heq in H. now injection H as <- <-.
Qed.

(** *** Requests and pauses *)

Lemma map_seq_shift (a : Z) (s n : nat) :
  map (fun i => a + 1 + Z.of_nat i) (seq s n) = map (fun i => a + Z.of_nat i) (seq (S s) n).
Proof.
  rewrite <- seq_shift, map_map. apply map_ext. intros i. lia.
Qed.

Lemma run_events (net : network) (mr a : Z) (last : option last_exception)
  (res : outcome Response) (log : list event) :
  run net mr a last res log ->
  exists n n' : nat,
    requests log = map (fun i => a + Z.of_nat i) (seq 1 n) /\
    pauses log = map (fun i => a + Z.of_nat i) (seq 0 n') /\
    (n' <= n)%nat /\
    a + Z.of_nat n <= Z.max a (mr + 1) /\
    a + Z.of_nat n' <= Z.max a mr.
Proof.
  induction 1 as [a last Hgt | a last r Hle Hg Hs | a last Hle Hg
                 | a last c Hle Hc Hsl | a last c res log Hle Hc Hsl Hrun IH
                 | a last c Heq Hc].
  - exists 0%nat, 0%nat. cbn. repeat split; lia.
  - exists 1%nat, 0%nat. cbn. repeat split; try lia; try reflexivity; f_equal; lia.
  - exists 1%nat, 0%nat. cbn. repeat split; try lia; try reflexivity; f_equal; lia.
  - exists 1%nat, 1%nat. cbn. repeat split; try lia; try reflexivity; f_equal; lia.
  - destruct IH as (n & n' & Hr & Hp & Hnn & Hb & Hb').
    exists (S n), (S n'). cbn [requests pauses flat_map app] in *.
    fold (requests log). fold (pauses log). rewrite Hr, Hp.
    repeat split; try lia.
    + cbn [seq map]. f_equal. apply map_seq_shift.
    + cbn [seq map]. f_equal; [lia|]. apply map_seq_shift.
  - exists 1%nat, 0%nat. cbn. repeat split; try lia; try reflexivity; f_equal; lia.
Qed.

(** X13: a call of [get] ends, whatever the network does.  It makes the
    attempts 1, 2, ..., n in this order, with n at most [max_retries + 1] (none
    for a negative [max_retries]), and at most [max_retries] pauses, of
    exponents 0, 1, 2, ...: each pause follows an attempt. *)
Theorem get_requests_bounded (self : RequestHandler) (net : network) :
  exists (res : outcome Response) (log : list event) (n n' : nat),
    get self net = Some (res, log) /\
    requests log = map Z.of_nat (seq 1 n) /\
    pauses log = map Z.of_nat (seq 0 n') /\
    (n' <= n)%nat /\
    Z.of_nat n <= Z.max 0 (max_retries self + 1) /\
    Z.of_nat n' <= Z.max 0 (max_retries self).
Proof.
  destruct (get_run self net) as (res & log & Heq & Hrun).
  destruct (run_events _ _ _ _ _ _ Hrun) as (n & n' & Hr & Hp & Hnn & Hb & Hb').
  exists res, log, n, n'. repeat split; try assumption; lia.
Qed.

(** *** A response that is returned *)

Lemma run_returns (net : network) (mr a : Z) (last : option last_exception)
  (res : outcome Response) (log : list event) :
  run net mr a last res log ->
  forall r, res = Returns r ->
  is_success r = true /\
  exists n : nat,
    session_get net (a + Z.of_nat n + 1) = Responds r /\
    a + Z.of_nat n <= mr /\
    log = attempts_from a (S n) /\
    forall j, a < j <= a + Z.of_nat n -> retried net j <> None /\ sleeps net j = true.
Proof.
  induction 1 as [a last Hgt | a last r' Hle Hg Hs | a last Hle Hg
                 | a last c Hle Hc Hsl | a last c res log Hle Hc Hsl Hrun IH
                 | a last c Heq Hc]; intros r Hr; try discriminate.
  - injection Hr as ->. split; [assumption|]. exists 0%nat.
    replace (a + Z.of_nat 0 + 1) with (a + 1) by lia.
    repeat split; try assumption; lia.
  - destruct (IH r Hr) as (Hs & n & Hg & Hb & Hlog & Hfail).
    split; [assumption|]. exists (S n).
    replace (a + Z.of_nat (S n) + 1) with (a + 1 + Z.of_nat n + 1) by lia.
    split; [assumption|]. split; [lia|]. split.
    + cbn [attempts_from]. now rewrite Hlog.
    + intros j Hj. destruct (Z.eq_dec j (a + 1)) as [->|Hne].
      * split; [congruence | assumption].
      * apply Hfail. lia.
Qed.

(** X14: a response that [get] returns has a status code from 200 to 399.
    It is the answer to the last attempt made, which is among the first
    [max_retries + 1]; every earlier attempt had failed with a status out of
    this range or a [RequestException], and was followed by a pause. *)
Theorem get_returned_response (self : RequestHandler) (net : network)
  (response : Response) (log : list event) :
  get self net = Some (Returns response, log) ->
  200 <= status_code response < 400 /\
  exists k : nat,
    1 <= Z.of_nat k <= max_retries self + 1 /\
    session_get net (Z.of_nat k) = Responds response /\
    log = attempts_log k /\
    forall j, 1 <= j < Z.of_nat k -> retried net j <> None /\ sleeps net j = true.
Proof.
  intros H. apply run_of_get in H.
  destruct (run_returns _ _ _ _ _ _ H response eq_refl)
    as (Hs & n & Hg & Hb & Hlog & Hfail).
  split.
  - unfold is_success in Hs. apply andb_prop in Hs as [H1 H2]. lia.
  - exists (S n). replace (Z.of_nat (S n)) with (0 + Z.of_nat n + 1) by lia.
    split; [lia|]. split; [assumption|]. split; [assumption|].
    intros j Hj. apply Hfail. lia.
Qed.

Lemma get_returned_response_witness :
  200 <= status_code page < 400 /\
  exists k : nat,
    1 <= Z.of_nat k <= 3 + 1 /\
    session_get flaky (Z.of_nat k) = Responds page /\
    [Request 1; Sleep 0; Request 2; Sleep 1; Request 3] = attempts_log k /\
    forall j, 1 <= j < Z.of_nat k -> retried flaky j <> None /\ sleeps flaky j = true.
Proof.
  apply (get_returned_response default_handler flaky page).
  vm_compute. reflexivity.
Defined.

(** *** The first success *)

Lemma run_first_success (net : network) (mr : Z) (r : Response) (n : nat) :
  forall (a : Z) (last : option last_exception),
    (forall j, a < j <= a + Z.of_nat n -> retried net j <> None /\ sleeps net j = true) ->
    a + Z.of_nat n <= mr ->
    session_get net (a + Z.of_nat n + 1) = Responds r ->
    is_success r = true ->
    run net mr a last (Returns r) (attempts_from a (S n)).
Proof.
  induction n as [|n IH]; intros a last Hfail Hb Hg Hs.
  - replace (a + Z.of_nat 0 + 1) with (a + 1) in Hg by lia.
    apply run_success; [lia | assumption | assumption].
  - destruct (Hfail (a + 1) ltac:(lia)) as [Hc Hsl].
    destruct (retried net (a + 1)) as [c|] eqn:Hc'; [|contradiction].
    cbn [attempts_from].
    apply (run_retry net mr a last c); [lia | assumption | assumption |].
    apply IH.
    + intros j Hj. apply Hfail. lia.
    + lia.
    + now replace (a + 1 + Z.of_nat n + 1) with (a + Z.of_nat (S n) + 1) by lia.
    + assumption.
Qed.

(** X15: when the attempt [k], among the first [max_retries + 1], is the
    first to get a response whose status code is from 200 to 399, the earlier
    ones having failed with another status or a [RequestException], [get]
    returns this response after [k] requests and [k - 1] pauses, and makes no
    further request. *)
Theorem get_returns_first_success (self : RequestHandler) (net : network)
  (k : nat) (response : Response) :
  1 <= Z.of_nat k <= max_retries self + 1 ->
  (forall j, 1 <= j < Z.of_nat k -> retried net j <> None /\ sleeps net j = true) ->
  session_get net (Z.of_nat k) = Responds response ->
  is_success response = true ->
  get self net = Some (Returns response, attempts_log k).
Proof.
  intros Hk Hfail Hg Hs. apply get_of_run.
  destruct k as [|n]; [lia|]. unfold attempts_log.
  apply run_first_success.
  - intros j Hj. apply Hfail. lia.
  - lia.
  - now replace (0 + Z.of_nat n + 1) with (Z.of_nat (S n)) by lia.
  - assumption.
Qed.

Lemma get_returns_first_success_witness :
  get default_handler flaky
  = Some (Returns page, [Request 1; Sleep 0; Request 2; Sleep 1; Request 3]).
Proof.
  apply (get_returns_first_success default_handler flaky 3 page).
  - cbn. lia.
  - intros j Hj. assert (Hj' : j = 1 \/ j = 2) by (cbn in Hj; lia).
    destruct Hj' as [-> | ->]; split; try reflexivity; discriminate.
  - reflexivity.
  - reflexivity.
Defined.

(** *** Giving up *)

Lemma run_gives_up (net : network) (mr : Z) (n : nat) :
  forall (a : Z) (last : option last_exception),
    a + Z.of_nat n = mr + 1 ->
    (forall j, a < j <= mr + 1 -> retried net j <> None) ->
    (forall j, a < j <= mr -> sleeps net j = true) ->
    run net mr a last
      (Fails (RequestError (match n with O => last | S _ => retried net (mr + 1) end)))
      (attempts_from a n).
Proof.
  induction n as [|n IH]; intros a last Ha Hfail Hsl.
  - apply run_exhausted. lia.
  - pose proof (Hfail (a + 1) ltac:(lia)) as Hc.
    destruct (retried net (a + 1)) as [c|] eqn:Hc'; [|contradiction].
    destruct n as [|n].
    + cbn [attempts_from]. replace (mr + 1) with (a + 1) by lia. rewrite Hc'.
      apply run_last; [lia | assumption].
    + change (attempts_from a (S (S n)))
        with (Request (a + 1) :: Sleep a :: attempts_from (a + 1) (S n)).
      apply (run_retry net mr a last c); [lia | assumption | apply Hsl; lia |].
      apply (IH (a + 1) (Some c)); [lia | |].
      * intros j Hj. apply Hfail. lia.
      * intros j Hj. apply Hsl. lia.
Qed.

(** X16: when each of the [max_retries + 1] attempts fails with a status out
    of 200..399 or a [RequestException], [get] raises [RequestError] with the
    failure of the last attempt, after [max_retries + 1] requests and
    [max_retries] pauses: it does not pause after the last attempt.  With a
    negative [max_retries] it raises at once, without any request. *)
Theorem get_gives_up (self : RequestHandler) (net : network) :
  (forall j, 1 <= j <= max_retries self + 1 -> retried net j <> None) ->
  (forall j, 1 <= j <= max_retries self -> sleeps net j = true) ->
  get self net
  = Some (Fails (RequestError (if max_retries self <? 0 then None
                               else retried net (max_retries self + 1))),
          attempts_log (Z.to_nat (max_retries self + 1))).
Proof.
  intros Hfail Hsl. apply get_of_run.
  destruct (Z.ltb_spec (max_retries self) 0) as [Hneg|Hpos].
  - replace (Z.to_nat (max_retries self + 1)) with 0%nat by lia.
    apply run_exhausted. lia.
  - pose proof (run_gives_up net (max_retries self) (Z.to_nat (max_retries self + 1))
                  0 None) as H.
    destruct (Z.to_nat (max_retries self + 1)) as [|n] eqn:Hn; [lia|].
    apply H; [lia | |].
    + intros j Hj. apply Hfail. lia.
    + intros j Hj. apply Hsl. lia.
Qed.

Lemma get_gives_up_witness :
  get default_handler down
  = Some (Fails (RequestError (Some (HttpStatus 503 (lit "http://example.com/")))),
          [Request 1; Sleep 0; Request 2; Sleep 1; Request 3; Sleep 2; Request 4]).
Proof.
  apply (get_gives_up default_handler down).
  - intros j _. discriminate.
  - intros j _. reflexivity.
Defined.

End HttpFacts.

(** ** Fetching articles and assembling records *)

Module ScraperFacts.

Import Soup Scraper.
Import SummarizerFacts SentenceFacts ScoringFacts SummaryFacts.
Import ArticleParserFacts DocumentFacts HttpFacts.

(** *** The URLs of a page of results *)

Lemma firstn_exact {A : Type} (l r : list A) : firstn (length l) (l ++ r) = l.
Proof.
  rewrite firstn_app, Nat.sub_diag, firstn_all. cbn. apply app_nil_r.
Qed.

Lemma prefixb_nil_false : prefixb (lit "http") [] = false.
Proof. reflexivity. Qed.

Lemma collect_results_spec (links : list node) (max_articles : Z) :
  forall urls,
    1 <= max_articles -> Z.of_nat (length urls) < max_articles ->
    collect_results links max_articles urls
    = firstn (Z.to_nat max_articles) (urls ++ http_urls links).
Proof.
  induction links as [|link links IH]; intros urls Hmax Hlen.
  - cbn. rewrite app_nil_r. symmetry. apply firstn_all2. lia.
  - cbn [collect_results]. unfold http_urls, hrefs in *. cbn [flat_map].
    unfold get_truthy. destruct (get link (lit "href")) as [href|].
    + cbn [app]. destruct (truthy href) eqn:Ht.
      * cbn [filter]. destruct (prefixb (lit "http") href) eqn:Hp.
        -- destruct (Z.geb_spec (Z.of_nat (length (urls ++ [href]))) max_articles)
             as [Hge|Hlt].
           ++ rewrite length_app in Hge. cbn [length] in Hge.
              replace (Z.to_nat max_articles) with (length (urls ++ [href]))
                by (rewrite length_app; cbn [length]; lia).
              match goal with
              | [ |- _ = firstn _ (urls ++ href :: ?rest) ] =>
                  change (urls ++ href :: rest) with (urls ++ [href] ++ rest);
                  rewrite (app_assoc urls [href] rest)
              end.
              symmetry. apply firstn_exact.
           ++ rewrite IH by lia. now rewrite <- app_assoc.
        -- destruct (Z.geb_spec (Z.of_nat (length urls)) max_articles); [lia|].
           now apply IH.
      * destruct href; [|discriminate]. cbn [filter]. rewrite prefixb_nil_false.
        now apply IH.
    + cbn [app]. now apply IH.
Qed.

Lemma collect_links_spec (links : list node) (max_articles : Z) :
  forall urls,
    1 <= max_articles -> Z.of_nat (length urls) < max_articles ->
    collect_links links max_articles urls
    = firstn (Z.to_nat max_articles) (urls ++ http_urls links).
Proof.
  induction links as [|link links IH]; intros urls Hmax Hlen.
  - cbn. rewrite app_nil_r. symmetry. apply firstn_all2. lia.
  - cbn [collect_links]. unfold http_urls, hrefs in *. cbn [flat_map].
    destruct (get link (lit "href")) as [href|].
    + cbn [app]. cbn [filter]. destruct (prefixb (lit "http") href) eqn:Hp.
      * destruct (Z.geb_spec (Z.of_nat (length (urls ++ [href]))) max_articles)
          as [Hge|Hlt].
        -- rewrite length_app in Hge. cbn [length] in Hge.
           replace (Z.to_nat max_articles) with (length (urls ++ [href]))
             by (rewrite length_app; cbn [length]; lia).
           match goal with
           | [ |- _ = firstn _ (urls ++ href :: ?rest) ] =>
               change (urls ++ href :: rest) with (urls ++ [href] ++ rest);
               rewrite (app_assoc urls [href] rest)
           end.
           symmetry. apply firstn_exact.
        -- rewrite IH by lia. now rewrite <- app_assoc.
      * destruct (Z.geb_spec (Z.of_nat (length urls)) max_articles); [lia|].
        now apply IH.
    + cbn [app]. now apply IH.
Qed.

(** With a limit that is not positive, the loops stop at the first link
    they read. *)
Lemma collect_results_short (links : list node) (max_articles : Z) :
  max_articles <= 0 ->
  (length (collect_results links max_articles []) <= 1)%nat.
Proof.
  intros Hmax. induction links as [|link links IH]; [cbn; lia|].
  cbn [collect_results]. destruct (get_truthy link (lit "href")) as [href|]; [|exact IH].
  destruct (prefixb (lit "http") href).
  - destruct (Z.geb_spec (Z.of_nat (length ([] ++ [href]))) max_articles) as [_|H];
      [cbn; lia | cbn in H; lia].
  - destruct (Z.geb_spec (Z.of_nat (@length str [])) max_articles) as [_|H];
      [cbn; lia | cbn in H; lia].
Qed.

Lemma collect_links_short (links : list node) (max_articles : Z) :
  max_articles <= 0 ->
  (length (collect_links links max_articles []) <= 1)%nat.
Proof.
  intros Hmax. induction links as [|link links IH]; [cbn; lia|].
  cbn [collect_links]. destruct (get link (lit "href")) as [href|]; [|exact IH].
  destruct (prefixb (lit "http") href).
  - destruct (Z.geb_spec (Z.of_nat (length ([] ++ [href]))) max_articles) as [_|H];
      [cbn; lia | cbn in H; lia].
  - destruct (Z.geb_spec (Z.of_nat (@length str [])) max_articles) as [_|H];
      [cbn; lia | cbn in H; lia].
Qed.

Lemma slice_to_short {A : Type} (k : Z) (l : list A) :
  k <= 0 -> (length l <= 1)%nat -> slice_to k l = [].
Proof.
  intros Hk Hl. unfold slice_to. destruct (Z.leb_spec 0 k).
  - replace (Z.to_nat k) with 0%nat by lia. reflexivity.
  - replace (Z.to_nat (Z.of_nat (length l) + k)) with 0%nat by lia. reflexivity.
Qed.

Lemma firstn_nonempty_iff {A : Type} (n : nat) (l : list A) :
  (0 < n)%nat ->
  ArticleParser.nonempty (firstn n l) = ArticleParser.nonempty l.
Proof. destruct n; [lia|]. now destruct l. Qed.

Lemma http_urls_http (links : list node) :
  Forall (fun u => prefixb (lit "http") u = true) (http_urls links).
Proof.
  unfold http_urls. apply Forall_forall. intros u Hu.
  now apply filter_In in Hu as [_ Hu].
Qed.

Lemma search_urls_eq (doc : soup) (max_articles : Z) :
  search_urls doc max_articles
  = firstn (Z.to_nat max_articles)
      (let primary := http_urls (find_all result_link doc) in
       if ArticleParser.nonempty primary then primary
       else http_urls (find_all link_with_href doc)).
Proof.
  unfold search_urls. cbv zeta.
  destruct (Z_le_gt_dec max_articles 0) as [Hle|Hgt].
  - replace (Z.to_nat max_articles) with 0%nat by lia. cbn [firstn].
    apply slice_to_short; [assumption|].
    destruct (ArticleParser.nonempty (collect_results _ _ _)) eqn:Hne; cbn [negb].
    + now apply collect_results_short.
    + destruct (collect_results _ _ _); [|discriminate].
      now apply collect_links_short.
  - rewrite (collect_results_spec _ max_articles []) by (cbn; lia). cbn [app].
    rewrite firstn_nonempty_iff by lia.
    unfold slice_to. destruct (Z.leb_spec 0 max_articles); [|lia].
    destruct (ArticleParser.nonempty (http_urls (find_all result_link doc))) eqn:Hne;
      cbn [negb].
    + rewrite firstn_firstn. f_equal. lia.
    + destruct (http_urls (find_all result_link doc)); [|discriminate].
      rewrite firstn_nil.
      rewrite (collect_links_spec _ max_articles []) by (cbn; lia). cbn [app].
      rewrite firstn_firstn. f_equal. lia.
Qed.

Lemma search_urls_http (doc : soup) (max_articles : Z) :
  Forall (fun u => prefixb (lit "http") u = true) (search_urls doc max_articles).
Proof.
  rewrite search_urls_eq. cbv zeta.
  apply Forall_forall. intros u Hu. apply firstn_incl in Hu.
  destruct (ArticleParser.nonempty _);
    [pose proof (http_urls_http (find_all result_link doc)) as H
    |pose proof (http_urls_http (find_all link_with_href doc)) as H];
    rewrite Forall_forall in H; now apply H.
Qed.

(** X17: the URLs that [search_news_duckduckgo] reads in a page of results
    are the first [max_articles] values that start with "http" among the
    [href] attributes of the links of class [result__a], in the order of the
    document, or, when there is none, among the [href] attributes of all the
    links; there is no URL for a limit that is not positive.  So every URL
    starts with "http" and there are at most [max_articles] of them. *)
Theorem search_urls_closed_form (doc : soup) (max_articles : Z) :
  search_urls doc max_articles
  = firstn (Z.to_nat max_articles)
      (let primary := http_urls (find_all result_link doc) in
       if ArticleParser.nonempty primary then primary
       else http_urls (find_all link_with_href doc)) /\
  Forall (fun u => prefixb (lit "http") u = true) (search_urls doc max_articles) /\
  Z.of_nat (length (search_urls doc max_articles)) <= Z.max 0 max_articles.
Proof.
  split; [apply search_urls_eq|]. split; [apply search_urls_http|].
  rewrite search_urls_eq. rewrite length_firstn. lia.
Qed.

(** *** The title of an article *)

Lemma first_line_nonempty (text : str) :
  trimmed text -> text <> [] -> first_line text <> [].
Proof.
  intros [Hhead _] Hne. destruct text as [|c rest]; [contradiction|].
  specialize (Hhead c rest eq_refl). cbn [first_line].
  destruct (Ascii.eqb_spec c "010"%char) as [->|_]; [discriminate Hhead | discriminate].
Qed.

Lemma article_title_of_metadata (t text url : str) :
  t <> [] -> article_title (Some t) text url = t.
Proof. intros Ht. unfold article_title. destruct t; [contradiction | reflexivity]. Qed.

Lemma article_title_fallback (mt : option str) (text url : str) :
  mt = None \/ mt = Some [] ->
  trimmed text ->
  article_title mt text url = if truthy text then firstn 120 (first_line text) else url.
Proof.
  intros Hmt Htr.
  assert (Hfb : article_title mt text url
                = (let first_line := if truthy text then first_line text else [] in
                   if truthy first_line then firstn 120 first_line else url)).
  { destruct Hmt as [-> | ->]; reflexivity. }
  rewrite Hfb. cbv zeta. destruct text as [|c rest]; [reflexivity|].
  cbn [truthy].
  pose proof (first_line_nonempty (c :: rest) Htr ltac:(discriminate)) as Hne.
  destruct (first_line (c :: rest)); [contradiction | reflexivity].
Qed.

Lemma article_title_nonempty (mt : option str) (text url : str) :
  trimmed text -> url <> [] -> article_title mt text url <> [].
Proof.
  intros Htr Hurl.
  destruct mt as [[|c t]|].
  - rewrite article_title_fallback by auto.
    destruct text as [|c rest]; [assumption|]. cbn [truthy].
    apply firstn_nonempty; [lia|]. apply first_line_nonempty; [assumption | discriminate].
  - rewrite article_title_of_metadata; discriminate.
  - rewrite article_title_fallback by auto.
    destruct text as [|c rest]; [assumption|]. cbn [truthy].
    apply firstn_nonempty; [lia|]. apply first_line_nonempty; [assumption | discriminate].
Qed.

(** X18: the title of an article that [parse_article] returns is the title of
    the metadata when that is a non-empty string; otherwise it is the first
    line of the text, cut at 120 characters, when there is a text, and that
    line is never empty; the URL is the title only of an article without
    text.  The title is never empty when the URL is not. *)
Theorem article_title_resolution (html_parser : str -> soup) (url loaded_time : str)
  (response : Http.Response) :
  let article := article_of html_parser url loaded_time response in
  let metadata_title := ArticleParser.title (Article.metadata article) in
  (url <> [] -> Article.title article <> []) /\
  (forall t, metadata_title = Some t -> t <> [] -> Article.title article = t) /\
  (metadata_title = None \/ metadata_title = Some [] ->
   Article.title article
   = if truthy (Article.text article)
     then firstn 120 (first_line (Article.text article))
     else url) /\
  (Article.text article <> [] -> first_line (Article.text article) <> []).
Proof.
  cbv zeta. cbn [article_of Article.title Article.metadata Article.text].
  pose proof (extract_text_trimmed (html_parser (Http.text response))) as Htr.
  split; [|split; [|split]].
  - intros Hurl. now apply article_title_nonempty.
  - intros t -> Ht. now apply article_title_of_metadata.
  - intros Hmt. now apply article_title_fallback.
  - intros Hne. now apply first_line_nonempty.
Qed.

(** *** The record of an article *)

Lemma record_of_article (query_text : str) (article : Article.t) :
  Article.title article <> [] ->
  Z.of_nat (length (Article.text article)) <= sys_maxsize ->
  exists record,
    record_of query_text article = Done record /\
    ArticleRecord.title record = Article.title article /\
    Summarizer.title (ArticleRecord.aiSummary record) = Article.title article /\
    0 <= Summarizer.score (ArticleRecord.aiSummary record) <= 100 /\
    ArticleRecord.url record = Article.url article /\
    ArticleRecord.text record = Article.text article /\
    ArticleRecord.metadata record = Article.metadata article /\
    ArticleRecord.crawl record = Article.crawl article.
Proof.
  intros Htitle Hlen. unfold record_of.
  assert (Htext : or_else (Article.text article) [] = Article.text article)
    by (now destruct (Article.text article)).
  rewrite Htext.
  destruct (summarize_returns (Article.text article) query_text
              (Some (Article.title article)) 3 Hlen) as (r & Hr).
  rewrite Hr. cbn [lift and_then].
  pose proof (summarize_title_or _ _ _ _ _ Hr) as Ht. cbn [Summarizer.title_or] in Ht.
  rewrite or_else_nonempty in Ht by assumption.
  pose proof (summarize_score_range_returned _ _ _ _ _ Hr) as Hscore.
  eexists. split; [reflexivity|].
  cbn [build_article_record ArticleRecord.title ArticleRecord.aiSummary
       ArticleRecord.url ArticleRecord.text ArticleRecord.metadata ArticleRecord.crawl
       Summarizer.title Summarizer.score].
  rewrite or_else_nonempty by assumption.
  repeat split; try assumption; try lia.
  - now destruct (Article.metadata article).
  - now destruct (Article.crawl article).
Qed.

(** X19: what the loop of [run_scraper] does with one URL, whatever the
    network does.  When [get] fails, the URL is skipped and nothing is
    raised.  When [get] returns a response, and the text has a length a
    Python string can have, a record is made: its title is not empty and is
    also the title of its [aiSummary], the score is between 0 and 100, the
    status code is from 200 to 399, and the URL, the text and the metadata
    are those of the page. *)
Theorem process_url_record (html_parser : str -> soup) (self : Http.RequestHandler)
  (net : Http.network) (loaded_time query_text url : str) :
  url <> [] ->
  exists result log fetched,
    process_url html_parser self net loaded_time query_text url = Some (result, log) /\
    Http.get self net = Some (fetched, log) /\
    match fetched with
    | Http.Fails _ => result = Done None
    | Http.Returns response =>
        let text := ArticleParser._extract_text (html_parser (Http.text response)) in
        Z.of_nat (length text) <= sys_maxsize ->
        exists record,
          result = Done (Some record) /\
          ArticleRecord.url record = url /\
          ArticleRecord.text record = text /\
          ArticleRecord.title record <> [] /\
          Summarizer.title (ArticleRecord.aiSummary record) = ArticleRecord.title record /\
          0 <= Summarizer.score (ArticleRecord.aiSummary record) <= 100 /\
          200 <= httpStatusCode (ArticleRecord.crawl record) < 400 /\
          loadedUrl (ArticleRecord.crawl record) = Http.url response /\
          ArticleRecord.metadata record
          = ArticleParser._extract_metadata (html_parser (Http.text response)) url
    end.
Proof.
  intros Hurl. destruct (get_run self net) as (fetched & log & Hget & Hrun).
  unfold process_url, parse_article. rewrite Hget.
  destruct fetched as [response | [last_exc|]].
  - eexists _, log, (Http.Returns response). split; [reflexivity|].
    split; [reflexivity|]. cbv zeta. intros Hlen.
    set (article := article_of html_parser url loaded_time response).
    assert (Htitle : Article.title article <> []).
    { unfold article. cbn [article_of Article.title].
      apply article_title_nonempty; [apply extract_text_trimmed | assumption]. }
    destruct (record_of_article query_text article Htitle Hlen)
      as (record & Hrec & Ht & Hai & Hscore & Hu & Htx & Hmd & Hcr).
    exists record. rewrite Hrec. cbn [and_then].
    split; [reflexivity|]. rewrite Hu, Htx, Ht, Hai, Hmd, Hcr.
    unfold article. cbn [article_of Article.url Article.text Article.title
                          Article.metadata Article.crawl httpStatusCode loadedUrl].
    destruct (run_returns _ _ _ _ _ _ Hrun response eq_refl) as (Hs & _).
    unfold Http.is_success in Hs. apply andb_prop in Hs as [H1 H2].
    repeat split; try assumption; try reflexivity; try lia.
  - eexists _, log, _. split; [reflexivity|]. split; reflexivity.
  - eexists _, log, _. split; [reflexivity|]. split; reflexivity.
Qed.

Lemma process_url_record_witness :
  exists record log,
    process_url example_parser Http.default_handler Http.flaky
      (lit "2024-05-02T00:00:00Z") (lit "article") (lit "http://example.com/")
    = Some (Done (Some record), log) /\
    ArticleRecord.title record <> [] /\
    Summarizer.title (ArticleRecord.aiSummary record) = ArticleRecord.title record /\
    0 <= Summarizer.score (ArticleRecord.aiSummary record) <= 100.
Proof.
  destruct (process_url_record example_parser Http.default_handler Http.flaky
              (lit "2024-05-02T00:00:00Z") (lit "article") (lit "http://example.com/"))
    as (result & log & fetched & Hp & Hg & Hm); [discriminate|].
  assert (Hg' : Http.get Http.default_handler Http.flaky
                = Some (Http.Returns Http.page,
                        [Http.Request 1; Http.Sleep 0; Http.Request 2; Http.Sleep 1;
                         Http.Request 3])) by reflexivity.
  rewrite Hg' in Hg. injection Hg as <- <-.
  destruct Hm as (record & -> & _ & _ & Ht & Hai & Hs & _).
  { vm_compute. discriminate. }
  exists record, [Http.Request 1; Http.Sleep 0; Http.Request 2; Http.Sleep 1;
                  Http.Request 3].
  repeat split; try assumption; lia.
Defined.

(** *** Freshness *)

Section Freshness.

Variable strptime : str -> str -> option datetime.

Lemma keeps_cases (cutoff : Z) (rec : ArticleRecord.t) :
  keeps strptime cutoff rec
  = if has_time_zone (published_at strptime rec) then Raised TypeError
    else Done (not_before cutoff (published_at strptime rec)).
Proof.
  unfold keeps, published_at.
  destruct (ArticleParser.published (ArticleRecord.metadata rec)) as [p|]; [|reflexivity].
  destruct (truthy p) eqn:Ht; cbn [negb].
  - destruct (parse_iso8601 strptime p) as [[t|t o]|]; reflexivity.
  - unfold parse_iso8601. rewrite Ht. reflexivity.
Qed.

Lemma filter_loop_naive (cutoff : Z) (records : list ArticleRecord.t) :
  Forall (fun rec => has_time_zone (published_at strptime rec) = false) records ->
  filter_loop strptime cutoff records
  = Done (filter (fun rec => not_before cutoff (published_at strptime rec)) records).
Proof.
  induction 1 as [|rec records Hrec _ IH]; [reflexivity|].
  cbn [filter_loop filter]. rewrite keeps_cases, Hrec, IH. cbn [and_then].
  reflexivity.
Qed.

Lemma filter_loop_time_zone (cutoff : Z) (records : list ArticleRecord.t) :
  Exists (fun rec => has_time_zone (published_at strptime rec) = true) records ->
  filter_loop strptime cutoff records = Raised TypeError.
Proof.
  induction records as [|rec records IH]; intros Hex; [inversion Hex|].
  cbn [filter_loop]. rewrite keeps_cases.
  destruct (has_time_zone (published_at strptime rec)) eqn:Hrec; [reflexivity|].
  cbn [and_then]. rewrite IH; [reflexivity|].
  inversion Hex; subst; [congruence | assumption].
Qed.

Lemma filter_loop_done (cutoff : Z) (records kept : list ArticleRecord.t) :
  filter_loop strptime cutoff records = Done kept ->
  Forall (fun rec => has_time_zone (published_at strptime rec) = false) records.
Proof.
  revert kept. induction records as [|rec records IH]; intros kept H; [constructor|].
  cbn [filter_loop] in H. rewrite keeps_cases in H.
  destruct (has_time_zone (published_at strptime rec)) eqn:Hrec; [discriminate|].
  cbn [and_then] in H.
  destruct (filter_loop strptime cutoff records) as [k|e] eqn:Hk; [|discriminate].
  constructor; [assumption | now apply (IH k)].
Qed.

Lemma filter_by_freshness_shape (utcnow : Z) (records kept : list ArticleRecord.t)
  (h : Z) :
  h <> 0 ->
  filter_by_freshness strptime utcnow records (Some h) = Done kept ->
  0 <= utcnow - h * 3600000000 <= datetime_max /\
  Forall (fun rec => has_time_zone (published_at strptime rec) = false) records /\
  kept = filter (fun rec => not_before (utcnow - h * 3600000000)
                              (published_at strptime rec)) records.
Proof.
  intros Hh. unfold filter_by_freshness.
  destruct (Z.eqb_spec h 0) as [|_]; [contradiction|].
  unfold cutoff_of.
  destruct (Z.leb_spec 0 (utcnow - h * 3600000000)) as [Hlo|Hlo];
    destruct (Z.leb_spec (utcnow - h * 3600000000) datetime_max) as [Hhi|Hhi];
    cbn [andb and_then]; try discriminate.
  intros Hk. pose proof (filter_loop_done _ _ _ Hk) as Hall.
  rewrite (filter_loop_naive _ _ Hall) in Hk.
  split; [lia|]. split; [assumption | congruence].
Qed.

(** X20: when [filter_by_freshness] returns, it returns the records as they
    are if [max_age_hours] is [None] or 0; otherwise no record has a date
    with a time zone, and the records kept are, in their order, those whose
    date is absent, empty, unreadable, or not before the cutoff
    [utcnow - max_age_hours]. *)
Theorem filter_by_freshness_kept (utcnow : Z) (records kept : list ArticleRecord.t)
  (max_age_hours : option Z) :
  filter_by_freshness strptime utcnow records max_age_hours = Done kept ->
  match max_age_hours with
  | None | Some 0 => kept = records
  | Some h =>
      0 <= utcnow - h * 3600000000 <= datetime_max /\
      Forall (fun rec => has_time_zone (published_at strptime rec) = false) records /\
      kept = filter (fun rec => not_before (utcnow - h * 3600000000)
                                  (published_at strptime rec)) records
  end.
Proof.
  intros H. destruct max_age_hours as [h|]; [|cbn in H; congruence].
  destruct (Z.eq_dec h 0) as [->|Hh]; [cbn in H; congruence|].
  pose proof (filter_by_freshness_shape utcnow records kept h Hh H) as Hshape.
  destruct h as [|p|p]; [contradiction | exact Hshape | exact Hshape].
Qed.

(** X21: with a window that is not 0, a record whose date is read as a
    [datetime] with a time zone, which is how the first format reads a date
    that ends in "Z" or in an offset, makes [filter_by_freshness] raise
    [TypeError]: the cutoff is a naive [datetime]. *)
Theorem filter_by_freshness_time_zone (utcnow h : Z) (records : list ArticleRecord.t)
  (rec : ArticleRecord.t) :
  h <> 0 ->
  0 <= utcnow - h * 3600000000 <= datetime_max ->
  In rec records ->
  has_time_zone (published_at strptime rec) = true ->
  filter_by_freshness strptime utcnow records (Some h) = Raised TypeError.
Proof.
  intros Hh Hrange Hin Htz. unfold filter_by_freshness, cutoff_of.
  destruct (Z.eqb_spec h 0) as [|_]; [contradiction|].
  destruct (Z.leb_spec 0 (utcnow - h * 3600000000)) as [Hlo|Hlo]; [|lia].
  destruct (Z.leb_spec (utcnow - h * 3600000000) datetime_max) as [Hhi|Hhi]; [|lia].
  cbn [andb and_then]. apply filter_loop_time_zone.
  apply Exists_exists. eauto.
Qed.

End Freshness.

Lemma filter_by_freshness_kept_witness :
  0 <= 63850204800000000 - 12 * 3600000000 <= datetime_max /\
  Forall (fun rec => has_time_zone (published_at example_strptime rec) = false)
    [example_record (Some (lit "2024-05-01")); example_record None;
     example_record (Some (lit "yesterday"))] /\
  [example_record None; example_record (Some (lit "yesterday"))]
  = filter (fun rec => not_before (63850204800000000 - 12 * 3600000000)
                         (published_at example_strptime rec))
      [example_record (Some (lit "2024-05-01")); example_record None;
       example_record (Some (lit "yesterday"))].
Proof.
  apply (filter_by_freshness_kept example_strptime 63850204800000000
           [example_record (Some (lit "2024-05-01")); example_record None;
            example_record (Some (lit "yesterday"))]
           [example_record None; example_record (Some (lit "yesterday"))]
           (Some 12)).
  vm_compute. reflexivity.
Defined.

Lemma filter_by_freshness_time_zone_witness :
  filter_by_freshness example_strptime 63850204800000000
    [example_record None; example_record (Some (lit "2024-05-01T12:00:00Z"))]
    (Some 24)
  = Raised TypeError.
Proof.
  apply (filter_by_freshness_time_zone example_strptime 63850204800000000 24
           _ (example_record (Some (lit "2024-05-01T12:00:00Z")))).
  - discriminate.
  - vm_compute. split; discriminate.
  - right. left. reflexivity.
  - reflexivity.
Defined.

(** *** The records that are written *)

Lemma prefixb_http_nonempty (url : str) : prefixb (lit "http") url = true -> url <> [].
Proof. intros H ->. discriminate. Qed.

Lemma record_of_inv (query_text : str) (article : Article.t) (record : ArticleRecord.t) :
  record_of query_text article = Done record ->
  Article.title article <> [] ->
  ArticleRecord.title record = Article.title article /\
  Summarizer.title (ArticleRecord.aiSummary record) = Article.title article /\
  0 <= Summarizer.score (ArticleRecord.aiSummary record) <= 100 /\
  ArticleRecord.url record = Article.url article /\
  ArticleRecord.text record = Article.text article /\
  ArticleRecord.crawl record = Article.crawl article.
Proof.
  unfold record_of. intros H Htitle.
  assert (Htext : or_else (Article.text article) [] = Article.text article)
    by (now destruct (Article.text article)).
  rewrite Htext in H.
  destruct (Summarizer.summarize (Article.text article) query_text
              (Some (Article.title article)) 3) as [r|e] eqn:Hr; [|discriminate].
  cbn [lift and_then] in H. injection H as <-.
  pose proof (summarize_title_or _ _ _ _ _ Hr) as Ht. cbn [Summarizer.title_or] in Ht.
  rewrite or_else_nonempty in Ht by assumption.
  pose proof (summarize_score_range_returned _ _ _ _ _ Hr) as Hscore.
  cbn [build_article_record ArticleRecord.title ArticleRecord.aiSummary
       ArticleRecord.url ArticleRecord.text ArticleRecord.crawl
       Summarizer.title Summarizer.score].
  rewrite or_else_nonempty by assumption.
  repeat split; try assumption; try lia.
  now destruct (Article.crawl article).
Qed.

Lemma process_url_well_formed (html_parser : str -> soup) (self : Http.RequestHandler)
  (net : Http.network) (loaded_time query_text url : str) (record : ArticleRecord.t)
  (log : list Http.event) :
  process_url html_parser self net loaded_time query_text url
  = Some (Done (Some record), log) ->
  prefixb (lit "http") url = true ->
  well_formed record.
Proof.
  unfold process_url, parse_article. intros H Hurl.
  destruct (Http.get self net) as [[[response | [last_exc|]] log']|] eqn:Hget;
    try discriminate.
  set (article := article_of html_parser url loaded_time response) in *.
  destruct (record_of query_text article) as [rec|e] eqn:Hrec; [|discriminate].
  cbn [and_then] in H. injection H as <- <-.
  assert (Htitle : Article.title article <> []).
  { unfold article. cbn [article_of Article.title].
    apply article_title_nonempty; [apply extract_text_trimmed|].
    now apply prefixb_http_nonempty. }
  destruct (record_of_inv _ _ _ Hrec Htitle) as (Ht & Hai & Hscore & Hu & Htx & Hcr).
  apply run_of_get in Hget.
  destruct (run_returns _ _ _ _ _ _ Hget response eq_refl) as (Hs & _).
  unfold Http.is_success in Hs. apply andb_prop in Hs as [H1 H2].
  unfold well_formed. rewrite Hu, Ht, Hai, Htx, Hcr.
  unfold article. cbn [article_of Article.url Article.text Article.title Article.crawl
                        httpStatusCode].
  fold article. repeat split; try assumption; try lia.
  - intros c r Hc. now apply (proj1 (extract_text_trimmed (html_parser (Http.text response))) c r).
  - intros c r Hc. now apply (proj2 (extract_text_trimmed (html_parser (Http.text response))) c r).
Qed.

Lemma process_url_ends (html_parser : str -> soup) (self : Http.RequestHandler)
  (net : Http.network) (loaded_time query_text url : str) :
  exists res, process_url html_parser self net loaded_time query_text url = Some res.
Proof.
  destruct (get_run self net) as (fetched & log & Hget & _).
  unfold process_url, parse_article. rewrite Hget.
  destruct fetched as [response | [last_exc|]]; eauto.
Qed.

Lemma process_urls_well_formed (html_parser : str -> soup) (self : Http.RequestHandler)
  (world : World) (query_text : str) (urls : list str) :
  forall (i : nat) (all_records final : list ArticleRecord.t),
    process_urls html_parser self world query_text i urls all_records
    = Some (Done final) ->
    Forall (fun u => prefixb (lit "http") u = true) urls ->
    Forall well_formed all_records ->
    Forall well_formed final.
Proof.
  induction urls as [|url urls IH]; intros i all_records final H Hurls Hall.
  - injection H as <-. assumption.
  - cbn [process_urls] in H. apply Forall_cons_iff in Hurls as [Hurl Hurls].
    destruct (process_url html_parser self (page_net world i) (loaded_at world i)
                query_text url) as [[[[record|]|e] log]|] eqn:Hp; try discriminate.
    + apply (IH _ _ _ H Hurls). apply Forall_app. split; [assumption|].
      constructor; [|constructor].
      exact (process_url_well_formed _ _ _ _ _ _ _ _ Hp Hurl).
    + exact (IH _ _ _ H Hurls Hall).
Qed.

Lemma process_urls_ends (html_parser : str -> soup) (self : Http.RequestHandler)
  (world : World) (query_text : str) (urls : list str) :
  forall (i : nat) (all_records : list ArticleRecord.t),
    exists res,
      process_urls html_parser self world query_text i urls all_records = Some res.
Proof.
  induction urls as [|url urls IH]; intros i all_records; [cbn; eauto|].
  cbn [process_urls].
  destruct (process_url_ends html_parser self (page_net world i) (loaded_at world i)
              query_text url) as ([[[record|]|e] log] & ->); eauto.
Qed.

Lemma filter_by_freshness_incl (strptime : str -> str -> option datetime) (now : Z)
  (records kept : list ArticleRecord.t) (max_age_hours : option Z) :
  filter_by_freshness strptime now records max_age_hours = Done kept ->
  incl kept records.
Proof.
  unfold filter_by_freshness. destruct max_age_hours as [h|].
  - destruct (h =? 0).
    + intros [= <-]. apply incl_refl.
    + destruct (cutoff_of now h) as [cutoff|e]; [|discriminate]. cbn [and_then].
      intros H. pose proof (filter_loop_done _ _ _ _ H) as Hall.
      rewrite (filter_loop_naive _ _ _ Hall) in H. injection H as <-.
      intros r Hr. now apply filter_In in Hr as [Hr _].
  - intros [= <-]. apply incl_refl.
Qed.

Lemma search_ends (html_parser : str -> soup) (self : Http.RequestHandler)
  (net : Http.network) (max_articles : Z) :
  exists res log,
    search_news_duckduckgo html_parser self net max_articles = Some (res, log) /\
    forall urls, res = Done urls -> Forall (fun u => prefixb (lit "http") u = true) urls.
Proof.
  destruct (get_run self net) as (fetched & log & Hget & _).
  unfold search_news_duckduckgo. rewrite Hget.
  destruct fetched as [response | [last_exc|]]; do 2 eexists; (split; [reflexivity|]);
    intros urls [= <-]; [apply search_urls_http | constructor].
Qed.

Lemma run_query_well_formed (html_parser : str -> soup)
  (strptime : str -> str -> option datetime) (self : Http.RequestHandler)
  (q : Query) (world : World) (all_records final : list ArticleRecord.t) :
  run_query html_parser strptime self q world all_records = Some (Done final) ->
  Forall well_formed all_records -> Forall well_formed final.
Proof.
  unfold run_query. intros H Hall.
  destruct (search_ends html_parser self (search_net world) (max_articles q))
    as (res & log & Hs & Hurls).
  rewrite Hs in H. destruct res as [urls|e]; [|discriminate].
  specialize (Hurls urls eq_refl).
  destruct (process_urls html_parser self world (query q) 0 urls all_records)
    as [[records|e]|] eqn:Hp; try discriminate.
  injection H as H.
  pose proof (process_urls_well_formed _ _ _ _ _ _ _ _ Hp Hurls Hall) as Hwf.
  apply filter_by_freshness_incl in H.
  rewrite Forall_forall in *. intros r Hr. apply Hwf, H, Hr.
Qed.

Lemma run_query_ends (html_parser : str -> soup)
  (strptime : str -> str -> option datetime) (self : Http.RequestHandler)
  (q : Query) (world : World) (all_records : list ArticleRecord.t) :
  exists res, run_query html_parser strptime self q world all_records = Some res.
Proof.
  unfold run_query.
  destruct (search_ends html_parser self (search_net world) (max_articles q))
    as (res & log & -> & _).
  destruct res as [urls|e]; [|eauto].
  destruct (process_urls_ends html_parser self world (query q) urls 0 all_records)
    as ([records|e] & ->); eauto.
Qed.

Lemma run_queries_well_formed (html_parser : str -> soup)
  (strptime : str -> str -> option datetime) (self : Http.RequestHandler)
  (queries : list (Query * World)) :
  forall all_records final,
    run_queries html_parser strptime self queries all_records = Some (Done final) ->
    Forall well_formed all_records -> Forall well_formed final.
Proof.
  induction queries as [|[q world] queries IH]; intros all_records final H Hall.
  - injection H as <-. assumption.
  - cbn [run_queries] in H.
    destruct (run_query html_parser strptime self q world all_records)
      as [[records|e]|] eqn:Hq; try discriminate.
    apply (IH _ _ H). exact (run_query_well_formed _ _ _ _ _ _ _ Hq Hall).
Qed.

Lemma run_queries_ends (html_parser : str -> soup)
  (strptime : str -> str -> option datetime) (self : Http.RequestHandler)
  (queries : list (Query * World)) :
  forall all_records,
    exists res, run_queries html_parser strptime self queries all_records = Some res.
Proof.
  induction queries as [|[q world] queries IH]; intros all_records; [cbn; eauto|].
  cbn [run_queries].
  destruct (run_query_ends html_parser strptime self q world all_records)
    as ([records|e] & ->); eauto.
Qed.

(** X22: [run_scraper] ends, whatever the network does, and when it ends
    without an exception every record it writes is well formed: its URL
    starts with "http", its title is not empty and is the title of its
    [aiSummary], its score is between 0 and 100, its status code is from 200
    to 399, and its text has no white space at its ends. *)
Theorem run_scraper_records (html_parser : str -> soup)
  (strptime : str -> str -> option datetime) (self : Http.RequestHandler)
  (queries : list (Query * World)) :
  (exists result, run_scraper html_parser strptime self queries = Some result) /\
  (forall records,
     run_scraper html_parser strptime self queries = Some (Done records) ->
     Forall well_formed records).
Proof.
  split; [apply run_queries_ends|].
  intros records H. apply (run_queries_well_formed _ _ _ _ _ _ H). constructor.
Qed.

Lemma run_scraper_records_witness :
  length example_output = 2%nat /\ Forall well_formed example_output.
Proof.
  split; [reflexivity|].
  apply (run_scraper_records example_parser example_strptime Http.default_handler
           [(example_query, example_world)]).
  vm_compute. reflexivity.
Defined.


(** *** The window of a query *)

(** X23: in [run_scraper] the filter of a query is applied to all the
    records gathered so far.  When the body of the loop ends for a query with
    a window that is not 0, every record that is left, whichever query it
    comes from, has a date without a time zone that is absent, unreadable or
    not before the cutoff of this query; a record of an earlier query that
    is older than this cutoff is dropped. *)
Theorem run_query_window (html_parser : str -> soup)
  (strptime : str -> str -> option datetime) (self : Http.RequestHandler)
  (q : Query) (world : World) (all_records final : list ArticleRecord.t) (h : Z) :
  run_query html_parser strptime self q world all_records = Some (Done final) ->
  hours_back q = Some h -> h <> 0 ->
  let cutoff := utcnow world - h * 3600000000 in
  Forall (fun record =>
            has_time_zone (published_at strptime record) = false /\
            not_before cutoff (published_at strptime record) = true) final /\
  forall record,
    In record all_records ->
    not_before cutoff (published_at strptime record) = false ->
    ~ In record final.
Proof.
  intros H Hq Hh. cbv zeta. unfold run_query in H.
  destruct (search_news_duckduckgo html_parser self (search_net world) (max_articles q))
    as [[[urls|e] log]|]; try discriminate.
  destruct (process_urls html_parser self world (query q) 0 urls all_records)
    as [[records|e]|] eqn:Hp; try discriminate.
  injection H as H. rewrite Hq in H.
  pose proof (filter_by_freshness_shape strptime (utcnow world) records final h Hh H)
    as (_ & Hall & ->).
  split.
  - apply Forall_forall. intros r Hr. apply filter_In in Hr as [Hin Hnb].
    rewrite Forall_forall in Hall. split; [now apply Hall | assumption].
  - intros r _ Hnb Hin. apply filter_In in Hin as [_ Hin]. congruence.
Qed.

Lemma run_query_window_witness :
  let cutoff := utcnow example_world - 12 * 3600000000 in
  Forall (fun record =>
            has_time_zone (published_at example_strptime record) = false /\
            not_before cutoff (published_at example_strptime record) = true)
    example_filtered /\
  forall record,
    In record [earlier_record] ->
    not_before cutoff (published_at example_strptime record) = false ->
    ~ In record example_filtered.
Proof.
  apply (run_query_window example_parser example_strptime Http.default_handler
           narrow_query example_world [earlier_record] example_filtered 12).
  - vm_compute. reflexivity.
  - reflexivity.
  - discriminate.
Defined.

(** *** The input file *)

Lemma normalize_spec (queries : list json) :
  forall normalized,
    normalize queries normalized
    = if forallb is_query_entry queries then Accepted (normalized ++ queries)
      else Rejected EntryWithoutQuery.
Proof.
  induction queries as [|item queries IH]; intros normalized.
  - cbn. now rewrite app_nil_r.
  - cbn [normalize forallb]. destruct (is_query_entry item); cbn [negb andb]; [|reflexivity].
    rewrite IH. now rewrite <- app_assoc.
Qed.

(** X24: [load_input_file] accepts a payload exactly when it is an object
    whose "queries" item is an array of objects that each have a "query"
    item, and it then returns the entries of this array as they are, in
    their order: no other item of an entry is checked or filled in. *)
Theorem load_queries_accepts (payload : json) (queries : list json) :
  load_queries payload = Accepted queries <->
  exists items,
    payload = JObject items /\
    lookup_item (lit "queries") items = Some (JArray queries) /\
    forallb is_query_entry queries = true.
Proof.
  unfold load_queries. split.
  - destruct payload as [ | | | | | |items]; try discriminate.
    destruct (lookup_item (lit "queries") items) as [[ | | | | |qs| ]|] eqn:Hl;
      try discriminate.
    rewrite normalize_spec. destruct (forallb is_query_entry qs) eqn:Hall; [|discriminate].
    cbn [app]. intros [= <-]. exists items. now repeat split.
  - intros (items & -> & -> & Hall). rewrite normalize_spec, Hall. reflexivity.
Qed.

Lemma load_queries_example :
  exists entry, load_queries example_payload = Accepted [entry].
Proof. eexists. reflexivity. Qed.

End ScraperFacts.
